(** * The toy calculator: parser and complex-function back end

    A shallow embedding of [calculator-parser.js] (the AST-producing
    [tokenize] and [parse]) and of [compileToComplexFunction] from
    [calculator-backends.js]: the value table with interning, the four
    simplifying constructors, the lowering pass and the JS emitter. *)

From Stdlib Require Import ZArith Ascii SpecFloat DecimalString DecimalPos DecimalZ.
From Stdlib Require QArith.
From stdpp Require Import base list gmap strings pretty.

Local Open Scope string_scope.

(** ** Errors

    Both the parser and [lower] throw a JS [SyntaxError] carrying a message.
    Reading [values[i]] past the end of the array yields [undefined], and the
    property access on it throws a [TypeError]. *)
Inductive exn :=
  | SyntaxError (message : string)
  | TypeError.

(** ** calculator-parser.js *)

(** The AST: [{type: "number", value}], [{type: "name", id}] and
    [{type: t, left, right}] with [t] one of the four operator tokens. *)
Inductive binop := Plus | Minus | Times | Divide.

Inductive ast :=
  | Num (value : string)
  | Name (id : string)
  | BinOp (type : binop) (lhs rhs : ast).

Definition binop_text (o : binop) : string :=
  match o with Plus => "+" | Minus => "-" | Times => "*" | Divide => "/" end.

Definition code_of (c : ascii) : nat := nat_of_ascii c.

(** [\s] on the code units below 256. *)
Definition isSpace (c : ascii) : bool :=
  let n := code_of c in
  ((9 <=? n) && (n <=? 13) || (n =? 32) || (n =? 160))%nat.

(** [[A-Za-z]] *)
Definition isLetter (c : ascii) : bool :=
  let n := code_of c in
  ((65 <=? n) && (n <=? 90) || (97 <=? n) && (n <=? 122))%nat.

(** [[0-9]] *)
Definition isDigit (c : ascii) : bool :=
  let n := code_of c in ((48 <=? n) && (n <=? 57))%nat.

(** The longest prefix whose characters satisfy [p], and what follows it:
    a greedy [p+] or [p*]. *)
Fixpoint span (p : ascii -> bool) (s : string) : string * string :=
  match s with
  | EmptyString => (EmptyString, EmptyString)
  | String c rest =>
      if p c then let '(w, r) := span p rest in (String c w, r)
      else (EmptyString, s)
  end.

(** One round of the loop of [tokenize] per unit of [n]: a match of
    [/\s*([A-Za-z]+|[0-9]+|\S)\s*/g] from the current position.  Every match
    consumes a character, so [String.length code] rounds exhaust the input. *)
Fixpoint tokenize_loop (n : nat) (code : string) : list string :=
  match n with
  | O => []
  | S n' =>
      match snd (span isSpace code) with
      | EmptyString => []
      | String c rest as s =>
          if isLetter c then
            let '(w, r) := span isLetter s in w :: tokenize_loop n' r
          else if isDigit c then
            let '(w, r) := span isDigit s in w :: tokenize_loop n' r
          else String c EmptyString :: tokenize_loop n' rest
      end
  end.

Definition tokenize (code : string) : list string :=
  tokenize_loop (String.length code) code.

Fixpoint all_chars (p : ascii -> bool) (s : string) : bool :=
  match s with
  | EmptyString => true
  | String c rest => p c && all_chars p rest
  end.

Definition nonempty (s : string) : bool :=
  match s with EmptyString => false | _ => true end.

(** The parser's [isNumber(token)], [/^[0-9]+$/], and [isName(token)],
    [/^[A-Za-z]+$/]; the back end below has an [isNumber] of its own.  The
    token is [None] where [peek()] returns [undefined]. *)
Definition isNumberToken (token : option string) : bool :=
  match token with
  | Some t => nonempty t && all_chars isDigit t
  | None => false
  end.

Definition isNameToken (token : option string) : bool :=
  match token with
  | Some t => nonempty t && all_chars isLetter t
  | None => false
  end.

Definition binop_of_token (t : string) : option binop :=
  if t =? "+" then Some Plus
  else if t =? "-" then Some Minus
  else if t =? "*" then Some Times
  else if t =? "/" then Some Divide
  else None.

Definition isMulOp (o : binop) : bool :=
  match o with Times | Divide => true | _ => false end.

Definition isAddOp (o : binop) : bool :=
  match o with Plus | Minus => true | _ => false end.

(** The parser state is the list of tokens from [position] on.  A result is
    [None] when the recursion budget runs out, else what the JS function
    does: throw or return. *)
Definition parsed : Type := option (exn + (ast * list string)).

(** The [while] loop of [parseMulExpr] and of [parseExpr]: as long as the next
    token is one of the level's operators, parse a right operand with [operand]
    and extend [expr] to the left-nested node. *)
Fixpoint binop_loop (level : binop -> bool) (operand : list string -> parsed)
    (n : nat) (expr : ast) (tokens : list string) : parsed :=
  match n with
  | O => None
  | S n' =>
      match tokens with
      | t :: rest =>
          match binop_of_token t with
          | Some o =>
              if level o then
                match operand rest with
                | Some (inr (rhs, rest')) =>
                    binop_loop level operand n' (BinOp o expr rhs) rest'
                | other => other
                end
              else Some (inr (expr, tokens))
          | None => Some (inr (expr, tokens))
          end
      | [] => Some (inr (expr, tokens))
      end
  end.

(** [parsePrimaryExpr]; [parseExpr] is the function for what stands between
    parentheses. *)
Definition parsePrimaryExpr (parseExpr : list string -> parsed)
    (tokens : list string) : parsed :=
  let t := head tokens in
  if isNumberToken t then
    Some (inr (Num (default "" t), tail tokens))
  else if isNameToken t then
    Some (inr (Name (default "" t), tail tokens))
  else if bool_decide (t = Some "(") then
    match parseExpr (tail tokens) with
    | Some (inr (expr, rest)) =>
        if bool_decide (head rest = Some ")") then
          Some (inr (expr, tail rest))
        else Some (inl (SyntaxError "expected )"))
    | other => other
    end
  else
    Some (inl (SyntaxError "expected a number, a variable, or parentheses")).

(** [parseMulExpr]; [n] bounds the rounds of its loop. *)
Definition parseMulExpr (parseExpr : list string -> parsed) (n : nat)
    (tokens : list string) : parsed :=
  match parsePrimaryExpr parseExpr tokens with
  | Some (inr (expr, rest)) =>
      binop_loop isMulOp (parsePrimaryExpr parseExpr) n expr rest
  | other => other
  end.

(** [parseExpr]; [n] bounds the nesting of parentheses and the rounds of the
    loops. *)
Fixpoint parseExpr (n : nat) (tokens : list string) : parsed :=
  match n with
  | O => None
  | S n' =>
      match parseMulExpr (parseExpr n') n' tokens with
      | Some (inr (expr, rest)) =>
          binop_loop isAddOp (parseMulExpr (parseExpr n') n') n' expr rest
      | other => other
      end
  end.

(** [parse(code)]: the whole input must be consumed. *)
Definition parse (code : string) : option (exn + ast) :=
  let tokens := tokenize code in
  match parseExpr (S (List.length tokens)) tokens with
  | Some (inr (result, [])) => Some (inr result)
  | Some (inr (result, t :: _)) =>
      Some (inl (SyntaxError ("unexpected '" +:+ t +:+ "'")))
  | Some (inl e) => Some (inl e)
  | None => None
  end.

(** ** JS numbers as the back end uses them

    [compileToComplexFunction] touches numbers only through [Number(s)],
    [String(x)] and the four arithmetic operators.  The back end is embedded
    over this interface; [JSDouble] below instantiates it with IEEE 754
    binary64. *)
Record arith := {
  number : Type;
  JSNumber : string -> number;
  JSString : number -> string;
  arith_op : binop -> number -> number -> number
}.

(** ** calculator-backends.js: [compileToComplexFunction] *)

(** A value of the IR is one of
    [{type: "arg", arg0: "z_re" or "z_im", arg1: null}],
    [{type: "number", arg0: (string picture of number), arg1: null}] and
    [{type: (one of "+" "-" "*" "/"), arg0: (int), arg1: (int)}]. *)
Inductive value :=
  | VArg (name : string)
  | VNumber (picture : string)
  | VOp (o : binop) (a b : nat).

Inductive tag := TArg | TNumber | TOp (o : binop).

Definition type (v : value) : tag :=
  match v with VArg _ => TArg | VNumber _ => TNumber | VOp o _ _ => TOp o end.

Definition arg0 (v : value) : string + nat :=
  match v with VArg s => inl s | VNumber s => inl s | VOp _ a _ => inr a end.

Definition arg1 (v : value) : option nat :=
  match v with VOp _ _ b => Some b | _ => None end.

Global Instance binop_eq_dec : EqDecision binop.
Proof. solve_decision. Defined.
Global Instance tag_eq_dec : EqDecision tag.
Proof. solve_decision. Defined.
Global Instance value_eq_dec : EqDecision value.
Proof. solve_decision. Defined.

(** The table [values] as [compileToComplexFunction] creates it. *)
Definition initial_values : list value := [VArg "z_re"; VArg "z_im"].

Definition valuesEqual (n1 n2 : value) : bool :=
  bool_decide (type n1 = type n2) && bool_decide (arg0 n1 = arg0 n2)
  && bool_decide (arg1 n1 = arg1 n2).

(** The code inside [compileToComplexFunction] reads and extends the array
    [values] and may throw: a computation takes the table and either throws
    or returns a result with the table it leaves. *)
Definition M (A : Type) : Type := list value -> exn + (A * list value).

Global Instance M_ret : MRet M := fun A x values => inr (x, values).
Global Instance M_bind : MBind M := fun A B f m values =>
  match m values with
  | inl e => inl e
  | inr (x, values') => f x values'
  end.

Definition throw {A : Type} (e : exn) : M A := fun _ => inl e.

(** [values[i]], as far as a property of it is read next. *)
Definition getValue (i : nat) : M value := fun values =>
  match values !! i with
  | Some v => inr (v, values)
  | None => inl TypeError
  end.

(** The [for] loop of [valueToIndex] from index [i] on. *)
Fixpoint scan (v : value) (rest : list value) (i : nat) : option nat :=
  match rest with
  | [] => None
  | x :: rest' => if valuesEqual x v then Some i else scan v rest' (S i)
  end.

Definition valueToIndex (v : value) : M nat := fun values =>
  match scan v values 0 with
  | Some i => inr (i, values)
  | None => inr (List.length values, (values ++ [v])%list)
  end.

Definition num (s : string) : M nat := valueToIndex (VNumber s).

Definition op (o : binop) (a b : nat) : M nat := valueToIndex (VOp o a b).

Definition isNumber (i : nat) : M bool :=
  v ← getValue i; mret (bool_decide (type v = TNumber)).

Definition isZero (i : nat) : M bool :=
  n ← isNumber i;
  if n : bool then v ← getValue i; mret (bool_decide (arg0 v = inl "0"))
  else mret false.

Definition isOne (i : nat) : M bool :=
  n ← isNumber i;
  if n : bool then v ← getValue i; mret (bool_decide (arg0 v = inl "1"))
  else mret false.

(** [isNumber(a) && isNumber(b)] *)
Definition bothNumbers (a b : nat) : M bool :=
  n ← isNumber a; if n : bool then isNumber b else mret false.

(** The pair [{re: .., im: ..}] of indices into [values]. *)
Record pair_of_indices := Pair { re : nat; im : nat }.

Section Backend.
Context (A : arith).

(** [Number(values[i].arg0)]; the simplifier reads it under [isNumber(i)]
    only, where [arg0] is a string. *)
Definition Number_arg0 (i : nat) : M (number A) :=
  v ← getValue i;
  mret (JSNumber A (match arg0 v with inl s => s | inr k => pretty k end)).

(** [num(String(Number(values[a].arg0) o Number(values[b].arg0)))] *)
Definition fold_constants (o : binop) (a b : nat) : M nat :=
  x ← Number_arg0 a; y ← Number_arg0 b; num (JSString A (arith_op A o x y)).

Definition add (a b : nat) : M nat :=
  za ← isZero a;
  if za : bool then mret b else
  zb ← isZero b;
  if zb : bool then mret a else
  n ← bothNumbers a b;
  if n : bool then fold_constants Plus a b
  else op Plus a b.

Definition sub (a b : nat) : M nat :=
  zb ← isZero b;
  if zb : bool then mret a else
  n ← bothNumbers a b;
  if n : bool then fold_constants Minus a b
  else op Minus a b.

Definition mul (a b : nat) : M nat :=
  za ← isZero a;
  if za : bool then mret a else
  zb ← isZero b;
  if zb : bool then mret b else
  oa ← isOne a;
  if oa : bool then mret b else
  ob ← isOne b;
  if ob : bool then mret a else
  n ← bothNumbers a b;
  if n : bool then fold_constants Times a b
  else op Times a b.

Definition div (a b : nat) : M nat :=
  ob ← isOne b;
  if ob : bool then mret a else
  n ← bothNumbers a b;
  nz ← (if n : bool then z ← isZero b; mret (negb z) else mret false);
  if nz : bool then fold_constants Divide a b
  else op Divide a b.

Fixpoint lower (obj : ast) : M pair_of_indices :=
  match obj with
  | Num value =>
      r ← num value; i ← num "0"; mret (Pair r i)
  | BinOp Plus lhs rhs =>
      a ← lower lhs; b ← lower rhs;
      r ← add (re a) (re b); i ← add (im a) (im b); mret (Pair r i)
  | BinOp Minus lhs rhs =>
      a ← lower lhs; b ← lower rhs;
      r ← sub (re a) (re b); i ← sub (im a) (im b); mret (Pair r i)
  | BinOp Times lhs rhs =>
      a ← lower lhs; b ← lower rhs;
      rr ← mul (re a) (re b); ii ← mul (im a) (im b); r ← sub rr ii;
      ri ← mul (re a) (im b); ir ← mul (im a) (re b); i ← add ri ir;
      mret (Pair r i)
  | BinOp Divide lhs rhs =>
      a ← lower lhs; b ← lower rhs;
      t1 ← mul (re b) (re b); t2 ← mul (im b) (im b); t ← add t1 t2;
      rr ← mul (re a) (re b); ii ← mul (im a) (im b); n1 ← add rr ii;
      r ← div n1 t;
      ir ← mul (im a) (re b); ri ← mul (re a) (im b); n2 ← sub ir ri;
      i ← div n2 t;
      mret (Pair r i)
  | Name id =>
      if id =? "i" then r ← num "0"; i ← num "1"; mret (Pair r i)
      else if negb (id =? "z") then
        throw (SyntaxError ("undefined variable: " +:+ id))
      else mret (Pair 0 1)
  end.
End Backend.

(** *** The emitter *)

(** An element of the JS array [useCounts]: a number of uses, or [NaN], which
    is what [useCounts[k]++] stores when [useCounts[k]] is still [undefined]. *)
Inductive count := Count (n : nat) | NaN.

(** The value [useCounts[k]++] stores, from what [useCounts[k]] holds. *)
Definition increment (c : option count) : count :=
  match c with
  | Some (Count n) => Count (S n)
  | Some NaN | None => NaN
  end.

(** The body of the [for] loop of [computeUseCounts] at index [i]. *)
Definition computeUseCounts_body (i : nat) (node : value)
    (useCounts : gmap nat count) : gmap nat count :=
  let useCounts := <[i := Count 0]> useCounts in
  match node with
  | VOp _ a b =>
      let useCounts := <[a := increment (useCounts !! a)]> useCounts in
      <[b := increment (useCounts !! b)]> useCounts
  | _ => useCounts
  end.

(** The [for] loop of [computeUseCounts] from index [i] on. *)
Fixpoint computeUseCounts_loop (i : nat) (rest : list value)
    (useCounts : gmap nat count) : gmap nat count :=
  match rest with
  | [] => useCounts
  | node :: rest' =>
      computeUseCounts_loop (S i) rest' (computeUseCounts_body i node useCounts)
  end.

Definition computeUseCounts (values : list value) : gmap nat count :=
  computeUseCounts_loop 0 values ∅.

(** [useCounts[i] > 1] *)
Definition moreThanOnce (c : option count) : bool :=
  match c with
  | Some (Count n) => (1 <? n)%nat
  | Some NaN | None => false
  end.

Definition newline : string := String (ascii_of_nat 10) EmptyString.

(** The variables of [ir_to_js] that its loop updates. *)
Record emitter := Emitter {
  code : string;
  next_temp_id : nat;
  js : gmap nat string
}.

(** [js[k]] inside a string concatenation. *)
Definition js_at (js : gmap nat string) (k : nat) : string :=
  default "undefined" (js !! k).

(** The [for] loop of [ir_to_js] from index [i] on. *)
Fixpoint ir_to_js_loop (useCounts : gmap nat count) (i : nat)
    (rest : list value) (st : emitter) : emitter :=
  match rest with
  | [] => st
  | node :: rest' =>
      let text :=
        match node with
        | VNumber s | VArg s => s
        | VOp o a b =>
            "(" +:+ js_at (js st) a +:+ binop_text o +:+ js_at (js st) b +:+ ")"
        end in
      let st' :=
        if moreThanOnce (useCounts !! i) then
          let name := "t" +:+ pretty (next_temp_id st) in
          {| code := code st +:+ "var " +:+ name +:+ " = " +:+ text +:+ ";" +:+ newline;
             next_temp_id := S (next_temp_id st);
             js := <[i := name]> (js st) |}
        else
          {| code := code st; next_temp_id := next_temp_id st;
             js := <[i := text]> (js st) |} in
      ir_to_js_loop useCounts (S i) rest' st'
  end.

Definition ir_to_js_state (values : list value) : emitter :=
  ir_to_js_loop (computeUseCounts values) 0 values
    {| code := ""; next_temp_id := 0; js := ∅ |}.

Definition ir_to_js (values : list value) (result : pair_of_indices) : string :=
  let st := ir_to_js_state values in
  code st +:+ "return {re: " +:+ js_at (js st) (re result)
    +:+ ", im: " +:+ js_at (js st) (im result) +:+ "};" +:+ newline.

Section Compile.
Context (A : arith).

(** [lower(parse(code))] on a fresh table: the result pair and the table. *)
Definition lowerFormula (code : string)
    : option (exn + (pair_of_indices * list value)) :=
  match parse code with
  | None => None
  | Some (inl e) => Some (inl e)
  | Some (inr obj) => Some (lower A obj initial_values)
  end.

(** [compileToComplexFunction(code)]: the body of the function it returns,
    [Function("z_re, z_im", code)]. *)
Definition compileToComplexFunction (code : string) : option (exn + string) :=
  match lowerFormula code with
  | None => None
  | Some (inl e) => Some (inl e)
  | Some (inr (result, values)) => Some (inr (ir_to_js values result))
  end.

(** *** What the emitted function computes

    The body binds or inlines, for each entry of the table in index order,
    the expression [js[i]]: an argument, a constant, or the operator applied
    to the expressions of two entries.  [run_loop] evaluates the entries in
    the same order.  An entry that reads an index not yet filled has no
    value here (the JS text reads the global [undefined]).  A constant
    stands for the number [Number] gives its text. *)
Definition eval_value (z_re z_im : number A)
    (vals : list (option (number A))) (v : value) : option (number A) :=
  match v with
  | VArg s =>
      if s =? "z_re" then Some z_re
      else if s =? "z_im" then Some z_im
      else None
  | VNumber s => Some (JSNumber A s)
  | VOp o a b =>
      x ← mjoin (vals !! a); y ← mjoin (vals !! b); Some (arith_op A o x y)
  end.

Fixpoint run_loop (z_re z_im : number A) (rest : list value)
    (vals : list (option (number A))) : list (option (number A)) :=
  match rest with
  | [] => vals
  | node :: rest' =>
      run_loop z_re z_im rest' (vals ++ [eval_value z_re z_im vals node])%list
  end.

(** The value of the expression [js[k]]. *)
Definition value_at (z_re z_im : number A) (values : list value) (k : nat)
    : option (number A) :=
  mjoin (run_loop z_re z_im values [] !! k).

(** The object [{re: .., im: ..}] the function returns. *)
Definition run (values : list value) (result : pair_of_indices)
    (z_re z_im : number A) : option (number A * number A) :=
  r ← value_at z_re z_im values (re result);
  i ← value_at z_re z_im values (im result);
  Some (r, i).
End Compile.

(** ** IEEE 754 binary64: the numbers of the JS engine

    [+ - * /] are the binary64 operations of [SpecFloat].  [Number(s)] and
    [String(x)] follow ECMAScript's StringToNumber (decimal literals with sign,
    fraction and exponent, and [Infinity]; correctly rounded) and
    Number::toString (the shortest digit string that reads back as [x]).
    Texts with surrounding white space or a [0x], [0o], [0b] prefix, which no
    token and no output of [String] has, read as [NaN] here. *)
Module JSDouble.

Definition prec : Z := 53.
Definition emax : Z := 1024.

Global Instance spec_float_eq_dec : EqDecision spec_float.
Proof. solve_decision. Defined.

(** The double nearest to [n / d] (ties to even). *)
Definition of_ratio (sign : bool) (n d : positive) : spec_float :=
  let '(q, e, l) := SFdiv_core_binary prec emax (Zpos n) 0 (Zpos d) 0 in
  binary_round_aux prec emax sign q e l.

(** The double nearest to [m * 10 ^ e]. *)
Definition of_decimal (sign : bool) (m : N) (e : Z) : spec_float :=
  match m with
  | N0 => S754_zero sign
  | Npos p =>
      match e with
      | Zneg k => of_ratio sign p (Pos.pow 10 k)
      | Z0 => of_ratio sign p 1
      | Zpos k => of_ratio sign (p * Pos.pow 10 k) 1
      end
  end.

Definition digit_value (c : ascii) : N := N.of_nat (code_of c - 48).

(** The number a string of decimal digits spells. *)
Fixpoint digits_value (acc : N) (s : string) : N :=
  match s with
  | EmptyString => acc
  | String c rest => digits_value (10 * acc + digit_value c) rest
  end.

Definition take_sign (s : string) : bool * string :=
  match s with
  | String c rest =>
      if (c =? "-")%char then (true, rest)
      else if (c =? "+")%char then (false, rest)
      else (false, s)
  | EmptyString => (false, s)
  end.

(** The exponent part [e[+-]digits] at the end of a literal, [0] when there
    is none; [None] when what is left is something else. *)
Definition exponent_part (s : string) : option Z :=
  match s with
  | EmptyString => Some 0%Z
  | String c rest =>
      if (c =? "e")%char || (c =? "E")%char then
        let '(neg, ds) := take_sign rest in
        if nonempty ds && all_chars isDigit ds then
          let v := Z.of_N (digits_value 0 ds) in
          Some (if neg then (- v)%Z else v)
        else None
      else None
  end.

(** [Number(s)] *)
Definition StringToNumber (s : string) : spec_float :=
  match s with
  | EmptyString => S754_zero false
  | _ =>
      let '(sign, body) := take_sign s in
      if body =? "Infinity" then S754_infinity sign
      else
        let '(int_part, r1) := span isDigit body in
        let '(frac_part, r2) :=
          match r1 with
          | String c rest =>
              if (c =? ".")%char then span isDigit rest else (EmptyString, r1)
          | EmptyString => (EmptyString, r1)
          end in
        if nonempty int_part || nonempty frac_part then
          match exponent_part r2 with
          | Some e =>
              of_decimal sign (digits_value 0 (int_part +:+ frac_part))
                (e - Z.of_nat (String.length frac_part))
          | None => S754_nan
          end
        else S754_nan
  end.

(** [x >= 10 ^ n] for the rational [x = num / den]. *)
Definition at_least_pow10 (num den : positive) (n : Z) : bool :=
  match n with
  | Zneg k => (den <=? num * Pos.pow 10 k)%positive
  | Z0 => (den <=? num)%positive
  | Zpos k => (den * Pos.pow 10 k <=? num)%positive
  end.

Fixpoint raise_while (fuel : nat) (num den : positive) (n : Z) : Z :=
  match fuel with
  | O => n
  | S fuel' =>
      if at_least_pow10 num den n then raise_while fuel' num den (n + 1)%Z
      else n
  end.

(** The integer [n] with [10 ^ (n - 1) <= m * 2 ^ e < 10 ^ n]: from the
    binary logarithm, then corrected upwards. *)
Definition decimal_exponent (m : positive) (e : Z) (num den : positive) : Z :=
  let b := (Zpos (digits2_pos m) + e)%Z in
  raise_while 4 num den ((b - 1) * 30103 / 100000 - 1)%Z.

(** One candidate of [k] digits: [s], and whether [s * 10 ^ (n - k)] reads
    back as [x]. *)
Definition reads_back (x : spec_float) (s : N) (e10 : Z) : bool :=
  bool_decide (of_decimal false s e10 = x).

(** The digits [s] and the exponent [n] of the shortest decimal that reads
    back as the positive finite [x = m * 2 ^ e], trying [k = 1, 2, ...]. *)
Fixpoint shortest (fuel : nat) (x : spec_float) (num den : positive)
    (n : Z) (k : Z) : N * Z :=
  let e10 := (n - k)%Z in
  (* t = x / 10 ^ (n - k), as tn / td *)
  let '(tn, td) :=
    match e10 with
    | Zneg j => (num * Pos.pow 10 j, den)%positive
    | Z0 => (num, den)
    | Zpos j => (num, den * Pos.pow 10 j)%positive
    end in
  let lo := (Npos tn / Npos td)%N in
  let hi := (lo + 1)%N in
  let twice_rest := (2 * (Npos tn - lo * Npos td))%N in
  let lo_first :=
    match (twice_rest ?= Npos td)%N with
    | Lt => true
    | Gt => false
    | Eq => N.even lo
    end in
  let ok_lo := reads_back x lo e10 in
  let ok_hi := reads_back x hi e10 in
  match fuel with
  | O => (lo, n)
  | S fuel' =>
      if ok_lo && (lo_first || negb ok_hi) then (lo, n)
      else if ok_hi then
        if (hi =? 10 ^ Z.to_N k)%N then (1%N, (n + 1)%Z) else (hi, n)
      else shortest fuel' x num den n (k + 1)%Z
  end.

Definition decimal_digits (s : N) : string :=
  NilZero.string_of_uint (N.to_uint s).

Fixpoint zeros (n : nat) : string :=
  match n with O => EmptyString | S n' => String "0" (zeros n') end.

Fixpoint take_chars (n : nat) (s : string) : string :=
  match n, s with
  | S n', String c rest => String c (take_chars n' rest)
  | _, _ => EmptyString
  end.

Fixpoint drop_chars (n : nat) (s : string) : string :=
  match n, s with
  | S n', String c rest => drop_chars n' rest
  | _, _ => s
  end.

(** Number::toString on the digits [ds] and the exponent [n]. *)
Definition format (ds : string) (n : Z) : string :=
  let k := Z.of_nat (String.length ds) in
  if ((k <=? n) && (n <=? 21))%Z then
    ds +:+ zeros (Z.to_nat (n - k))
  else if ((0 <? n) && (n <=? 21))%Z then
    take_chars (Z.to_nat n) ds +:+ "." +:+ drop_chars (Z.to_nat n) ds
  else if ((-6 <? n) && (n <=? 0))%Z then
    "0." +:+ zeros (Z.to_nat (- n)) +:+ ds
  else
    let e := (n - 1)%Z in
    let exponent :=
      (if (e <? 0)%Z then "-" else "+") +:+ decimal_digits (Z.to_N (Z.abs e)) in
    if (k =? 1)%Z then ds +:+ "e" +:+ exponent
    else take_chars 1 ds +:+ "." +:+ drop_chars 1 ds +:+ "e" +:+ exponent.

(** [String(x)] *)
Definition NumberToString (x : spec_float) : string :=
  match x with
  | S754_nan => "NaN"
  | S754_zero _ => "0"
  | S754_infinity s => if s then "-Infinity" else "Infinity"
  | S754_finite s m e =>
      let '(num, den) :=
        match e with
        | Zneg j => (m, Pos.pow 2 j)
        | Z0 => (m, 1%positive)
        | Zpos j => ((m * Pos.pow 2 j)%positive, 1%positive)
        end in
      let n := decimal_exponent m e num den in
      let '(digits, n') := shortest 17 (S754_finite false m e) num den n 1 in
      (if s then "-" else "") +:+ format (decimal_digits digits) n'
  end.

Definition binary (o : binop) : spec_float -> spec_float -> spec_float :=
  match o with
  | Plus => SFadd prec emax
  | Minus => SFsub prec emax
  | Times => SFmul prec emax
  | Divide => SFdiv prec emax
  end.

Definition double : arith :=
  {| number := spec_float;
     JSNumber := StringToNumber;
     JSString := NumberToString;
     arith_op := binary |}.

End JSDouble.

(** ** Exact integers

    A second number system for the back end: the integers, written in
    decimal.  Every identity the simplifier relies on holds in it. *)
Module ExactZ.


Definition to_string (z : Z) : string := NilZero.string_of_int (Z.to_int z).

Definition binary (o : binop) : Z -> Z -> Z :=
  match o with
  | Plus => Z.add
  | Minus => Z.sub
  | Times => Z.mul
  | Divide => Z.div
  end.


End ExactZ.

(** ** What the specification says of the formula's value *)

Section Reference.
Context (A : arith).

Record complex := Complex { Re : number A; Im : number A }.

Definition cplus (a b : number A) := arith_op A Plus a b.
Definition cminus (a b : number A) := arith_op A Minus a b.
Definition ctimes (a b : number A) := arith_op A Times a b.
Definition cdivide (a b : number A) := arith_op A Divide a b.

(** Complex arithmetic in the specification's words: sum and difference are
    component-wise; the product is [(ar*br - ai*bi, ar*bi + ai*br)]; the
    quotient divides [(ar*br + ai*bi, ai*br - ar*bi)] by [br*br + bi*bi]. *)
Definition complex_op (o : binop) (a b : complex) : complex :=
  match o with
  | Plus => Complex (cplus (Re a) (Re b)) (cplus (Im a) (Im b))
  | Minus => Complex (cminus (Re a) (Re b)) (cminus (Im a) (Im b))
  | Times =>
      Complex (cminus (ctimes (Re a) (Re b)) (ctimes (Im a) (Im b)))
              (cplus (ctimes (Re a) (Im b)) (ctimes (Im a) (Re b)))
  | Divide =>
      let denom := cplus (ctimes (Re b) (Re b)) (ctimes (Im b) (Im b)) in
      Complex
        (cdivide (cplus (ctimes (Re a) (Re b)) (ctimes (Im a) (Im b))) denom)
        (cdivide (cminus (ctimes (Im a) (Re b)) (ctimes (Re a) (Im b))) denom)
  end.

(** The value of the formula as a complex-number expression, with [z] bound
    to the given complex number and [i] to the imaginary unit; a literal has
    imaginary part zero.  A formula with any other identifier has no value. *)
Fixpoint complex_eval (obj : ast) (z : complex) : option complex :=
  match obj with
  | Num value => Some (Complex (JSNumber A value) (JSNumber A "0"))
  | Name id =>
      if id =? "i" then Some (Complex (JSNumber A "0") (JSNumber A "1"))
      else if id =? "z" then Some z
      else None
  | BinOp o lhs rhs =>
      a ← complex_eval lhs z; b ← complex_eval rhs z; Some (complex_op o a b)
  end.

(** The identities the simplifier rewrites with, and [Number(String(x))]. *)
Record exact : Prop := {
  plus_zero_l : forall b, cplus (JSNumber A "0") b = b;
  plus_zero_r : forall a, cplus a (JSNumber A "0") = a;
  minus_zero_r : forall a, cminus a (JSNumber A "0") = a;
  times_zero_l : forall b, ctimes (JSNumber A "0") b = JSNumber A "0";
  times_zero_r : forall a, ctimes a (JSNumber A "0") = JSNumber A "0";
  times_one_l : forall b, ctimes (JSNumber A "1") b = b;
  times_one_r : forall a, ctimes a (JSNumber A "1") = a;
  divide_one_r : forall a, cdivide a (JSNumber A "1") = a;
  number_string : forall x, JSNumber A (JSString A x) = x
}.
End Reference.

Arguments Re {A} _.
Arguments Im {A} _.
Arguments Complex {A} _ _.

(** The identifiers of a formula, left to right, and those among them that
    [lower] does not know. *)
Fixpoint names (obj : ast) : list string :=
  match obj with
  | Num _ => []
  | Name id => [id]
  | BinOp _ lhs rhs => (names lhs ++ names rhs)%list
  end.

Definition known (id : string) : bool := (id =? "i") || (id =? "z").

Definition undefined_names (obj : ast) : list string :=
  List.filter (fun id => negb (known id)) (names obj).

(** How often index [i] is an operand of an arithmetic value of the table. *)
Definition operand_count (i : nat) (v : value) : nat :=
  match v with
  | VOp _ a b =>
      (if bool_decide (a = i) then 1 else 0) + (if bool_decide (b = i) then 1 else 0)
  | _ => 0
  end.

Fixpoint operand_uses (values : list value) (i : nat) : nat :=
  match values with
  | [] => 0
  | v :: rest => operand_count i v + operand_uses rest i
  end.

(** The use count as the specification words it: the operand occurrences,
    and one more for each of the two result indices. *)
Definition specified_use_count (values : list value) (result : pair_of_indices)
    (i : nat) : nat :=
  operand_uses values i
  + (if bool_decide (i = re result) then 1 else 0)
  + (if bool_decide (i = im result) then 1 else 0).

(** The table is in topological order. *)
Definition topological (values : list value) : Prop :=
  forall k o a b, values !! k = Some (VOp o a b) -> a < k /\ b < k.

(** Whether the character occurs in the text. *)
Fixpoint has_char (c : ascii) (s : string) : bool :=
  match s with
  | EmptyString => false
  | String c' rest => (c' =? c)%char || has_char c rest
  end.

(** A parsing function that, on fewer than [m] tokens, stays within its
    budget and on success has consumed a token. *)
Definition consuming (f : list string -> parsed) (m : nat) : Prop :=
  forall tokens, List.length tokens < m ->
    f tokens <> None
    /\ forall e rest, f tokens = Some (inr (e, rest)) ->
         List.length rest < List.length tokens.

(** The picture [String(Number(x) o Number(y))] of a folded constant. *)
Definition folded (A : arith) (o : binop) (x y : string) : string :=
  JSString A (arith_op A o (JSNumber A x) (JSNumber A y)).

(** What is left of a simplifier once no identity applies to the entries
    [va] and [vb] of its operands: fold two constants, intern the operation
    otherwise. *)
Definition fallback (A : arith) (o : binop) (a b : nat) (va vb : value) : M nat :=
  match va, vb with
  | VNumber x, VNumber y => num (folded A o x y)
  | _, _ => op o a b
  end.

(** The part of [lower] that follows the lowering of the two operands. *)
Definition combine (A : arith) (o : binop) (a b : pair_of_indices)
    : M pair_of_indices :=
  match o with
  | Plus =>
      r ← add A (re a) (re b); i ← add A (im a) (im b); mret (Pair r i)
  | Minus =>
      r ← sub A (re a) (re b); i ← sub A (im a) (im b); mret (Pair r i)
  | Times =>
      rr ← mul A (re a) (re b); ii ← mul A (im a) (im b); r ← sub A rr ii;
      ri ← mul A (re a) (im b); ir ← mul A (im a) (re b); i ← add A ri ir;
      mret (Pair r i)
  | Divide =>
      t1 ← mul A (re b) (re b); t2 ← mul A (im b) (im b); t ← add A t1 t2;
      rr ← mul A (re a) (re b); ii ← mul A (im a) (im b); n1 ← add A rr ii;
      r ← div A n1 t;
      ir ← mul A (im a) (re b); ri ← mul A (re a) (im b); n2 ← sub A ir ri;
      i ← div A n2 t;
      mret (Pair r i)
  end.

(** The simplifier for each operator. *)
Definition simplifier (A : arith) (o : binop) : nat -> nat -> M nat :=
  match o with
  | Plus => add A
  | Minus => sub A
  | Times => mul A
  | Divide => div A
  end.

(** What holds of the table from its creation on: it starts with the two
    arguments and has no other argument entry, it is in topological order, and
    no entry occurs twice. *)
Record inv (st : list value) : Prop := {
  inv_init : initial_values `prefix_of` st;
  inv_topo : topological st;
  inv_nodup : NoDup st;
  inv_args : forall k s, st !! k = Some (VArg s) -> k < 2
}.

(** A candidate the back end passes to [valueToIndex]: a constant, or an
    operation on indices in range. *)
Definition candidate (st : list value) (v : value) : Prop :=
  match v with
  | VArg _ => False
  | VNumber _ => True
  | VOp _ a b => a < List.length st /\ b < List.length st
  end.

(** What a simplifier leaves, from the table [st] and the operands [a] and
    [b]: the table is extended, the index [k] is in range, and where the
    arithmetic is [exact] the entry [k] has the value of the operation. *)
Definition simplified (A : arith) (o : binop) (a b : nat) (st : list value)
    (k : nat) (st' : list value) : Prop :=
  inv st' /\ st `prefix_of` st' /\ k < List.length st'
  /\ (exact A -> forall x y va vb,
        value_at A x y st a = Some va -> value_at A x y st b = Some vb ->
        value_at A x y st' k = Some (arith_op A o va vb)).

(** What [lower] leaves, from the table [st]: it throws for the first
    identifier it does not know, or returns two indices in range of an
    extended table, which where the arithmetic is [exact] hold the real and the
    imaginary part of the formula's value. *)
Definition lowered (A : arith) (obj : ast) (st : list value)
    (r : exn + (pair_of_indices * list value)) : Prop :=
  match r with
  | inl e =>
      exists x rest, undefined_names obj = x :: rest
        /\ e = SyntaxError ("undefined variable: " +:+ x)
  | inr (p, st') =>
      undefined_names obj = [] /\ inv st' /\ st `prefix_of` st'
      /\ re p < List.length st' /\ im p < List.length st'
      /\ (exact A -> forall x y, exists c,
            complex_eval A obj (Complex x y) = Some c
            /\ value_at A x y st' (re p) = Some (Re c)
            /\ value_at A x y st' (im p) = Some (Im c))
  end.

(** The output the comment above [compileToComplexFunction] gives for
    ["(z+1)/(z-1)"] ("Here is the actual output in that case"), without the
    [function] wrapper. *)
Definition documented_output : string :=
  "var t0 = (z_re+1);" +:+ newline
  +:+ "var t1 = (z_re-1);" +:+ newline
  +:+ "var t2 = (z_im*z_im);" +:+ newline
  +:+ "var t3 = ((t1*t1)+t2);" +:+ newline
  +:+ "return {re: (((t0*t1)+t2)/t3), im: (((z_im*t1)-(t0*z_im))/t3)};" +:+ newline.

(** ** calculator-backends.js: [compileToJSFunction] *)

(** [emit(obj)]: the JS expression for the AST, fully parenthesised; only the
    name [x] is allowed. *)
Fixpoint emit (obj : ast) : exn + string :=
  match obj with
  | Num value => inr value
  | Name id =>
      if negb (id =? "x") then inl (SyntaxError "only the name 'x' is allowed")
      else inr id
  | BinOp o lhs rhs =>
      match emit lhs with
      | inl e => inl e
      | inr a =>
          match emit rhs with
          | inl e => inl e
          | inr b => inr ("(" +:+ a +:+ " " +:+ binop_text o +:+ " " +:+ b +:+ ")")
          end
      end
  end.

(** [compileToJSFunction(code)]: the body of the function it returns,
    [Function("x", "return " + emit(parse(code)) + ";")]. *)
Definition compileToJSFunction (code : string) : option (exn + string) :=
  match parse code with
  | None => None
  | Some (inl e) => Some (inl e)
  | Some (inr obj) =>
      Some match emit obj with
           | inl e => inl e
           | inr text => inr ("return " +:+ text +:+ ";")
           end
  end.

(** ** calculator-backends.js: [evaluateAsFraction] *)

(** What a call of the fraction calculator throws: the syntax errors of the
    parser and of [evaluate], and the [Error] of [BigInteger]'s [divide] for a
    zero divisor. *)
Inductive raised := Raised (e : exn) | DivideByZero.

(** The outcome of a call; [None] when the loop of [gcd] runs out of rounds. *)
Definition outcome (A : Type) : Type := option (raised + A).

#[global] Instance outcome_ret : MRet outcome := fun A a => Some (inr a).

#[global] Instance outcome_bind : MBind outcome := fun A B k m =>
  match m with
  | Some (inr a) => k a
  | Some (inl e) => Some (inl e)
  | None => None
  end.

Definition raise {A : Type} (e : raised) : outcome A := Some (inl e).

Module Fraction.

(** [BigInteger] values are the integers.  [new BigInteger(s)] reads a string
    of decimal digits; [divide] truncates towards zero and throws for a zero
    divisor; [remainder] has the sign of the dividend. *)
Definition BigInteger (s : string) : Z := Z.of_N (JSDouble.digits_value 0 s).

Definition divide (a b : Z) : outcome Z :=
  if bool_decide (b = 0%Z) then raise DivideByZero else mret (Z.quot a b).

(** The loop of [gcd]; [remainder] is not called with a zero divisor. *)
Fixpoint gcd_loop (rounds : nat) (a b : Z) : outcome Z :=
  match rounds with
  | O => None
  | S rounds' =>
      if bool_decide (b = 0%Z) then mret a
      else gcd_loop rounds' b (Z.rem a b)
  end.

(** Two rounds at least halve [b]. *)
Definition gcd (a b : Z) : outcome Z :=
  gcd_loop (S (2 * S (Z.to_nat (Z.log2 (Z.abs b))))) a b.

Record fraction := { n : Z; d : Z }.

(** [new Fraction(n, d)]. *)
Definition new (n d : Z) : outcome fraction :=
  x ← gcd (Z.abs n) d;
  n' ← divide n x;
  d' ← divide d x;
  mret {| n := n'; d := d' |}.

Definition add (this x : fraction) : outcome fraction :=
  new (n this * d x + n x * d this) (d this * d x).

Definition negate (this : fraction) : outcome fraction :=
  new (- n this) (d this).

Definition sub (this x : fraction) : outcome fraction :=
  y ← negate x; add this y.

Definition mul (this x : fraction) : outcome fraction :=
  new (n this * n x) (d this * d x).

Definition div (this x : fraction) : outcome fraction :=
  new (n this * d x) (d this * n x).

Definition toString (this : fraction) : string :=
  let ns := ExactZ.to_string (n this) in
  let ds := ExactZ.to_string (d this) in
  if ds =? "1" then ns else ns +:+ "/" +:+ ds.

Definition method (o : binop) : fraction -> fraction -> outcome fraction :=
  match o with Plus => add | Minus => sub | Times => mul | Divide => div end.

(** [evaluate(obj)]; a fraction made of one integer has the denominator 1. *)
Fixpoint evaluate (obj : ast) : outcome fraction :=
  match obj with
  | Num value => new (BigInteger value) 1
  | Name _ => raise (Raised (SyntaxError "no variables in fraction mode, sorry"))
  | BinOp o lhs rhs =>
      a ← evaluate lhs;
      b ← evaluate rhs;
      method o a b
  end.

End Fraction.

Definition evaluateAsFraction (code : string) : outcome Fraction.fraction :=
  match parse code with
  | None => None
  | Some (inl e) => raise (Raised e)
  | Some (inr obj) => Fraction.evaluate obj
  end.


Definition shown (r : outcome Fraction.fraction) : outcome string :=
  f ← r; mret (Fraction.toString f).

(** The rational number a formula without names denotes; none when it
    divides by zero. *)
Fixpoint exact_value (obj : ast) : option QArith_base.Q :=
  match obj with
  | Num value => Some (QArith_base.inject_Z (Fraction.BigInteger value))
  | Name _ => None
  | BinOp o lhs rhs =>
      match exact_value lhs, exact_value rhs with
      | Some a, Some b =>
          match o with
          | Plus => Some (QArith_base.Qplus a b)
          | Minus => Some (QArith_base.Qminus a b)
          | Times => Some (QArith_base.Qmult a b)
          | Divide =>
              if QArith_base.Qeq_bool b (QArith_base.Qmake 0 1) then None
              else Some (QArith_base.Qdiv a b)
          end
      | _, _ => None
      end
  end.

(** A constructed fraction is in lowest terms, unless the constructor threw. *)
Definition lowest_terms (r : outcome Fraction.fraction) : Prop :=
  r = raise DivideByZero
  \/ exists f, r = mret f /\ Z.gcd (Fraction.n f) (Fraction.d f) = 1%Z.

(** ** The [Fraction] of the version of calculator-backends.js that goes with
    the builder parser

    It differs from the one above in its constructor, which passes [n] to
    [gcd] as it is; [gcd] and the methods are the same text. *)
Module BuilderFraction.

(** [new Fraction(n, d)]. *)
Definition new (n d : Z) : outcome Fraction.fraction :=
  x ← Fraction.gcd n d;
  n' ← Fraction.divide n x;
  d' ← Fraction.divide d x;
  mret {| Fraction.n := n'; Fraction.d := d' |}.

Definition add (this x : Fraction.fraction) : outcome Fraction.fraction :=
  new (Fraction.n this * Fraction.d x + Fraction.n x * Fraction.d this)
      (Fraction.d this * Fraction.d x).

Definition negate (this : Fraction.fraction) : outcome Fraction.fraction :=
  new (- Fraction.n this) (Fraction.d this).

Definition sub (this x : Fraction.fraction) : outcome Fraction.fraction :=
  y ← negate x; add this y.

Definition mul (this x : Fraction.fraction) : outcome Fraction.fraction :=
  new (Fraction.n this * Fraction.n x) (Fraction.d this * Fraction.d x).

Definition div (this x : Fraction.fraction) : outcome Fraction.fraction :=
  new (Fraction.n this * Fraction.d x) (Fraction.d this * Fraction.n x).

End BuilderFraction.

(** ** calculator-parser.js, the version that reports to a builder

    [parse(code, out)] calls a method of [out] for every piece of the formula
    it decodes and returns what the last call returned. *)
Module Builder.

Record builder (R : Type) := {
  number : string -> outcome R;
  add : R -> R -> outcome R;
  sub : R -> R -> outcome R;
  mul : R -> R -> outcome R;
  div : R -> R -> outcome R;
  name : string -> outcome R
}.

Arguments number {R} _ _.
Arguments add {R} _ _ _.
Arguments sub {R} _ _ _.
Arguments mul {R} _ _ _.
Arguments div {R} _ _ _.
Arguments name {R} _ _.

Definition syntax_error {A : Type} (msg : string) : outcome A :=
  raise (Raised (SyntaxError msg)).

(** The method the loops call for the operator [o]. *)
Definition method {R : Type} (out : builder R) (o : binop)
  : R -> R -> outcome R :=
  match o with
  | Plus => add out
  | Minus => sub out
  | Times => mul out
  | Divide => div out
  end.

Fixpoint binop_loop {R : Type} (out : builder R) (level : binop -> bool)
    (operand : list string -> outcome (R * list string)) (n : nat) (expr : R)
    (tokens : list string) : outcome (R * list string) :=
  match n with
  | O => None
  | S n' =>
      match tokens with
      | t :: rest =>
          match binop_of_token t with
          | Some o =>
              if level o then
                '(rhs, rest') ← operand rest;
                expr' ← method out o expr rhs;
                binop_loop out level operand n' expr' rest'
              else mret (expr, tokens)
          | None => mret (expr, tokens)
          end
      | [] => mret (expr, tokens)
      end
  end.

Definition parsePrimaryExpr {R : Type} (out : builder R)
    (parseExpr : list string -> outcome (R * list string)) (tokens : list string) : outcome (R * list string) :=
  let t := head tokens in
  if isNumberToken t then
    v ← number out (default "" t); mret (v, tail tokens)
  else if isNameToken t then
    v ← name out (default "" t); mret (v, tail tokens)
  else if bool_decide (t = Some "(") then
    '(expr, rest) ← parseExpr (tail tokens);
    if bool_decide (head rest = Some ")") then mret (expr, tail rest)
    else syntax_error "expected )"
  else syntax_error "expected a number, a variable, or parentheses".

Definition parseMulExpr {R : Type} (out : builder R)
    (parseExpr : list string -> outcome (R * list string)) (n : nat) (tokens : list string)
  : outcome (R * list string) :=
  '(expr, rest) ← parsePrimaryExpr out parseExpr tokens;
  binop_loop out isMulOp (parsePrimaryExpr out parseExpr) n expr rest.

Fixpoint parseExpr {R : Type} (out : builder R) (n : nat)
    (tokens : list string) : outcome (R * list string) :=
  match n with
  | O => None
  | S n' =>
      '(expr, rest) ← parseMulExpr out (parseExpr out n') n' tokens;
      binop_loop out isAddOp (parseMulExpr out (parseExpr out n') n') n' expr rest
  end.

Definition parse {R : Type} (code : string) (out : builder R) : outcome R :=
  let tokens := tokenize code in
  '(result, rest) ← parseExpr out (S (List.length tokens)) tokens;
  match rest with
  | [] => mret result
  | t :: _ => syntax_error ("unexpected '" +:+ t +:+ "'")
  end.

(** *** The builders of calculator-backends.js in that version *)

Definition jsFunctionBuilder : builder string :=
  {| number := fun s => mret s;
     add := fun a b => mret ("(" +:+ a +:+ " + " +:+ b +:+ ")");
     sub := fun a b => mret ("(" +:+ a +:+ " - " +:+ b +:+ ")");
     mul := fun a b => mret ("(" +:+ a +:+ " * " +:+ b +:+ ")");
     div := fun a b => mret ("(" +:+ a +:+ " / " +:+ b +:+ ")");
     name := fun name =>
       if negb (name =? "x") then syntax_error "only the name 'x' is allowed"
       else mret name |}.

Definition compileToJSFunction (code : string) : outcome string :=
  code' ← parse code jsFunctionBuilder;
  mret ("return " +:+ code' +:+ ";").

Definition fractionCalculator : builder Fraction.fraction :=
  {| number := fun s => BuilderFraction.new (Fraction.BigInteger s) 1;
     add := BuilderFraction.add;
     sub := BuilderFraction.sub;
     mul := BuilderFraction.mul;
     div := BuilderFraction.div;
     name := fun _ => syntax_error "no variables in fraction mode, sorry" |}.

Definition evaluateAsFraction (code : string) : outcome Fraction.fraction :=
  parse code fractionCalculator.

(** The objects of [convertToAST]: [{type: "number", value}],
    [{type: "name", name}] and [{type, left, right}]. *)
Inductive tree :=
  | TNumber (value : string)
  | TName (name : string)
  | TNode (type : string) (left right : tree).

Definition astBuilder : builder tree :=
  {| number := fun s => mret (TNumber s);
     add := fun a b => mret (TNode "add" a b);
     sub := fun a b => mret (TNode "sub" a b);
     mul := fun a b => mret (TNode "mul" a b);
     div := fun a b => mret (TNode "div" a b);
     name := fun name => mret (TName name) |}.

Definition convertToAST (code : string) : outcome tree := parse code astBuilder.

(** *** Notions for the properties *)

(** The calls the parser makes for a formula, in its order: left operand,
    right operand, operator. *)
Fixpoint fold {R : Type} (out : builder R) (obj : ast) : outcome R :=
  match obj with
  | Num value => number out value
  | Name id => name out id
  | BinOp o lhs rhs =>
      a ← fold out lhs;
      b ← fold out rhs;
      method out o a b
  end.

(** A builder none of whose methods throws. *)
Definition pure {R : Type} (out : builder R) : Prop :=
  (forall s, exists v, number out s = mret v)
  /\ (forall s, exists v, name out s = mret v)
  /\ (forall o a b, exists v, method out o a b = mret v).

(** The calls for the ASTs of [pending], one AST after the other, and then
    [m]: the first call that does not return ends it. *)
Fixpoint after {R A : Type} (out : builder R) (pending : list ast)
    (m : outcome A) : outcome A :=
  match pending with
  | [] => m
  | obj :: rest => fold out obj ≫= fun _ => after out rest m
  end.

(** What a call of the AST version ends in, as an outcome. *)
Definition thrown {A : Type} (r : option (exn + A)) : outcome A :=
  match r with
  | Some (inr a) => mret a
  | Some (inl e) => raise (Raised e)
  | None => None
  end.

(** The object [convertToAST] builds for an AST of the other parser. *)
Fixpoint tree_of (obj : ast) : tree :=
  match obj with
  | Num value => TNumber value
  | Name id => TName id
  | BinOp o lhs rhs =>
      TNode (match o with
             | Plus => "add" | Minus => "sub" | Times => "mul" | Divide => "div"
             end) (tree_of lhs) (tree_of rhs)
  end.

End Builder.

(** Two fractions that differ in the sign of both the numerator and the
    denominator at most, and two outcomes that are the same error or such
    fractions. *)
Definition same_fraction (f g : Fraction.fraction) : Prop :=
  (Fraction.n g = Fraction.n f /\ Fraction.d g = Fraction.d f)
  \/ (Fraction.n g = (- Fraction.n f)%Z /\ Fraction.d g = (- Fraction.d f)%Z).

Definition same_outcome (r r' : outcome Fraction.fraction) : Prop :=
  match r, r' with
  | Some (inr f), Some (inr g) => same_fraction f g
  | Some (inl e), Some (inl e') => e = e'
  | None, None => True
  | _, _ => False
  end.

(** ** Notions for the properties of the parser *)

(** The text without its white space. *)
Fixpoint strip_spaces (s : string) : string :=
  match s with
  | EmptyString => EmptyString
  | String c rest =>
      if isSpace c then strip_spaces rest else String c (strip_spaces rest)
  end.

(** The tokens written one after the other. *)
Fixpoint join (tokens : list string) : string :=
  match tokens with
  | [] => EmptyString
  | t :: rest => t +:+ join rest
  end.

Definition notSpace (c : ascii) : bool := negb (isSpace c).

(** A token: a run of letters, a run of digits, or one other character that
    is not white space. *)
Definition token_shape (t : string) : Prop :=
  nonempty t = true
  /\ (all_chars isLetter t = true \/ all_chars isDigit t = true
      \/ (String.length t = 1 /\ all_chars notSpace t = true)).

(** An AST whose numbers are runs of digits and whose names are runs of
    letters, as the tokens of the parser are. *)
Fixpoint wf_ast (obj : ast) : Prop :=
  match obj with
  | Num value => nonempty value = true /\ all_chars isDigit value = true
  | Name id => nonempty id = true /\ all_chars isLetter id = true
  | BinOp _ lhs rhs => wf_ast lhs /\ wf_ast rhs
  end.

(** The leaves and operators of an AST from left to right. *)
Fixpoint infix (obj : ast) : list string :=
  match obj with
  | Num value => [value]
  | Name id => [id]
  | BinOp o lhs rhs => (infix lhs ++ binop_text o :: infix rhs)%list
  end.

Definition notParen (t : string) : bool :=
  negb (bool_decide (t = "(")) && negb (bool_decide (t = ")")).

(** A parsing function that reads the tokens of its AST in order, skipping
    only parentheses. *)
Definition reads (f : list string -> parsed) : Prop :=
  forall tokens obj rest,
    f tokens = Some (inr (obj, rest)) ->
    exists consumed,
      tokens = (consumed ++ rest)%list
      /\ List.filter notParen consumed = infix obj.

(** The ASTs of the two levels of the grammar when no parentheses are
    written: a product is a chain of [*] and [/] to the left over leaves; a
    sum is a chain of [+] and [-] to the left over products. *)
Definition is_leaf (obj : ast) : Prop :=
  match obj with BinOp _ _ _ => False | _ => True end.

Fixpoint product (obj : ast) : Prop :=
  match obj with
  | BinOp o lhs rhs => isMulOp o = true /\ product lhs /\ is_leaf rhs
  | _ => True
  end.

Fixpoint sum_of_products (obj : ast) : Prop :=
  match obj with
  | BinOp o lhs rhs =>
      if isMulOp o then product obj
      else sum_of_products lhs /\ product rhs
  | _ => True
  end.

(** A parsing function that, on tokens without an opening parenthesis, gives
    ASTs of the shape [shape] and leaves such tokens. *)
Definition shapes (shape : ast -> Prop) (f : list string -> parsed) : Prop :=
  forall tokens obj rest,
    "(" ∉ tokens ->
    f tokens = Some (inr (obj, rest)) ->
    shape obj /\ "(" ∉ rest.

(** ASTs the parser has finished before it stops: their leaves are such as
    the parser makes, and their leaves and operators stand in this order among
    the tokens. *)
Definition parsed_before (tokens : list string) (pending : list ast) : Prop :=
  Forall wf_ast pending /\ concat (map infix pending) `sublist_of` tokens.

(** The parser that builds the AST and the parser that reports to a builder
    at the same place of the grammar, [a] and [b]: where the first returns an
    AST, the second made the calls for it; where the first throws, the second
    made the calls for the ASTs finished before and throws the same. *)
Definition reported (tokens : list string) (a : parsed)
    (b : forall R : Type, Builder.builder R -> outcome (R * list string)) : Prop :=
  match a with
  | Some (inr (obj, rest)) =>
      forall R (out : Builder.builder R),
        b R out = (Builder.fold out obj ≫= fun v => mret (v, rest))
  | Some (inl e) =>
      exists pending,
        parsed_before tokens pending
        /\ forall R (out : Builder.builder R),
             b R out = Builder.after out pending (raise (Raised e))
  | None =>
      exists pending,
        parsed_before tokens pending
        /\ forall R (out : Builder.builder R),
             b R out = Builder.after out pending None
  end.

(** The two errors of [parsePrimaryExpr]. *)
Definition primary_error (e : exn) : Prop :=
  e = SyntaxError "expected )"
  \/ e = SyntaxError "expected a number, a variable, or parentheses".

(** A parsing function that throws these errors only. *)
Definition throws_primary_errors (f : list string -> parsed) : Prop :=
  forall tokens e, f tokens = Some (inl e) -> primary_error e.

(** The tokens left start with no operator of the level. *)
Definition stops_before (level : binop -> bool) (rest : list string) : Prop :=
  match rest with
  | t :: _ => forall o, binop_of_token t = Some o -> level o = false
  | [] => True
  end.

(** The characters of the text of [emit]: digits, [x], the four operators,
    parentheses and the space. *)
Definition plain (c : ascii) : bool :=
  isDigit c || bool_decide (c ∈ ["x"; "("; ")"; "+"; "-"; "*"; "/"; " "]%char).

(** A parsing function whose results have such leaves. *)
Definition gives_wf (f : list string -> parsed) : Prop :=
  forall tokens e rest, f tokens = Some (inr (e, rest)) -> wf_ast e.

(** The tokens of the text [emit] gives for the AST. *)
Fixpoint tokens_of (obj : ast) : list string :=
  match obj with
  | Num value => [value]
  | Name id => [id]
  | BinOp o lhs rhs =>
      ("(" :: tokens_of lhs ++ binop_text o :: tokens_of rhs ++ [")"])%list
  end.

(** A text that a token can stand in front of: it is empty or starts with a
    character that is neither a letter nor a digit. *)
Definition separated (rest : string) : Prop :=
  match rest with
  | EmptyString => True
  | String c _ => isLetter c = false /\ isDigit c = false
  end.

(** The number of nodes of a formula. *)
Fixpoint nodes (obj : ast) : nat :=
  match obj with
  | Num _ | Name _ => 1
  | BinOp _ lhs rhs => S (nodes lhs + nodes rhs)
  end.

(** How many of the indices below [n] get a temporary in [ir_to_js]. *)
Fixpoint temps_before (useCounts : gmap nat count) (n : nat) : nat :=
  match n with
  | O => 0
  | S n' =>
      temps_before useCounts n'
      + (if moreThanOnce (useCounts !! n') then 1 else 0)
  end.

(** * Properties *)

(** ** The asserts of calculator-parser.js *)

Example tokenize_test1 : tokenize ("123" +:+ String (ascii_of_nat 10) "") = ["123"].
Proof. reflexivity. Qed.
Example tokenize_test2 : tokenize "2+2" = ["2"; "+"; "2"].
Proof. reflexivity. Qed.
Example tokenize_test3 : tokenize "+-*/" = ["+"; "-"; "*"; "/"].
Proof. reflexivity. Qed.
Example tokenize_test4 :
  tokenize ("   1   * 24 +" +:+ String (ascii_of_nat 10) (String (ascii_of_nat 10) "  pi"))
  = ["1"; "*"; "24"; "+"; "pi"].
Proof. reflexivity. Qed.
Example tokenize_test5 : tokenize "()" = ["("; ")"].
Proof. reflexivity. Qed.
Example tokenize_test6 : tokenize "    " = [].
Proof. reflexivity. Qed.
Example parse_test :
  parse "(1 + 2) / 3" = Some (inr (BinOp Divide (BinOp Plus (Num "1") (Num "2")) (Num "3"))).
Proof. reflexivity. Qed.

(** ** The tokenizer has rounds enough *)

Lemma span_length p s :
  String.length (snd (span p s)) <= String.length s.
Proof.
  induction s as [|c s IH]; simpl; [lia|].
  destruct (p c); [|simpl; lia].
  destruct (span p s) as [w r]. simpl in *. lia.
Qed.

Lemma tokenize_loop_enough n :
  forall m code,
    String.length code <= n -> String.length code <= m ->
    tokenize_loop n code = tokenize_loop m code.
Proof.
  induction n as [|n IH]; intros m code Hn Hm.
  - destruct code; [|simpl in Hn; lia]. destruct m; reflexivity.
  - destruct m as [|m].
    { destruct code; [reflexivity|simpl in Hm; lia]. }
    simpl. pose proof (span_length isSpace code) as Hs.
    destruct (snd (span isSpace code)) as [|c rest] eqn:E; [reflexivity|].
    simpl in Hs.
    destruct (isLetter c) eqn:El.
    + simpl. pose proof (span_length isLetter rest) as Hr.
      destruct (span isLetter rest) as [w r]. simpl in Hr.
      f_equal. apply IH; lia.
    + destruct (isDigit c) eqn:Ed.
      * simpl. pose proof (span_length isDigit rest) as Hr.
        destruct (span isDigit rest) as [w r]. simpl in Hr.
        f_equal. apply IH; lia.
      * f_equal. apply IH; lia.
Qed.

(** ** The parser stays within its budget *)

Lemma consuming_le f m m' : m' <= m -> consuming f m -> consuming f m'.
Proof. intros Hle H tokens Hlen. apply H. lia. Qed.

Lemma binop_loop_total level operand n :
  forall expr tokens,
    List.length tokens < n -> consuming operand (List.length tokens) ->
    binop_loop level operand n expr tokens <> None
    /\ forall e rest, binop_loop level operand n expr tokens = Some (inr (e, rest)) ->
         List.length rest <= List.length tokens.
Proof.
  induction n as [|n IH]; intros expr tokens Hlen Hop; [lia|].
  simpl. destruct tokens as [|t rest0].
  { split; [discriminate|]. intros e rest [= <- <-]. lia. }
  destruct (binop_of_token t) as [o|].
  2:{ split; [discriminate|]. intros e rest [= <- <-]. lia. }
  destruct (level o).
  2:{ split; [discriminate|]. intros e rest [= <- <-]. lia. }
  simpl in Hlen, Hop.
  destruct (Hop rest0) as [Hsome Hshort]; [lia|].
  destruct (operand rest0) as [[err|[rhs rest']]|]; [| |contradiction].
  - split; [discriminate|]. intros e rest [=].
  - specialize (Hshort rhs rest' eq_refl).
    destruct (IH (BinOp o expr rhs) rest') as [H1 H2]; [lia| |].
    + eapply consuming_le; [|exact Hop]. lia.
    + split; [exact H1|]. intros e rest E. specialize (H2 e rest E). simpl. lia.
Qed.

Lemma parsePrimaryExpr_consuming pe m :
  consuming pe m -> consuming (parsePrimaryExpr pe) (S m).
Proof.
  intros Hpe tokens Hlen. unfold parsePrimaryExpr.
  destruct (isNumberToken (head tokens)) eqn:En.
  { split; [discriminate|]. intros e rest [= <- <-].
    destruct tokens; [discriminate|]. simpl. lia. }
  destruct (isNameToken (head tokens)) eqn:Em.
  { split; [discriminate|]. intros e rest [= <- <-].
    destruct tokens; [discriminate|]. simpl. lia. }
  case_bool_decide as Hparen; [|split; [discriminate|intros e rest [=]]].
  destruct tokens as [|t rest0]; [discriminate|]. simpl in *.
  destruct (Hpe rest0) as [Hsome Hshort]; [lia|].
  destruct (pe rest0) as [[err|[expr rest']]|]; [| |contradiction].
  - split; [discriminate|]. intros e rest [=].
  - specialize (Hshort expr rest' eq_refl).
    case_bool_decide; [|split; [discriminate|intros e rest [=]]].
    split; [discriminate|]. intros e rest [= <- <-].
    destruct rest'; simpl in *; lia.
Qed.

Lemma parseMulExpr_consuming pe m :
  consuming pe m -> consuming (parseMulExpr pe m) (S m).
Proof.
  intros Hpe tokens Hlen. unfold parseMulExpr.
  assert (Hprim := parsePrimaryExpr_consuming pe m Hpe).
  destruct (Hprim tokens Hlen) as [Hsome Hshort].
  destruct (parsePrimaryExpr pe tokens) as [[err|[expr rest']]|]; [| |contradiction].
  - split; [discriminate|]. intros e rest [=].
  - specialize (Hshort expr rest' eq_refl).
    destruct (binop_loop_total isMulOp (parsePrimaryExpr pe) m expr rest')
      as [H1 H2]; [lia| |].
    + eapply consuming_le; [|exact Hprim]. lia.
    + split; [exact H1|]. intros e rest E. specialize (H2 e rest E). lia.
Qed.

Lemma parseExpr_consuming n : consuming (parseExpr n) n.
Proof.
  induction n as [|n IH]; intros tokens Hlen; [lia|].
  cbn [parseExpr].
  assert (Hmul := parseMulExpr_consuming (parseExpr n) n IH).
  destruct (Hmul tokens Hlen) as [Hsome Hshort].
  destruct (parseMulExpr (parseExpr n) n tokens) as [[err|[expr rest']]|];
    [| |contradiction].
  - split; [discriminate|]. intros e rest [=].
  - specialize (Hshort expr rest' eq_refl).
    destruct (binop_loop_total isAddOp (parseMulExpr (parseExpr n) n) n expr rest')
      as [H1 H2]; [lia| |].
    + eapply consuming_le; [|exact Hmul]. lia.
    + split; [exact H1|]. intros e rest E. specialize (H2 e rest E). lia.
Qed.

(** [parse] throws or returns on every input. *)
Lemma parse_total code : parse code <> None.
Proof.
  unfold parse.
  destruct (parseExpr_consuming (S (List.length (tokenize code))) (tokenize code))
    as [Hsome _]; [lia|].
  destruct (parseExpr (S (List.length (tokenize code))) (tokenize code))
    as [[err|[expr [|t rest]]]|]; (discriminate || contradiction).
Qed.

(** ** Number and String on doubles: some values JS gives *)

Example double_sum :
  folded JSDouble.double Plus "0.1" "0.2" = "0.30000000000000004".
Proof. vm_compute. reflexivity. Qed.
Example double_third :
  folded JSDouble.double Divide "1" "3" = "0.3333333333333333".
Proof. vm_compute. reflexivity. Qed.
Example double_exponent :
  folded JSDouble.double Times "100000000000" "10000000000" = "1e+21".
Proof. vm_compute. reflexivity. Qed.
Example double_long_literal :
  folded JSDouble.double Plus "123456789012345678901234567890" "0"
  = "1.2345678901234568e+29".
Proof. vm_compute. reflexivity. Qed.
Example double_small :
  folded JSDouble.double Divide "1" "10000000" = "1e-7".
Proof. vm_compute. reflexivity. Qed.
Example double_negative :
  folded JSDouble.double Minus "2" "5" = "-3".
Proof. vm_compute. reflexivity. Qed.
Example double_by_zero :
  folded JSDouble.double Divide "1" "00" = "Infinity"
  /\ folded JSDouble.double Divide "00" "00" = "NaN".
Proof. split; vm_compute; reflexivity. Qed.
Example double_leading_zero :
  folded JSDouble.double Plus "010" "1" = "11".
Proof. vm_compute. reflexivity. Qed.

(** ** The monad *)

Lemma bind_inr {X Y : Type} (m : M X) (f : X -> M Y) st x st' :
  m st = inr (x, st') -> (m ≫= f) st = f x st'.
Proof. unfold mbind, M_bind. intros ->. reflexivity. Qed.

Lemma bind_inl {X Y : Type} (m : M X) (f : X -> M Y) st e :
  m st = inl e -> (m ≫= f) st = inl e.
Proof. unfold mbind, M_bind. intros ->. reflexivity. Qed.

Lemma ret_inr {X : Type} (x : X) st : (mret x : M X) st = inr (x, st).
Proof. reflexivity. Qed.

(** ** Interning *)

Lemma valuesEqual_eq n1 n2 : valuesEqual n1 n2 = true <-> n1 = n2.
Proof.
  unfold valuesEqual. split.
  - intros H. apply andb_true_iff in H as [H H1].
    apply andb_true_iff in H as [Ht H0].
    apply bool_decide_eq_true in Ht, H0, H1.
    destruct n1, n2; simpl in *; congruence.
  - intros ->. rewrite !bool_decide_eq_true_2; reflexivity.
Qed.

Lemma scan_Some v rest i k :
  scan v rest i = Some k ->
  exists j, k = i + j /\ rest !! j = Some v
            /\ forall j', j' < j -> rest !! j' <> Some v.
Proof.
  revert i. induction rest as [|x rest IH]; intros i; simpl; [discriminate|].
  destruct (valuesEqual x v) eqn:E.
  - intros [= <-]. apply valuesEqual_eq in E as ->.
    exists 0. split; [lia|]. split; [reflexivity|]. intros j' Hj'. lia.
  - intros H. apply IH in H as (j & -> & Hj & Hmin).
    exists (S j). split; [lia|]. split; [exact Hj|].
    intros [|j'] Hlt; simpl.
    + intros [= ->]. assert (valuesEqual v v = true) by (apply valuesEqual_eq; reflexivity).
      congruence.
    + apply Hmin. lia.
Qed.

Lemma scan_None v rest i : scan v rest i = None -> v ∉ rest.
Proof.
  revert i. induction rest as [|x rest IH]; intros i; simpl.
  - intros _. apply not_elem_of_nil.
  - destruct (valuesEqual x v) eqn:E; [discriminate|].
    intros H. apply not_elem_of_cons. split.
    + intros ->. assert (valuesEqual x x = true) by (apply valuesEqual_eq; reflexivity).
      congruence.
    + eapply IH, H.
Qed.

(** What [valueToIndex] does: it finds the first entry equal to [v] and leaves
    the table alone, or there is none and it appends [v]. *)
Lemma valueToIndex_cases v st :
  (exists k, valueToIndex v st = inr (k, st) /\ st !! k = Some v
             /\ forall j, j < k -> st !! j <> Some v)
  \/ (valueToIndex v st = inr (List.length st, (st ++ [v])%list) /\ v ∉ st).
Proof.
  unfold valueToIndex. destruct (scan v st 0) as [k|] eqn:E.
  - left. apply scan_Some in E as (j & -> & Hj & Hmin). exists j. auto.
  - right. split; [reflexivity|]. eapply scan_None, E.
Qed.

Lemma valueToIndex_spec v st :
  exists k st', valueToIndex v st = inr (k, st')
    /\ st' !! k = Some v
    /\ (st' = st \/ (st' = (st ++ [v])%list /\ (v ∉ st) /\ k = List.length st)).
Proof.
  destruct (valueToIndex_cases v st) as [(k & E & Hk & _)|[E Hn]].
  - exists k, st. auto.
  - exists (List.length st), (st ++ [v])%list. split; [exact E|]. split.
    + rewrite lookup_app_r by lia. rewrite Nat.sub_diag. reflexivity.
    + right. auto.
Qed.

(** ** The accessors on an index in range *)

Lemma getValue_ok st i v : st !! i = Some v -> getValue i st = inr (v, st).
Proof. unfold getValue. intros ->. reflexivity. Qed.

Lemma isNumber_ok st i v :
  st !! i = Some v -> isNumber i st = inr (bool_decide (type v = TNumber), st).
Proof.
  intros H. unfold isNumber. rewrite (bind_inr _ _ _ _ _ (getValue_ok _ _ _ H)).
  reflexivity.
Qed.

Lemma is_picture_ok st i v (s : string) :
  st !! i = Some v ->
  (n ← isNumber i;
   if n : bool then v ← getValue i; mret (bool_decide (arg0 v = inl s))
   else mret false) st
  = inr (bool_decide (v = VNumber s), st).
Proof.
  intros H. rewrite (bind_inr _ _ _ _ _ (isNumber_ok _ _ _ H)).
  destruct v as [x|x|o a b]; cbn [type]; case_bool_decide; try congruence.
  - rewrite ret_inr, bool_decide_eq_false_2 by discriminate. reflexivity.
  - rewrite (bind_inr _ _ _ _ _ (getValue_ok _ _ _ H)), ret_inr.
    do 2 f_equal. apply bool_decide_ext. cbn [arg0]. split; congruence.
  - rewrite ret_inr, bool_decide_eq_false_2 by discriminate. reflexivity.
Qed.

Lemma isZero_ok st i v :
  st !! i = Some v -> isZero i st = inr (bool_decide (v = VNumber "0"), st).
Proof. apply is_picture_ok. Qed.

Lemma isOne_ok st i v :
  st !! i = Some v -> isOne i st = inr (bool_decide (v = VNumber "1"), st).
Proof. apply is_picture_ok. Qed.

Lemma bothNumbers_ok st a b va vb :
  st !! a = Some va -> st !! b = Some vb ->
  bothNumbers a b st
  = inr (bool_decide (type va = TNumber) && bool_decide (type vb = TNumber), st).
Proof.
  intros Ha Hb. unfold bothNumbers.
  rewrite (bind_inr _ _ _ _ _ (isNumber_ok _ _ _ Ha)).
  destruct (bool_decide (type va = TNumber)); simpl.
  - apply (isNumber_ok _ _ _ Hb).
  - reflexivity.
Qed.

Section Simplifier.
Context (A : arith).

Lemma fold_constants_ok st o a b x y :
  st !! a = Some (VNumber x) -> st !! b = Some (VNumber y) ->
  fold_constants A o a b st = num (folded A o x y) st.
Proof.
  intros Ha Hb. unfold fold_constants, Number_arg0.
  rewrite (bind_inr _ _ st (JSNumber A x) st).
  2:{ rewrite (bind_inr _ _ _ _ _ (getValue_ok _ _ _ Ha)). reflexivity. }
  rewrite (bind_inr _ _ st (JSNumber A y) st).
  2:{ rewrite (bind_inr _ _ _ _ _ (getValue_ok _ _ _ Hb)). reflexivity. }
  reflexivity.
Qed.

Lemma fallback_ok st o a b va vb :
  st !! a = Some va -> st !! b = Some vb ->
  (n ← bothNumbers a b;
   if n : bool then fold_constants A o a b else op o a b) st
  = fallback A o a b va vb st.
Proof.
  intros Ha Hb. rewrite (bind_inr _ _ _ _ _ (bothNumbers_ok _ _ _ _ _ Ha Hb)).
  destruct va as [x|x|? ? ?], vb as [y|y|? ? ?]; simpl; try reflexivity.
  apply fold_constants_ok; assumption.
Qed.

Lemma add_cases st a b va vb :
  st !! a = Some va -> st !! b = Some vb ->
  add A a b st =
    if bool_decide (va = VNumber "0") then inr (b, st)
    else if bool_decide (vb = VNumber "0") then inr (a, st)
    else fallback A Plus a b va vb st.
Proof.
  intros Ha Hb. unfold add.
  rewrite (bind_inr _ _ _ _ _ (isZero_ok _ _ _ Ha)).
  destruct (bool_decide (va = VNumber "0")); [reflexivity|].
  rewrite (bind_inr _ _ _ _ _ (isZero_ok _ _ _ Hb)).
  destruct (bool_decide (vb = VNumber "0")); [reflexivity|].
  apply fallback_ok; assumption.
Qed.

Lemma sub_cases st a b va vb :
  st !! a = Some va -> st !! b = Some vb ->
  sub A a b st =
    if bool_decide (vb = VNumber "0") then inr (a, st)
    else fallback A Minus a b va vb st.
Proof.
  intros Ha Hb. unfold sub.
  rewrite (bind_inr _ _ _ _ _ (isZero_ok _ _ _ Hb)).
  destruct (bool_decide (vb = VNumber "0")); [reflexivity|].
  apply fallback_ok; assumption.
Qed.

Lemma mul_cases st a b va vb :
  st !! a = Some va -> st !! b = Some vb ->
  mul A a b st =
    if bool_decide (va = VNumber "0") then inr (a, st)
    else if bool_decide (vb = VNumber "0") then inr (b, st)
    else if bool_decide (va = VNumber "1") then inr (b, st)
    else if bool_decide (vb = VNumber "1") then inr (a, st)
    else fallback A Times a b va vb st.
Proof.
  intros Ha Hb. unfold mul.
  rewrite (bind_inr _ _ _ _ _ (isZero_ok _ _ _ Ha)).
  destruct (bool_decide (va = VNumber "0")); [reflexivity|].
  rewrite (bind_inr _ _ _ _ _ (isZero_ok _ _ _ Hb)).
  destruct (bool_decide (vb = VNumber "0")); [reflexivity|].
  rewrite (bind_inr _ _ _ _ _ (isOne_ok _ _ _ Ha)).
  destruct (bool_decide (va = VNumber "1")); [reflexivity|].
  rewrite (bind_inr _ _ _ _ _ (isOne_ok _ _ _ Hb)).
  destruct (bool_decide (vb = VNumber "1")); [reflexivity|].
  apply fallback_ok; assumption.
Qed.

Lemma div_cases st a b va vb :
  st !! a = Some va -> st !! b = Some vb ->
  div A a b st =
    if bool_decide (vb = VNumber "1") then inr (a, st)
    else if bool_decide (vb = VNumber "0") then op Divide a b st
    else fallback A Divide a b va vb st.
Proof.
  intros Ha Hb. unfold div.
  rewrite (bind_inr _ _ _ _ _ (isOne_ok _ _ _ Hb)).
  destruct (bool_decide (vb = VNumber "1")); [reflexivity|].
  rewrite (bind_inr _ _ _ _ _ (bothNumbers_ok _ _ _ _ _ Ha Hb)).
  destruct (bool_decide (type va = TNumber) && bool_decide (type vb = TNumber)) eqn:E.
  - rewrite (bind_inr _ _ st (negb (bool_decide (vb = VNumber "0"))) st).
    2:{ rewrite (bind_inr _ _ _ _ _ (isZero_ok _ _ _ Hb)). reflexivity. }
    destruct (bool_decide (vb = VNumber "0")); simpl; [reflexivity|].
    apply andb_true_iff in E as [Ea Eb].
    apply bool_decide_eq_true in Ea, Eb.
    destruct va, vb; try discriminate. simpl.
    apply fold_constants_ok; assumption.
  - rewrite (bind_inr _ _ st false st) by reflexivity.
    destruct (bool_decide (vb = VNumber "0")); [reflexivity|].
    destruct va, vb; simpl in *; try reflexivity; discriminate.
Qed.
End Simplifier.

(** ** Evaluating a table *)

Section Evaluation.
Context (A : arith) (z_re z_im : number A).

Lemma run_loop_app l1 l2 vals :
  run_loop A z_re z_im (l1 ++ l2) vals
  = run_loop A z_re z_im l2 (run_loop A z_re z_im l1 vals).
Proof.
  revert vals. induction l1 as [|v l1 IH]; intros vals; simpl; [reflexivity|].
  apply IH.
Qed.

Lemma run_loop_prefix rest vals :
  vals `prefix_of` run_loop A z_re z_im rest vals.
Proof.
  revert vals. induction rest as [|v rest IH]; intros vals; simpl.
  - reflexivity.
  - etransitivity; [|apply IH]. apply prefix_app_r. reflexivity.
Qed.

Lemma run_loop_length rest vals :
  List.length (run_loop A z_re z_im rest vals)
  = List.length vals + List.length rest.
Proof.
  revert vals. induction rest as [|v rest IH]; intros vals; simpl; [lia|].
  rewrite IH, length_app. simpl. lia.
Qed.

(** Entries appended to the table leave the values of the old ones. *)
Lemma value_at_prefix st st' k v :
  st `prefix_of` st' ->
  value_at A z_re z_im st k = Some v -> value_at A z_re z_im st' k = Some v.
Proof.
  intros [l ->] H. unfold value_at in *. rewrite run_loop_app.
  destruct (run_loop A z_re z_im st [] !! k) as [o|] eqn:E; [|discriminate].
  rewrite (prefix_lookup_Some _ _ _ _ E (run_loop_prefix _ _)). exact H.
Qed.

Lemma value_at_lt st k v :
  value_at A z_re z_im st k = Some v -> k < List.length st.
Proof.
  unfold value_at. intros H.
  destruct (run_loop A z_re z_im st [] !! k) as [o|] eqn:E; [|discriminate].
  apply lookup_lt_Some in E. rewrite run_loop_length in E. simpl in E. lia.
Qed.

(** The value of an entry is that of its expression, read over the values
    of the whole table when the table is in topological order. *)
Lemma value_at_entry st k v :
  topological st -> st !! k = Some v ->
  value_at A z_re z_im st k
  = match v with
    | VOp o a b =>
        x ← value_at A z_re z_im st a; y ← value_at A z_re z_im st b;
        Some (arith_op A o x y)
    | _ => eval_value A z_re z_im [] v
    end.
Proof.
  intros Htopo Hk.
  assert (Hsplit : st = (take k st ++ [v] ++ drop (S k) st)%list).
  { rewrite <- (take_drop_middle st k v Hk) at 1. reflexivity. }
  set (V := run_loop A z_re z_im (take k st) []).
  assert (HV : List.length V = k).
  { unfold V. rewrite run_loop_length, length_take. simpl.
    apply lookup_lt_Some in Hk. lia. }
  assert (Hpre : (V ++ [eval_value A z_re z_im V v])%list
                 `prefix_of` run_loop A z_re z_im st []).
  { rewrite Hsplit at 1. rewrite !run_loop_app. simpl. apply run_loop_prefix. }
  assert (Hat : value_at A z_re z_im st k = eval_value A z_re z_im V v).
  { unfold value_at.
    erewrite prefix_lookup_Some; [reflexivity| |exact Hpre].
    rewrite lookup_app_r by lia. rewrite HV, Nat.sub_diag. reflexivity. }
  rewrite Hat. destruct v as [s|s|o a b]; try reflexivity.
  destruct (Htopo _ _ _ _ Hk) as [Ha Hb]. simpl. unfold value_at.
  assert (Hlook : forall j, j < k -> run_loop A z_re z_im st [] !! j = V !! j).
  { intros j Hj. destruct (lookup_lt_is_Some_2 V j) as [x Hx]; [lia|].
    rewrite Hx. eapply prefix_lookup_Some; [|exact Hpre].
    rewrite lookup_app_l by lia. exact Hx. }
  rewrite (Hlook a Ha), (Hlook b Hb). reflexivity.
Qed.
End Evaluation.

(** ** The invariant of the table *)

Lemma inv_initial : inv initial_values.
Proof.
  split.
  - reflexivity.
  - intros [|[|k]] o a b; discriminate.
  - apply NoDup_cons. split; [|apply NoDup_singleton].
    intros H%list_elem_of_singleton. discriminate.
  - intros [|[|k]] s; simpl; intros; try lia; discriminate.
Qed.

Lemma topological_snoc st v :
  topological st ->
  (forall o a b, v = VOp o a b -> a < List.length st /\ b < List.length st) ->
  topological (st ++ [v]).
Proof.
  intros Htopo Hv j o a b Hj. destruct (decide (j < List.length st)) as [Hlt|Hge].
  - rewrite lookup_app_l in Hj by exact Hlt. eapply Htopo, Hj.
  - rewrite lookup_app_r in Hj by lia.
    assert (j = List.length st) as ->.
    { apply lookup_lt_Some in Hj. simpl in Hj. lia. }
    rewrite Nat.sub_diag in Hj. injection Hj as ->. eapply Hv. reflexivity.
Qed.

Lemma intern_topological v st k st' :
  topological st ->
  (forall o a b, v = VOp o a b -> a < List.length st /\ b < List.length st) ->
  valueToIndex v st = inr (k, st') ->
  topological st' /\ k < List.length st'.
Proof.
  intros Htopo Hv E.
  destruct (valueToIndex_spec v st) as (k' & st'' & E' & Hk & Hst').
  rewrite E in E'. injection E' as <- <-.
  split; [|eapply lookup_lt_Some, Hk].
  destruct Hst' as [->|(-> & _)]; [exact Htopo|].
  apply topological_snoc; assumption.
Qed.

Lemma intern_inv v st :
  inv st -> candidate st v ->
  exists k st', valueToIndex v st = inr (k, st') /\ st' !! k = Some v
    /\ inv st' /\ st `prefix_of` st' /\ k < List.length st'.
Proof.
  intros [Hinit Htopo Hnodup Hargs] Hv.
  destruct (valueToIndex_spec v st) as (k & st' & E & Hk & Hst').
  exists k, st'. split; [exact E|]. split; [exact Hk|].
  destruct Hst' as [->|(-> & Hnot & ->)].
  - split; [split; assumption|]. split; [reflexivity|].
    eapply lookup_lt_Some, Hk.
  - split; [split|].
    + etransitivity; [exact Hinit|]. apply prefix_app_r. reflexivity.
    + apply topological_snoc; [exact Htopo|]. intros o a b ->. exact Hv.
    + apply NoDup_app. split; [exact Hnodup|]. split.
      * intros x Hx Hx'. apply list_elem_of_singleton in Hx' as ->. auto.
      * apply NoDup_singleton.
    + intros j s Hj. destruct (decide (j < List.length st)) as [Hlt|Hge].
      * rewrite lookup_app_l in Hj by exact Hlt. eapply Hargs, Hj.
      * rewrite lookup_app_r in Hj by lia.
        assert (j = List.length st) as ->.
        { apply lookup_lt_Some in Hj. simpl in Hj. lia. }
        rewrite Nat.sub_diag in Hj. injection Hj as ->. destruct Hv.
    + split; [apply prefix_app_r; reflexivity|]. rewrite length_app. simpl. lia.
Qed.

(** ** The simplifier *)

Section SimplifierSpec.
Context (A : arith).

Lemma value_at_number x y st k s :
  topological st -> st !! k = Some (VNumber s) ->
  value_at A x y st k = Some (JSNumber A s).
Proof. intros Ht Hk. rewrite (value_at_entry A x y st k _ Ht Hk). reflexivity. Qed.

Lemma value_at_number_inv x y st k s v :
  topological st -> st !! k = Some (VNumber s) ->
  value_at A x y st k = Some v -> v = JSNumber A s.
Proof.
  intros Ht Hk Hv. rewrite (value_at_number x y st k s Ht Hk) in Hv. congruence.
Qed.

Lemma op_spec o a b st :
  inv st -> a < List.length st -> b < List.length st ->
  exists k st', op o a b st = inr (k, st') /\ st' !! k = Some (VOp o a b)
    /\ simplified A o a b st k st'.
Proof.
  intros Hinv Ha Hb.
  destruct (intern_inv (VOp o a b) st Hinv (conj Ha Hb))
    as (k & st' & E & Hk & Hinv' & Hpre & Hlt).
  exists k, st'. split; [exact E|]. split; [exact Hk|].
  split; [exact Hinv'|]. split; [exact Hpre|]. split; [exact Hlt|].
  intros _ x y va vb Hva Hvb.
  rewrite (value_at_entry A x y st' k _ (inv_topo _ Hinv') Hk).
  rewrite (value_at_prefix A x y st st' a va Hpre Hva).
  rewrite (value_at_prefix A x y st st' b vb Hpre Hvb).
  reflexivity.
Qed.

Lemma fold_spec o a b x y st :
  inv st -> st !! a = Some (VNumber x) -> st !! b = Some (VNumber y) ->
  exists k st', num (folded A o x y) st = inr (k, st')
    /\ st' !! k = Some (VNumber (folded A o x y))
    /\ simplified A o a b st k st'.
Proof.
  intros Hinv Ha Hb.
  destruct (intern_inv (VNumber (folded A o x y)) st Hinv I)
    as (k & st' & E & Hk & Hinv' & Hpre & Hlt).
  exists k, st'. split; [exact E|]. split; [exact Hk|].
  split; [exact Hinv'|]. split; [exact Hpre|]. split; [exact Hlt|].
  intros Hex x0 y0 va vb Hva Hvb.
  apply (value_at_number_inv _ _ _ _ _ _ (inv_topo _ Hinv) Ha) in Hva as ->.
  apply (value_at_number_inv _ _ _ _ _ _ (inv_topo _ Hinv) Hb) in Hvb as ->.
  rewrite (value_at_number x0 y0 st' k _ (inv_topo _ Hinv') Hk).
  unfold folded. rewrite (number_string A Hex). reflexivity.
Qed.

Lemma fallback_spec o a b ea eb st :
  inv st -> st !! a = Some ea -> st !! b = Some eb ->
  exists k st', fallback A o a b ea eb st = inr (k, st')
    /\ simplified A o a b st k st'.
Proof.
  intros Hinv Ha Hb.
  assert (Hla := lookup_lt_Some _ _ _ Ha). assert (Hlb := lookup_lt_Some _ _ _ Hb).
  destruct ea as [?|x|? ? ?], eb as [?|y|? ? ?]; simpl;
    try (destruct (op_spec o a b st Hinv Hla Hlb) as (k & st' & E & _ & H);
         exists k, st'; split; [exact E|exact H]).
  destruct (fold_spec o a b x y st Hinv Ha Hb) as (k & st' & E & _ & H).
  exists k, st'. split; [exact E|exact H].
Qed.

(** An identity: the simplifier returns the operand [k] and leaves the
    table. *)
Lemma identity_spec o a b st k :
  inv st -> k < List.length st ->
  (exact A -> forall x y va vb,
     value_at A x y st a = Some va -> value_at A x y st b = Some vb ->
     value_at A x y st k = Some (arith_op A o va vb)) ->
  exists k' st', @inr exn _ (k, st) = inr (k', st') /\ simplified A o a b st k' st'.
Proof.
  intros Hinv Hk Hsem. exists k, st. split; [reflexivity|].
  split; [exact Hinv|]. split; [reflexivity|]. split; [exact Hk|]. exact Hsem.
Qed.

Lemma simplifier_spec o a b st :
  inv st -> a < List.length st -> b < List.length st ->
  exists k st', simplifier A o a b st = inr (k, st') /\ simplified A o a b st k st'.
Proof.
  intros Hinv Hla Hlb.
  destruct (lookup_lt_is_Some_2 st a Hla) as [ea Ha].
  destruct (lookup_lt_is_Some_2 st b Hlb) as [eb Hb].
  assert (Ht := inv_topo _ Hinv).
  destruct o; simpl.
  - rewrite (add_cases A st a b ea eb Ha Hb).
    case_bool_decide as Za; [subst ea|case_bool_decide as Zb; [subst eb|]].
    + apply identity_spec; [assumption..|]. intros Hex x y va vb Hva Hvb.
      apply (value_at_number_inv _ _ _ _ _ _ Ht Ha) in Hva as ->.
      rewrite Hvb. f_equal. symmetry. apply (plus_zero_l A Hex).
    + apply identity_spec; [assumption..|]. intros Hex x y va vb Hva Hvb.
      apply (value_at_number_inv _ _ _ _ _ _ Ht Hb) in Hvb as ->.
      rewrite Hva. f_equal. symmetry. apply (plus_zero_r A Hex).
    + apply fallback_spec; assumption.
  - rewrite (sub_cases A st a b ea eb Ha Hb).
    case_bool_decide as Zb; [subst eb|].
    + apply identity_spec; [assumption..|]. intros Hex x y va vb Hva Hvb.
      apply (value_at_number_inv _ _ _ _ _ _ Ht Hb) in Hvb as ->.
      rewrite Hva. f_equal. symmetry. apply (minus_zero_r A Hex).
    + apply fallback_spec; assumption.
  - rewrite (mul_cases A st a b ea eb Ha Hb).
    case_bool_decide as Za; [subst ea|case_bool_decide as Zb; [subst eb|
      case_bool_decide as Oa; [subst ea|case_bool_decide as Ob; [subst eb|]]]].
    + apply identity_spec; [assumption..|]. intros Hex x y va vb Hva Hvb.
      apply (value_at_number_inv _ _ _ _ _ _ Ht Ha) in Hva as ->.
      rewrite (value_at_number x y st a _ Ht Ha).
      f_equal. symmetry. apply (times_zero_l A Hex).
    + apply identity_spec; [assumption..|]. intros Hex x y va vb Hva Hvb.
      apply (value_at_number_inv _ _ _ _ _ _ Ht Hb) in Hvb as ->.
      rewrite (value_at_number x y st b _ Ht Hb).
      f_equal. symmetry. apply (times_zero_r A Hex).
    + apply identity_spec; [assumption..|]. intros Hex x y va vb Hva Hvb.
      apply (value_at_number_inv _ _ _ _ _ _ Ht Ha) in Hva as ->.
      rewrite Hvb. f_equal. symmetry. apply (times_one_l A Hex).
    + apply identity_spec; [assumption..|]. intros Hex x y va vb Hva Hvb.
      apply (value_at_number_inv _ _ _ _ _ _ Ht Hb) in Hvb as ->.
      rewrite Hva. f_equal. symmetry. apply (times_one_r A Hex).
    + apply fallback_spec; assumption.
  - rewrite (div_cases A st a b ea eb Ha Hb).
    case_bool_decide as Ob; [subst eb|case_bool_decide as Zb; [subst eb|]].
    + apply identity_spec; [assumption..|]. intros Hex x y va vb Hva Hvb.
      apply (value_at_number_inv _ _ _ _ _ _ Ht Hb) in Hvb as ->.
      rewrite Hva. f_equal. symmetry. apply (divide_one_r A Hex).
    + destruct (op_spec Divide a b st Hinv Hla Hlb) as (k & st' & E & _ & H).
      exists k, st'. split; [exact E|exact H].
    + apply fallback_spec; assumption.
Qed.
End SimplifierSpec.

(** ** Lowering *)

Lemma undefined_names_BinOp o lhs rhs :
  undefined_names (BinOp o lhs rhs)
  = (undefined_names lhs ++ undefined_names rhs)%list.
Proof. unfold undefined_names. simpl. apply List.filter_app. Qed.

Section LowerSpec.
Context (A : arith).

Lemma lower_BinOp o lhs rhs :
  lower A (BinOp o lhs rhs)
  = (a ← lower A lhs; b ← lower A rhs; combine A o a b).
Proof. destruct o; reflexivity. Qed.

(** A value known in an earlier table is known in the current one; the
    value of a simplifier's result comes from the values of its operands. *)
Ltac value_known :=
  first
    [ eassumption
    | match goal with
      | H : forall va vb, value_at _ _ _ _ _ = Some va -> _ -> value_at _ _ _ ?st' ?k = Some _
        |- value_at _ _ _ ?st' ?k = Some _ => eapply H; value_known
      end
    | eapply value_at_prefix; [eassumption | value_known] ].

(** One call of a simplifier in [combine]. *)
Ltac simplifier_step o a b st k st' :=
  let E := fresh "E" in
  let Hinv := fresh "Hinv" in
  let Hpre := fresh "Hpre" in
  let Hlt := fresh "Hlt" in
  let Hsem := fresh "Hsem" in
  let Hlen := fresh "Hlen" in
  destruct (simplifier_spec A o a b st) as (k & st' & E & Hinv & Hpre & Hlt & Hsem);
  [assumption | lia | lia |];
  cbn [simplifier] in E; rewrite (bind_inr _ _ _ _ _ E); clear E;
  assert (Hlen := prefix_length _ _ Hpre).

Ltac prefix_chain :=
  first [ eassumption | reflexivity
        | etransitivity; [eassumption | prefix_chain] ].

(** The end of a case of [combine]: the result is [mret] of the pair. *)
Ltac finish_combine :=
  split; [reflexivity|]; split; [assumption|];
  split; [prefix_chain|]; simpl; split; [lia|]; split; [lia|];
  let Hex := fresh "Hex" in
  intros Hex x y ca cb Hcar Hcai Hcbr Hcbi;
  repeat match goal with
         | H : exact A -> forall x y va vb, _ |- _ => specialize (H Hex x y)
         end;
  split; simpl; unfold cplus, cminus, ctimes, cdivide; value_known.

Lemma combine_spec o a b st :
  inv st ->
  re a < List.length st -> im a < List.length st ->
  re b < List.length st -> im b < List.length st ->
  exists p st', combine A o a b st = inr (p, st') /\ inv st'
    /\ st `prefix_of` st'
    /\ re p < List.length st' /\ im p < List.length st'
    /\ (exact A -> forall x y ca cb,
          value_at A x y st (re a) = Some (Re ca) ->
          value_at A x y st (im a) = Some (Im ca) ->
          value_at A x y st (re b) = Some (Re cb) ->
          value_at A x y st (im b) = Some (Im cb) ->
          value_at A x y st' (re p) = Some (Re (complex_op A o ca cb))
          /\ value_at A x y st' (im p) = Some (Im (complex_op A o ca cb))).
Proof.
  intros Hinv0 Hra Hia Hrb Hib. destruct o; unfold combine.
  - simplifier_step Plus (re a) (re b) st r st1.
    simplifier_step Plus (im a) (im b) st1 i st2.
    exists (Pair r i), st2. finish_combine.
  - simplifier_step Minus (re a) (re b) st r st1.
    simplifier_step Minus (im a) (im b) st1 i st2.
    exists (Pair r i), st2. finish_combine.
  - simplifier_step Times (re a) (re b) st rr st1.
    simplifier_step Times (im a) (im b) st1 ii st2.
    simplifier_step Minus rr ii st2 r st3.
    simplifier_step Times (re a) (im b) st3 ri st4.
    simplifier_step Times (im a) (re b) st4 ir st5.
    simplifier_step Plus ri ir st5 i st6.
    exists (Pair r i), st6. finish_combine.
  - simplifier_step Times (re b) (re b) st t1 st1.
    simplifier_step Times (im b) (im b) st1 t2 st2.
    simplifier_step Plus t1 t2 st2 t st3.
    simplifier_step Times (re a) (re b) st3 rr st4.
    simplifier_step Times (im a) (im b) st4 ii st5.
    simplifier_step Plus rr ii st5 n1 st6.
    simplifier_step Divide n1 t st6 r st7.
    simplifier_step Times (im a) (re b) st7 ir st8.
    simplifier_step Times (re a) (im b) st8 ri st9.
    simplifier_step Minus ir ri st9 n2 st10.
    simplifier_step Divide n2 t st10 i st11.
    exists (Pair r i), st11. finish_combine.
Qed.
Lemma constants_spec s1 s2 st :
  inv st ->
  exists r i st', (r ← num s1; i ← num s2; mret (Pair r i)) st = inr (Pair r i, st')
    /\ inv st' /\ st `prefix_of` st'
    /\ st' !! r = Some (VNumber s1) /\ st' !! i = Some (VNumber s2).
Proof.
  intros Hinv.
  destruct (intern_inv (VNumber s1) st Hinv I) as (r & st1 & E1 & Hr & Hinv1 & Hpre1 & _).
  destruct (intern_inv (VNumber s2) st1 Hinv1 I) as (i & st2 & E2 & Hi & Hinv2 & Hpre2 & _).
  exists r, i, st2. unfold num.
  rewrite (bind_inr _ _ _ _ _ E1), (bind_inr _ _ _ _ _ E2).
  split; [reflexivity|]. split; [assumption|].
  split; [etransitivity; eassumption|].
  split; [|assumption]. eapply prefix_lookup_Some; eassumption.
Qed.

Lemma lower_spec obj st : inv st -> lowered A obj st (lower A obj st).
Proof.
  revert st. induction obj as [value|id|o lhs IHl rhs IHr]; intros st Hinv.
  - destruct (constants_spec value "0" st Hinv)
      as (r & i & st' & E & Hinv' & Hpre & Hr & Hi).
    simpl lower. rewrite E. simpl.
    split; [reflexivity|]. split; [assumption|]. split; [assumption|].
    split; [eapply lookup_lt_Some, Hr|]. split; [eapply lookup_lt_Some, Hi|].
    intros _ x y. eexists. split; [reflexivity|]. simpl.
    split; apply value_at_number; (apply Hinv' || assumption).
  - simpl lower. destruct (String.eqb_spec id "i") as [->|Hi].
    + destruct (constants_spec "0" "1" st Hinv)
        as (r & i & st' & E & Hinv' & Hpre & Hr & Hi).
      rewrite E. simpl.
      split; [reflexivity|]. split; [assumption|]. split; [assumption|].
      split; [eapply lookup_lt_Some, Hr|]. split; [eapply lookup_lt_Some, Hi|].
      intros _ x y. eexists. split; [reflexivity|]. simpl.
      split; apply value_at_number; (apply Hinv' || assumption).
    + destruct (String.eqb_spec id "z") as [->|Hz]; simpl.
      * assert (H0 : st !! 0 = Some (VArg "z_re")).
        { eapply prefix_lookup_Some; [|apply Hinv]. reflexivity. }
        assert (H1 : st !! 1 = Some (VArg "z_im")).
        { eapply prefix_lookup_Some; [|apply Hinv]. reflexivity. }
        split; [reflexivity|]. split; [assumption|]. split; [reflexivity|].
        split; [eapply lookup_lt_Some, H0|]. split; [eapply lookup_lt_Some, H1|].
        intros _ x y. eexists. split; [reflexivity|]. simpl.
        rewrite (value_at_entry A x y st 0 _ (inv_topo _ Hinv) H0).
        rewrite (value_at_entry A x y st 1 _ (inv_topo _ Hinv) H1).
        split; reflexivity.
      * exists id, []. split; [|reflexivity].
        unfold undefined_names, known. simpl.
        destruct (String.eqb_spec id "i"); [contradiction|].
        destruct (String.eqb_spec id "z"); [contradiction|]. reflexivity.
  - rewrite lower_BinOp.
    specialize (IHl st Hinv).
    destruct (lower A lhs st) as [e|[pa st1]] eqn:El.
    { rewrite (bind_inl _ _ _ _ El). destruct IHl as (x & rest & Hn & ->).
      exists x, (rest ++ undefined_names rhs)%list.
      rewrite undefined_names_BinOp, Hn. split; reflexivity. }
    rewrite (bind_inr _ _ _ _ _ El).
    destruct IHl as (Hnl & Hinv1 & Hpre1 & Hra & Hia & Hsl).
    specialize (IHr st1 Hinv1).
    destruct (lower A rhs st1) as [e|[pb st2]] eqn:Er.
    { rewrite (bind_inl _ _ _ _ Er). destruct IHr as (x & rest & Hn & ->).
      exists x, rest. rewrite undefined_names_BinOp, Hnl, Hn. split; reflexivity. }
    rewrite (bind_inr _ _ _ _ _ Er).
    destruct IHr as (Hnr & Hinv2 & Hpre2 & Hrb & Hib & Hsr).
    assert (Hlen := prefix_length _ _ Hpre2).
    destruct (combine_spec o pa pb st2 Hinv2) as (p & st3 & E & Hinv3 & Hpre3 & Hrp & Hip & Hsc);
      [lia..|].
    rewrite E. unfold lowered. rewrite undefined_names_BinOp, Hnl, Hnr.
    split; [reflexivity|]. split; [assumption|].
    split; [etransitivity; [eassumption|]; etransitivity; eassumption|].
    split; [assumption|]. split; [assumption|].
    intros Hex x y.
    destruct (Hsl Hex x y) as (ca & Hca & Hcar & Hcai).
    destruct (Hsr Hex x y) as (cb & Hcb & Hcbr & Hcbi).
    exists (complex_op A o ca cb). split.
    + simpl. rewrite Hca, Hcb. reflexivity.
    + apply (Hsc Hex x y ca cb); try assumption;
        eapply value_at_prefix; eassumption.
Qed.
End LowerSpec.

(** ** Use counts *)

Lemma operand_count_out_of_reach k v i :
  (forall o a b, v = VOp o a b -> a < i /\ b < i) -> i <= k ->
  operand_count k v = 0.
Proof.
  intros H Hk. destruct v as [s|s|o a b]; try reflexivity.
  destruct (H o a b eq_refl) as [Ha Hb]. simpl.
  rewrite !bool_decide_eq_false_2 by lia. reflexivity.
Qed.

(** One round of the loop of [computeUseCounts] on a table in topological
    order: the entry [i] starts at zero and the operands of [node], which lie
    below [i], gain one use each. *)
Lemma computeUseCounts_step i node (m : gmap nat count) (c : nat -> nat) :
  (forall k, k < i -> m !! k = Some (Count (c k))) ->
  (forall o a b, node = VOp o a b -> a < i /\ b < i) ->
  forall k, k < S i ->
    computeUseCounts_body i node m !! k
    = Some (Count ((if decide (k < i) then c k else 0) + operand_count k node)).
Proof.
  intros Hm Hnode k Hk. unfold computeUseCounts_body.
  assert (Hbase : (<[i := Count 0]> m) !! k
                  = Some (Count (if decide (k < i) then c k else 0))).
  { rewrite lookup_insert. destruct (decide (i = k)) as [->|Hne].
    - destruct (decide (k < k)); [lia|reflexivity].
    - destruct (decide (k < i)); [|lia]. apply Hm. assumption. }
  destruct node as [s|s|o a b]; cbn zeta; cbn [operand_count];
    try (rewrite Hbase, Nat.add_0_r; reflexivity).
  destruct (Hnode o a b eq_refl) as [Ha Hb].
  assert (Hma : (<[i := Count 0]> m) !! a = Some (Count (c a))).
  { rewrite lookup_insert_ne by lia. apply Hm, Ha. }
  assert (Hmb : (<[i := Count 0]> m) !! b = Some (Count (c b))).
  { rewrite lookup_insert_ne by lia. apply Hm, Hb. }
  rewrite Hma. cbn [increment].
  destruct (decide (a = b)) as [->|Hab].
  - rewrite (lookup_insert_eq _ b). cbn [increment].
    destruct (decide (b = k)) as [->|Hbk].
    + rewrite lookup_insert_eq, !bool_decide_eq_true_2 by reflexivity.
      destruct (decide (k < i)); [|lia]. do 2 f_equal. lia.
    + rewrite !lookup_insert_ne by assumption.
      rewrite !bool_decide_eq_false_2 by assumption.
      rewrite Hbase, Nat.add_0_r. reflexivity.
  - rewrite (lookup_insert_ne _ a b) by assumption. rewrite Hmb. cbn [increment].
    destruct (decide (b = k)) as [->|Hbk].
    + rewrite lookup_insert_eq.
      rewrite (bool_decide_eq_false_2 (a = k)) by assumption.
      rewrite (bool_decide_eq_true_2 (k = k)) by reflexivity.
      destruct (decide (k < i)); [|lia]. do 2 f_equal. lia.
    + rewrite (lookup_insert_ne _ b k) by assumption.
      rewrite (bool_decide_eq_false_2 (b = k)) by assumption.
      destruct (decide (a = k)) as [->|Hak].
      * rewrite lookup_insert_eq.
        rewrite (bool_decide_eq_true_2 (k = k)) by reflexivity.
        destruct (decide (k < i)); [|lia]. do 2 f_equal. lia.
      * rewrite (lookup_insert_ne _ a k) by assumption.
        rewrite (bool_decide_eq_false_2 (a = k)) by assumption.
        rewrite Hbase, Nat.add_0_r. reflexivity.
Qed.

Lemma computeUseCounts_loop_spec rest :
  forall i (m : gmap nat count) (c : nat -> nat),
    (forall k, k < i -> m !! k = Some (Count (c k))) ->
    (forall j o a b, rest !! j = Some (VOp o a b) -> a < i + j /\ b < i + j) ->
    forall k, k < i + List.length rest ->
      computeUseCounts_loop i rest m !! k
      = Some (Count ((if decide (k < i) then c k else 0) + operand_uses rest k)).
Proof.
  induction rest as [|node rest IH]; intros i m c Hm Hrest k Hk.
  - simpl in *. destruct (decide (k < i)); [|lia].
    rewrite Nat.add_0_r. apply Hm. assumption.
  - assert (Hnode : forall o a b, node = VOp o a b -> a < i /\ b < i).
    { intros o a b ->. specialize (Hrest 0 o a b eq_refl). lia. }
    cbn [computeUseCounts_loop operand_uses].
    rewrite (IH (S i) _
               (fun k => (if decide (k < i) then c k else 0) + operand_count k node)).
    + destruct (decide (k < S i)) as [Hlt|Hge].
      * do 2 f_equal. lia.
      * destruct (decide (k < i)); [lia|].
        rewrite (operand_count_out_of_reach k node i Hnode) by lia. reflexivity.
    + intros k' Hk'. apply (computeUseCounts_step i node m c Hm Hnode k' Hk').
    + intros j o a b Hj. specialize (Hrest (S j) o a b Hj). lia.
    + simpl in Hk. lia.
Qed.

(** ** The exact integers are exact *)



(** IEEE doubles are not: zero times [NaN] is [NaN]. *)
Lemma double_is_not_exact : ~ exact JSDouble.double.
Proof.
  intros H. pose proof (times_zero_l _ H S754_nan) as E.
  vm_compute in E. discriminate.
Qed.

(** The example of the specification: ["(z+1)/(z-1)"] at [z = 2+0i] gives
    [(3, 0)]. *)
Example double_example :
  match lowerFormula JSDouble.double "(z+1)/(z-1)" with
  | Some (inr (result, values)) =>
      run JSDouble.double values result
        (JSDouble.StringToNumber "2") (JSDouble.StringToNumber "0")
  | _ => None
  end
  = Some (JSDouble.StringToNumber "3", JSDouble.StringToNumber "0").
Proof. vm_compute. reflexivity. Qed.

(** ** Every entry of the table has a value *)

Lemma value_at_total (A : arith) x y st :
  inv st -> forall k, k < List.length st -> is_Some (value_at A x y st k).
Proof.
  intros Hinv k. induction (lt_wf k) as [k _ IH]. intros Hk.
  destruct (lookup_lt_is_Some_2 st k Hk) as [v Hv].
  rewrite (value_at_entry A x y st k v (inv_topo _ Hinv) Hv).
  destruct v as [s|s|o a b].
  - assert (Hk2 := inv_args _ Hinv k s Hv).
    assert (Hpre := inv_init _ Hinv).
    destruct (lookup_lt_is_Some_2 initial_values k) as [v0 Hv0]; [simpl; lia|].
    rewrite (prefix_lookup_Some _ _ _ _ Hv0 Hpre) in Hv. injection Hv as <-.
    destruct k as [|[|k]]; simpl in Hv0; try lia; injection Hv0 as <-; simpl; eauto.
  - simpl. eauto.
  - destruct (inv_topo _ Hinv k o a b Hv) as [Ha Hb].
    destruct (IH a Ha) as [va Hva]; [lia|].
    destruct (IH b Hb) as [vb Hvb]; [lia|].
    rewrite Hva, Hvb. simpl. eauto.
Qed.

(** ** Interning on a later table *)

Lemma scan_first v rest i j :
  rest !! j = Some v -> (forall j', j' < j -> rest !! j' <> Some v) ->
  scan v rest i = Some (i + j).
Proof.
  revert i j. induction rest as [|x rest IH]; intros i j Hj Hmin; [discriminate|].
  simpl. destruct j as [|j].
  - injection Hj as ->.
    rewrite (proj2 (valuesEqual_eq v v) eq_refl). f_equal. lia.
  - destruct (valuesEqual x v) eqn:E.
    + apply valuesEqual_eq in E as ->. exfalso. apply (Hmin 0); [lia|reflexivity].
    + rewrite (IH (S i) j Hj).
      * f_equal. lia.
      * intros j' Hj'. apply (Hmin (S j')). lia.
Qed.

(** Interning again, on the table interning left or on any extension of it,
    finds the same index and appends nothing. *)
Lemma valueToIndex_extension v st k st1 st2 :
  valueToIndex v st = inr (k, st1) -> st1 `prefix_of` st2 ->
  valueToIndex v st2 = inr (k, st2).
Proof.
  intros E Hpre.
  assert (Hfirst : st1 !! k = Some v /\ forall j, j < k -> st1 !! j <> Some v).
  { destruct (valueToIndex_cases v st) as [(k' & E' & Hk & Hmin)|[E' Hnot]];
      rewrite E in E'; injection E' as -> ->.
    - auto.
    - split; [rewrite lookup_app_r by lia; rewrite Nat.sub_diag; reflexivity|].
      intros j Hj Hv. rewrite lookup_app_l in Hv by exact Hj.
      apply Hnot. eapply list_elem_of_lookup_2, Hv. }
  destruct Hfirst as [Hk Hmin].
  assert (Hk2 := prefix_lookup_Some _ _ _ _ Hk Hpre).
  unfold valueToIndex. rewrite (scan_first v st2 0 k Hk2); [reflexivity|].
  intros j Hj Hv. apply (Hmin j Hj).
  destruct (lookup_lt_is_Some_2 st1 j) as [w Hw].
  { apply lookup_lt_Some in Hk. lia. }
  rewrite (prefix_lookup_Some _ _ _ _ Hw Hpre) in Hv. congruence.
Qed.

(** * The properties the specification states *)

(** C5. After lowering a formula that [lower] accepts, no two entries of the
    value table are equal for [valuesEqual].  For ["(z+1)*(z+1)"] the real and
    imaginary components of [z+1] are the entries 4 and 1 (["z+1"] alone lowers
    to this pair), the table holds [z_re + 1] once, and both operands of
    every multiplication are these two entries. *)
Theorem lowered_table_has_no_duplicates (A : arith) obj p st' :
  lower A obj initial_values = inr (p, st') ->
  (forall i j vi vj,
      st' !! i = Some vi -> st' !! j = Some vj ->
      valuesEqual vi vj = true -> i = j)
  /\ lowerFormula A "z+1"
     = Some (inr (Pair 4 1,
                  [VArg "z_re"; VArg "z_im"; VNumber "1"; VNumber "0";
                   VOp Plus 0 2]))
  /\ lowerFormula A "(z+1)*(z+1)"
     = Some (inr (Pair 7 10,
                  [VArg "z_re"; VArg "z_im"; VNumber "1"; VNumber "0";
                   VOp Plus 0 2; VOp Times 4 4; VOp Times 1 1; VOp Minus 5 6;
                   VOp Times 4 1; VOp Times 1 4; VOp Plus 8 9])).
Proof.
  intros E. split; [|split; reflexivity].
  pose proof (lower_spec A obj initial_values inv_initial) as H.
  rewrite E in H. destruct H as (_ & Hinv & _).
  intros i j vi vj Hi Hj Heq. apply valuesEqual_eq in Heq as ->.
  eapply NoDup_lookup; [apply (inv_nodup _ Hinv)|eassumption..].
Qed.

Lemma lowered_table_has_no_duplicates_witness :
  lower JSDouble.double
    (BinOp Times (BinOp Plus (Name "z") (Num "1")) (BinOp Plus (Name "z") (Num "1")))
    initial_values
  = inr (Pair 7 10,
         [VArg "z_re"; VArg "z_im"; VNumber "1"; VNumber "0"; VOp Plus 0 2;
          VOp Times 4 4; VOp Times 1 1; VOp Minus 5 6; VOp Times 4 1;
          VOp Times 1 4; VOp Plus 8 9])
  /\ ((forall i j vi vj,
         [VArg "z_re"; VArg "z_im"; VNumber "1"; VNumber "0"; VOp Plus 0 2;
          VOp Times 4 4; VOp Times 1 1; VOp Minus 5 6; VOp Times 4 1;
          VOp Times 1 4; VOp Plus 8 9] !! i = Some vi ->
         [VArg "z_re"; VArg "z_im"; VNumber "1"; VNumber "0"; VOp Plus 0 2;
          VOp Times 4 4; VOp Times 1 1; VOp Minus 5 6; VOp Times 4 1;
          VOp Times 1 4; VOp Plus 8 9] !! j = Some vj ->
         valuesEqual vi vj = true -> i = j)
       /\ lowerFormula JSDouble.double "z+1"
          = Some (inr (Pair 4 1,
                       [VArg "z_re"; VArg "z_im"; VNumber "1"; VNumber "0";
                        VOp Plus 0 2]))
       /\ lowerFormula JSDouble.double "(z+1)*(z+1)"
          = Some (inr (Pair 7 10,
                       [VArg "z_re"; VArg "z_im"; VNumber "1"; VNumber "0";
                        VOp Plus 0 2; VOp Times 4 4; VOp Times 1 1; VOp Minus 5 6;
                        VOp Times 4 1; VOp Times 1 4; VOp Plus 8 9]))).
Proof.
  split; [reflexivity|].
  apply (lowered_table_has_no_duplicates JSDouble.double
           (BinOp Times (BinOp Plus (Name "z") (Num "1"))
                        (BinOp Plus (Name "z") (Num "1")))
           (Pair 7 10)).
  reflexivity.
Defined.

(** C6. The table is in topological order all along: the initial table is;
    interning a candidate (a constant, or an operation on indices in range)
    keeps it so and returns an index in range; and the table [lower] leaves
    is, with both result indices in range.  Hence every entry has a value when
    the entries are evaluated in increasing index order. *)
Theorem table_stays_topological (A : arith) :
  topological initial_values
  /\ (forall st v k st',
        topological st -> candidate st v -> valueToIndex v st = inr (k, st') ->
        topological st' /\ k < List.length st')
  /\ (forall obj p st',
        lower A obj initial_values = inr (p, st') ->
        topological st' /\ re p < List.length st' /\ im p < List.length st'
        /\ forall x y k, k < List.length st' -> is_Some (value_at A x y st' k)).
Proof.
  split; [apply inv_initial|]. split.
  - intros st v k st' Htopo Hv E.
    apply (intern_topological v st k st' Htopo); [|exact E].
    intros o a b ->. exact Hv.
  - intros obj p st' E.
    pose proof (lower_spec A obj initial_values inv_initial) as H.
    rewrite E in H. destruct H as (_ & Hinv & _ & Hre & Him & _).
    split; [apply Hinv|]. split; [exact Hre|]. split; [exact Him|].
    intros x y k. apply value_at_total, Hinv.
Qed.

Lemma table_stays_topological_witness :
  lower JSDouble.double
    (BinOp Divide (BinOp Plus (Name "z") (Num "1")) (BinOp Minus (Name "z") (Num "1")))
    initial_values
  = inr (Pair 11 15,
         [VArg "z_re"; VArg "z_im"; VNumber "1"; VNumber "0"; VOp Plus 0 2;
          VOp Minus 0 2; VOp Times 5 5; VOp Times 1 1; VOp Plus 6 7;
          VOp Times 4 5; VOp Plus 9 7; VOp Divide 10 8; VOp Times 1 5;
          VOp Times 4 1; VOp Minus 12 13; VOp Divide 14 8])
  /\ topological
       [VArg "z_re"; VArg "z_im"; VNumber "1"; VNumber "0"; VOp Plus 0 2;
        VOp Minus 0 2; VOp Times 5 5; VOp Times 1 1; VOp Plus 6 7;
        VOp Times 4 5; VOp Plus 9 7; VOp Divide 10 8; VOp Times 1 5;
        VOp Times 4 1; VOp Minus 12 13; VOp Divide 14 8].
Proof.
  split; [reflexivity|].
  refine (proj1 (proj2 (proj2 (table_stays_topological JSDouble.double))
                   (BinOp Divide (BinOp Plus (Name "z") (Num "1"))
                                 (BinOp Minus (Name "z") (Num "1")))
                   (Pair 11 15) _ _)).
  reflexivity.
Defined.

(** C2, as stated, fails: ["x + y"] contains the identifier [y], which is
    neither [z] nor [i], and compiling it fails with an error that names [x],
    not [y]. *)
Lemma error_names_another_identifier :
  parse "x + y" = Some (inr (BinOp Plus (Name "x") (Name "y")))
  /\ In "y" (names (BinOp Plus (Name "x") (Name "y")))
  /\ known "y" = false
  /\ compileToComplexFunction JSDouble.double "x + y"
     = Some (inl (SyntaxError "undefined variable: x"))
  /\ compileToComplexFunction JSDouble.double "x + y"
     <> Some (inl (SyntaxError "undefined variable: y")).
Proof.
  split; [reflexivity|]. split; [simpl; auto|]. split; [reflexivity|].
  split; [reflexivity|]. discriminate.
Qed.

(** C2, amended.  A formula with an identifier other than [z] and [i] is not
    lowered: [lower] throws the error ["undefined variable: "] followed by the
    leftmost such identifier, so compiling a text that parses to the formula
    fails with this error and yields neither a table nor a function.
    Compiling ["y + 1"] fails with the error that names [y]. *)
Theorem undefined_variable_is_reported (A : arith) obj x rest :
  undefined_names obj = x :: rest ->
  lower A obj initial_values = inl (SyntaxError ("undefined variable: " +:+ x))
  /\ (forall code,
        parse code = Some (inr obj) ->
        compileToComplexFunction A code
        = Some (inl (SyntaxError ("undefined variable: " +:+ x))))
  /\ compileToComplexFunction A "y + 1"
     = Some (inl (SyntaxError "undefined variable: y")).
Proof.
  intros Hn.
  assert (E : lower A obj initial_values
              = inl (SyntaxError ("undefined variable: " +:+ x))).
  { pose proof (lower_spec A obj initial_values inv_initial) as H.
    destruct (lower A obj initial_values) as [e|[p st']].
    - destruct H as (x' & rest' & Hn' & ->). congruence.
    - destruct H as (Hnil & _). congruence. }
  split; [exact E|]. split; [|reflexivity].
  intros code Hparse. unfold compileToComplexFunction, lowerFormula.
  rewrite Hparse, E. reflexivity.
Qed.

Lemma undefined_variable_is_reported_witness :
  undefined_names (BinOp Plus (Name "y") (Num "1")) = ["y"]
  /\ lower JSDouble.double (BinOp Plus (Name "y") (Num "1")) initial_values
     = inl (SyntaxError "undefined variable: y")
  /\ (forall code,
        parse code = Some (inr (BinOp Plus (Name "y") (Num "1"))) ->
        compileToComplexFunction JSDouble.double code
        = Some (inl (SyntaxError "undefined variable: y")))
  /\ compileToComplexFunction JSDouble.double "y + 1"
     = Some (inl (SyntaxError "undefined variable: y")).
Proof.
  split; [reflexivity|].
  apply (undefined_variable_is_reported JSDouble.double
           (BinOp Plus (Name "y") (Num "1")) "y" []).
  reflexivity.
Defined.

(** C10. A constant is interned by its text: once [num] has given the text
    [s1] the index [i1], [num] on any later state of the table, however many
    entries have been added since, gives a text [s2] the same index if and
    only if [s2] is the same string as [s1]; ["1"] and ["1.0"] get different
    indices. *)
Theorem constants_are_interned_by_text (st : list value) (s1 s2 : string) :
  exists i1 st1,
    num s1 st = inr (i1, st1)
    /\ (forall st', st1 `prefix_of` st' ->
        exists i2 st2,
          num s2 st' = inr (i2, st2)
          /\ st2 !! i1 = Some (VNumber s1) /\ st2 !! i2 = Some (VNumber s2)
          /\ (i1 = i2 <-> s1 = s2))
    /\ (r ← num "1"; i ← num "1.0"; mret (r, i)) initial_values
       = inr ((2, 3), [VArg "z_re"; VArg "z_im"; VNumber "1"; VNumber "1.0"]).
Proof.
  destruct (valueToIndex_spec (VNumber s1) st) as (i1 & st1 & E1 & H1 & _).
  exists i1, st1. unfold num. split; [exact E1|]. split; [|reflexivity].
  intros st' Hpre.
  destruct (valueToIndex_spec (VNumber s2) st') as (i2 & st2 & E2 & H2 & Hst2).
  exists i2, st2. split; [exact E2|].
  assert (Hpre2 : st1 `prefix_of` st2).
  { destruct Hst2 as [->|(-> & _)]; [exact Hpre|].
    etransitivity; [exact Hpre|]. apply prefix_app_r. reflexivity. }
  assert (H1' : st2 !! i1 = Some (VNumber s1)).
  { eapply prefix_lookup_Some; eassumption. }
  split; [exact H1'|]. split; [exact H2|]. split.
  - intros ->. congruence.
  - intros ->.
    assert (E := valueToIndex_extension _ _ _ _ st' E1 Hpre).
    rewrite E in E2. congruence.
Qed.

(** C7. On operands in range [div] never throws.  When the divisor is the
    constant zero or not a constant, it interns the division itself: the
    result is an entry [a / b] of the table, found or appended.  When its
    result is a constant, both operands are constants and the divisor is not
    the constant zero; and two constants with a divisor that is neither ["0"]
    nor ["1"] are folded.  The emitted code for ["1/0"] divides zero by zero,
    which in IEEE arithmetic is a number, [NaN]. *)
Theorem div_defers_division_by_zero (A : arith) st a b va vb :
  st !! a = Some va -> st !! b = Some vb ->
  (exists k st', div A a b st = inr (k, st'))
  /\ (type vb <> TNumber \/ vb = VNumber "0" ->
      exists k st', div A a b st = inr (k, st')
        /\ st' !! k = Some (VOp Divide a b)
        /\ (st' = st \/ st' = (st ++ [VOp Divide a b])%list))
  /\ (forall k st' s,
        div A a b st = inr (k, st') -> st' !! k = Some (VNumber s) ->
        exists x y, va = VNumber x /\ vb = VNumber y /\ y <> "0")
  /\ (forall x y,
        va = VNumber x -> vb = VNumber y -> y <> "0" -> y <> "1" ->
        div A a b st = num (folded A Divide x y) st)
  /\ compileToComplexFunction JSDouble.double "1/0"
     = Some (inr ("var t0 = 0;" +:+ newline
                  +:+ "return {re: (t0/t0), im: (t0/t0)};" +:+ newline))
  /\ (forall x y,
        run JSDouble.double
          [VArg "z_re"; VArg "z_im"; VNumber "1"; VNumber "0"; VOp Divide 3 3]
          (Pair 4 4) x y
        = Some (S754_nan, S754_nan)).
Proof.
  intros Ha Hb. rewrite (div_cases A st a b va vb Ha Hb).
  assert (Hop : exists k st', op Divide a b st = inr (k, st')
                  /\ st' !! k = Some (VOp Divide a b)
                  /\ (st' = st \/ st' = (st ++ [VOp Divide a b])%list)).
  { destruct (valueToIndex_spec (VOp Divide a b) st) as (k & st' & E & Hk & Hst').
    exists k, st'. split; [exact E|]. split; [exact Hk|].
    destruct Hst' as [->|(-> & _)]; auto. }
  assert (Hnum : forall s, exists k st', num s st = inr (k, st')
                   /\ st' !! k = Some (VNumber s)).
  { intros s. destruct (valueToIndex_spec (VNumber s) st) as (k & st' & E & Hk & _).
    exists k, st'. auto. }
  split; [|split; [|split; [|split; [|split]]]].
  - case_bool_decide; [eauto|]. case_bool_decide.
    + destruct Hop as (k & st' & E & _). exists k, st'. exact E.
    + destruct va as [?|x|? ? ?], vb as [?|y|? ? ?]; simpl;
        try (destruct Hop as (k & st' & E & _); exists k, st'; exact E).
      destruct (Hnum (folded A Divide x y)) as (k & st' & E & _).
      exists k, st'. exact E.
  - intros Hvb. case_bool_decide as H1.
    { subst vb. destruct Hvb as [Hvb|Hvb]; [contradiction Hvb; reflexivity|discriminate]. }
    case_bool_decide as H0; [exact Hop|].
    destruct Hvb as [Hvb|Hvb]; [|contradiction].
    destruct va as [?|x|? ? ?], vb as [?|y|? ? ?]; simpl; try exact Hop.
    contradiction Hvb; reflexivity.
  - intros k st' s. case_bool_decide as H1; [|case_bool_decide as H0].
    + intros [= <- <-] Hk. rewrite Ha in Hk. injection Hk as ->. subst vb.
      exists s, "1". split; [reflexivity|]. split; [reflexivity|]. discriminate.
    + intros E Hk. destruct Hop as (k' & st'' & E' & Hk' & _).
      rewrite E in E'. injection E' as <- <-. congruence.
    + destruct va as [?|x|? ? ?], vb as [?|y|? ? ?]; simpl;
        try (intros E Hk; destruct Hop as (k' & st'' & E' & Hk' & _);
             rewrite E in E'; injection E' as <- <-; congruence).
      intros _ _. exists x, y. split; [reflexivity|]. split; [reflexivity|]. congruence.
  - intros x y -> -> Hy0 Hy1.
    rewrite !bool_decide_eq_false_2 by congruence. reflexivity.
  - reflexivity.
  - intros x y. reflexivity.
Qed.

Lemma div_defers_division_by_zero_witness :
  [VArg "z_re"; VArg "z_im"; VNumber "1"; VNumber "0"] !! 2 = Some (VNumber "1")
  /\ [VArg "z_re"; VArg "z_im"; VNumber "1"; VNumber "0"] !! 3 = Some (VNumber "0")
  /\ exists k st',
       div JSDouble.double 2 3 [VArg "z_re"; VArg "z_im"; VNumber "1"; VNumber "0"]
       = inr (k, st')
       /\ st' !! k = Some (VOp Divide 2 3)
       /\ (st' = [VArg "z_re"; VArg "z_im"; VNumber "1"; VNumber "0"]
           \/ st' = ([VArg "z_re"; VArg "z_im"; VNumber "1"; VNumber "0"]
                     ++ [VOp Divide 2 3])%list).
Proof.
  split; [reflexivity|]. split; [reflexivity|].
  refine (proj1 (proj2 (div_defers_division_by_zero JSDouble.double
                          [VArg "z_re"; VArg "z_im"; VNumber "1"; VNumber "0"]
                          2 3 (VNumber "1") (VNumber "0") _ _)) _).
  - reflexivity.
  - reflexivity.
  - right. reflexivity.
Defined.

(** C8. On operands in range [mul] applies its rules in this order, the first
    that matches winning: [a] is the constant zero, return [a]; [b] is the
    constant zero, return [b]; [a] is the constant one, return [b]; [b] is the
    constant one, return [a]; both are constants, return the folded constant;
    otherwise intern the multiplication.  Compiling ["z*1"] emits the return
    of [z_re] and [z_im], with no multiplication. *)
Theorem mul_rules_in_order (A : arith) st a b va vb :
  st !! a = Some va -> st !! b = Some vb ->
  (va = VNumber "0" -> mul A a b st = inr (a, st))
  /\ (va <> VNumber "0" -> vb = VNumber "0" -> mul A a b st = inr (b, st))
  /\ (va <> VNumber "0" -> vb <> VNumber "0" -> va = VNumber "1" ->
      mul A a b st = inr (b, st))
  /\ (va <> VNumber "0" -> vb <> VNumber "0" -> va <> VNumber "1" ->
      vb = VNumber "1" -> mul A a b st = inr (a, st))
  /\ (va <> VNumber "0" -> vb <> VNumber "0" -> va <> VNumber "1" ->
      vb <> VNumber "1" ->
      forall x y, va = VNumber x -> vb = VNumber y ->
        mul A a b st
        = num (JSString A (arith_op A Times (JSNumber A x) (JSNumber A y))) st)
  /\ (va <> VNumber "0" -> vb <> VNumber "0" -> va <> VNumber "1" ->
      vb <> VNumber "1" ->
      type va <> TNumber \/ type vb <> TNumber ->
      mul A a b st = valueToIndex (VOp Times a b) st)
  /\ compileToComplexFunction A "z*1"
     = Some (inr ("return {re: z_re, im: z_im};" +:+ newline))
  /\ has_char "*" ("return {re: z_re, im: z_im};" +:+ newline) = false.
Proof.
  intros Ha Hb. rewrite (mul_cases A st a b va vb Ha Hb).
  split; [|split; [|split; [|split; [|split; [|split; [|split]]]]]].
  - intros ->. reflexivity.
  - intros H1 ->. rewrite bool_decide_eq_false_2 by exact H1. reflexivity.
  - intros H1 H2 ->. rewrite !bool_decide_eq_false_2 by assumption. reflexivity.
  - intros H1 H2 H3 ->.
    rewrite !bool_decide_eq_false_2 by assumption. reflexivity.
  - intros H1 H2 H3 H4 x y -> ->.
    rewrite !bool_decide_eq_false_2 by assumption. reflexivity.
  - intros H1 H2 H3 H4 Hty.
    rewrite !bool_decide_eq_false_2 by assumption.
    destruct va, vb; simpl in *; try reflexivity.
    destruct Hty as [Hty|Hty]; contradiction Hty; reflexivity.
  - reflexivity.
  - reflexivity.
Qed.

Lemma mul_rules_in_order_witness :
  [VArg "z_re"; VArg "z_im"; VNumber "1"; VNumber "0"] !! 0 = Some (VArg "z_re")
  /\ [VArg "z_re"; VArg "z_im"; VNumber "1"; VNumber "0"] !! 2 = Some (VNumber "1")
  /\ mul JSDouble.double 0 2 [VArg "z_re"; VArg "z_im"; VNumber "1"; VNumber "0"]
     = inr (0, [VArg "z_re"; VArg "z_im"; VNumber "1"; VNumber "0"]).
Proof.
  split; [reflexivity|]. split; [reflexivity|].
  refine (proj1 (proj2 (proj2 (proj2
            (mul_rules_in_order JSDouble.double
               [VArg "z_re"; VArg "z_im"; VNumber "1"; VNumber "0"]
               0 2 (VArg "z_re") (VNumber "1") _ _)))) _ _ _ _);
    (reflexivity || discriminate).
Defined.

(** C9. Compiling ["2*3"] leaves a table whose real result is the single
    constant ["6"], folded in IEEE arithmetic from ["2"] and ["3"], and emits
    the return of [6] and [0]: the code has no multiplication operator. *)
Theorem two_times_three_is_folded :
  lowerFormula JSDouble.double "2*3"
  = Some (inr (Pair 5 3,
               [VArg "z_re"; VArg "z_im"; VNumber "2"; VNumber "0";
                VNumber "3"; VNumber "6"]))
  /\ folded JSDouble.double Times "2" "3" = "6"
  /\ compileToComplexFunction JSDouble.double "2*3"
     = Some (inr ("return {re: 6, im: 0};" +:+ newline))
  /\ has_char "*" ("return {re: 6, im: 0};" +:+ newline) = false.
Proof. repeat split; vm_compute; reflexivity. Qed.

(** C3. What [ir_to_js] emits for ["(z+1)/(z-1)"]: the argument [z_re]
    (entry 0), the argument [z_im] (entry 1) and the constant [1] (entry 2)
    are each used more than once and each get a temporary, unlike in the
    documented output. *)
Theorem arguments_and_constants_get_temporaries :
  lowerFormula JSDouble.double "(z+1)/(z-1)"
  = Some (inr (Pair 11 15,
               [VArg "z_re"; VArg "z_im"; VNumber "1"; VNumber "0"; VOp Plus 0 2;
                VOp Minus 0 2; VOp Times 5 5; VOp Times 1 1; VOp Plus 6 7;
                VOp Times 4 5; VOp Plus 9 7; VOp Divide 10 8; VOp Times 1 5;
                VOp Times 4 1; VOp Minus 12 13; VOp Divide 14 8]))
  /\ compileToComplexFunction JSDouble.double "(z+1)/(z-1)"
     = Some (inr ("var t0 = z_re;" +:+ newline
                  +:+ "var t1 = z_im;" +:+ newline
                  +:+ "var t2 = 1;" +:+ newline
                  +:+ "var t3 = (t0+t2);" +:+ newline
                  +:+ "var t4 = (t0-t2);" +:+ newline
                  +:+ "var t5 = (t1*t1);" +:+ newline
                  +:+ "var t6 = ((t4*t4)+t5);" +:+ newline
                  +:+ "return {re: (((t3*t4)+t5)/t6), im: (((t1*t4)-(t3*t1))/t6)};"
                  +:+ newline))
  /\ compileToComplexFunction JSDouble.double "(z+1)/(z-1)"
     <> Some (inr documented_output).
Proof.
  split; [vm_compute; reflexivity|]. split; [vm_compute; reflexivity|].
  vm_compute. discriminate.
Qed.

Lemma lower_inv (A : arith) obj p st' :
  lower A obj initial_values = inr (p, st') -> inv st'.
Proof.
  intros E. pose proof (lower_spec A obj initial_values inv_initial) as H.
  rewrite E in H. apply H.
Qed.

(** C4, as stated, fails: for the formula ["z"] the table is the initial one
    and the result pair is [(0, 1)]; the specified use count of index 0 is 1,
    the computed one is 0. *)
Lemma result_indices_are_not_counted :
  lowerFormula JSDouble.double "z" = Some (inr (Pair 0 1, initial_values))
  /\ computeUseCounts initial_values !! 0 = Some (Count 0)
  /\ specified_use_count initial_values (Pair 0 1) 0 = 1.
Proof. repeat split. Qed.

Lemma use_counts_of_topological (values : list value) (i : nat) :
  topological values -> i < List.length values ->
  computeUseCounts values !! i = Some (Count (operand_uses values i)).
Proof.
  intros Htopo Hi. unfold computeUseCounts.
  rewrite (computeUseCounts_loop_spec values 0 ∅ (fun _ => 0)).
  - destruct (decide (i < 0)); [lia|]. reflexivity.
  - intros k Hk. lia.
  - intros j o a b Hj. simpl. eapply Htopo, Hj.
  - simpl. exact Hi.
Qed.

(** C4, amended.  For the table and the result pair that lowering a formula
    leaves, the use count computed for each index of the table is the number
    of times the index is an operand of an arithmetic entry of the table;
    being a result index adds nothing. *)
Theorem use_counts_are_operand_counts (A : arith) obj result values (i : nat) :
  lower A obj initial_values = inr (result, values) ->
  i < List.length values ->
  computeUseCounts values !! i = Some (Count (operand_uses values i)).
Proof.
  intros E Hi. apply use_counts_of_topological; [|exact Hi].
  apply (inv_topo _ (lower_inv A obj result values E)).
Qed.

Lemma use_counts_are_operand_counts_witness :
  lower JSDouble.double
    (BinOp Times (BinOp Plus (Name "z") (Num "1")) (BinOp Plus (Name "z") (Num "1")))
    initial_values
  = inr (Pair 7 10,
         [VArg "z_re"; VArg "z_im"; VNumber "1"; VNumber "0"; VOp Plus 0 2;
          VOp Times 4 4; VOp Times 1 1; VOp Minus 5 6; VOp Times 4 1;
          VOp Times 1 4; VOp Plus 8 9])
  /\ 4 < 11
  /\ computeUseCounts
       [VArg "z_re"; VArg "z_im"; VNumber "1"; VNumber "0"; VOp Plus 0 2;
        VOp Times 4 4; VOp Times 1 1; VOp Minus 5 6; VOp Times 4 1;
        VOp Times 1 4; VOp Plus 8 9] !! 4
     = Some (Count 4).
Proof.
  split; [reflexivity|]. split; [lia|].
  etransitivity.
  - apply (use_counts_are_operand_counts JSDouble.double
             (BinOp Times (BinOp Plus (Name "z") (Num "1"))
                          (BinOp Plus (Name "z") (Num "1")))
             (Pair 7 10) _ 4).
    + reflexivity.
    + simpl. lia.
  - reflexivity.
Defined.

(** Two emitted texts a JS engine does not read as the table means: after
    [-] an inlined negative constant gives the token [--], and a constant with
    a leading zero is written as it stands. *)
Example emitted_minus_negative_constant :
  compileToComplexFunction JSDouble.double "z-(0-1)"
  = Some (inr ("return {re: (z_re--1), im: z_im};" +:+ newline)).
Proof. vm_compute. reflexivity. Qed.
Example emitted_leading_zero :
  compileToComplexFunction JSDouble.double "z+010"
  = Some (inr ("return {re: (z_re+010), im: z_im};" +:+ newline)).
Proof. vm_compute. reflexivity. Qed.




(** * Further properties of the back end *)

Lemma bind_inr_inv {X Y : Type} (m : M X) (f : X -> M Y) st r :
  (m ≫= f) st = inr r -> exists x st', m st = inr (x, st') /\ f x st' = inr r.
Proof.
  unfold mbind, M_bind. destruct (m st) as [e|[x st']]; [discriminate|].
  intros H. exists x, st'. auto.
Qed.

(** X1. Interning is idempotent: the index [valueToIndex] returns holds the
    value, is the first index that does, and interning the value again returns
    the same index and leaves the table as it is. *)
Theorem valueToIndex_is_idempotent v st k st' :
  valueToIndex v st = inr (k, st') ->
  st' !! k = Some v
  /\ (forall j, j < k -> st' !! j <> Some v)
  /\ st `prefix_of` st'
  /\ valueToIndex v st' = inr (k, st').
Proof.
  intros E. split; [|split; [|split]].
  - destruct (valueToIndex_spec v st) as (k' & st'' & E' & Hk & _).
    rewrite E in E'. injection E' as <- <-. exact Hk.
  - destruct (valueToIndex_cases v st) as [(k' & E' & Hk & Hmin)|[E' Hnot]];
      rewrite E in E'; injection E' as -> ->; [exact Hmin|].
    intros j Hj Hv. rewrite lookup_app_l in Hv by exact Hj.
    apply Hnot. eapply list_elem_of_lookup_2, Hv.
  - destruct (valueToIndex_spec v st) as (k' & st'' & E' & _ & Hst').
    rewrite E in E'. injection E' as <- <-.
    destruct Hst' as [->|(-> & _)]; [reflexivity|apply prefix_app_r; reflexivity].
  - eapply valueToIndex_extension; [exact E|reflexivity].
Qed.

Lemma valueToIndex_is_idempotent_witness :
  valueToIndex (VNumber "7") initial_values
  = inr (2, [VArg "z_re"; VArg "z_im"; VNumber "7"])
  /\ valueToIndex (VNumber "7") [VArg "z_re"; VArg "z_im"; VNumber "7"]
     = inr (2, [VArg "z_re"; VArg "z_im"; VNumber "7"]).
Proof.
  split; [reflexivity|].
  apply (valueToIndex_is_idempotent (VNumber "7") initial_values 2
           [VArg "z_re"; VArg "z_im"; VNumber "7"]).
  reflexivity.
Defined.

(** On operands in range a simplifier never throws, returns an index in
    range and appends at most one entry to the table. *)
Lemma fallback_step (A : arith) o a b va vb st :
  exists k st', fallback A o a b va vb st = inr (k, st')
    /\ st' !! k <> None
    /\ (st' = st \/ exists v, st' = (st ++ [v])%list).
Proof.
  assert (H : forall v, exists k st', valueToIndex v st = inr (k, st')
                /\ st' !! k <> None
                /\ (st' = st \/ exists v, st' = (st ++ [v])%list)).
  { intros v. destruct (valueToIndex_spec v st) as (k & st' & E & Hk & Hst').
    exists k, st'. split; [exact E|]. split; [congruence|].
    destruct Hst' as [->|(-> & _)]; eauto. }
  destruct va as [?|x|? ? ?], vb as [?|y|? ? ?]; simpl; apply H.
Qed.

Lemma simplifier_growth (A : arith) o a b st :
  a < List.length st -> b < List.length st ->
  exists k st', simplifier A o a b st = inr (k, st')
    /\ k < List.length st'
    /\ (st' = st \/ exists v, st' = (st ++ [v])%list).
Proof.
  intros Hla Hlb.
  destruct (lookup_lt_is_Some_2 st a Hla) as [ea Ha].
  destruct (lookup_lt_is_Some_2 st b Hlb) as [eb Hb].
  assert (Hfb : forall o', exists k st', fallback A o' a b ea eb st = inr (k, st')
                  /\ k < List.length st'
                  /\ (st' = st \/ exists v, st' = (st ++ [v])%list)).
  { intros o'. destruct (fallback_step A o' a b ea eb st) as (k & st' & E & Hk & H).
    exists k, st'. split; [exact E|]. split; [|exact H].
    apply lookup_lt_is_Some. destruct (st' !! k); [eauto|contradiction]. }
  assert (Hid : forall i, i < List.length st ->
                  exists k st', @inr exn _ (i, st) = inr (k, st')
                    /\ k < List.length st'
                    /\ (st' = st \/ exists v, st' = (st ++ [v])%list)).
  { intros i Hi. exists i, st. auto. }
  destruct o; simpl.
  - rewrite (add_cases A st a b ea eb Ha Hb).
    repeat case_bool_decide; auto.
  - rewrite (sub_cases A st a b ea eb Ha Hb).
    repeat case_bool_decide; auto.
  - rewrite (mul_cases A st a b ea eb Ha Hb).
    repeat case_bool_decide; auto.
  - rewrite (div_cases A st a b ea eb Ha Hb).
    repeat case_bool_decide; auto.
    destruct (valueToIndex_spec (VOp Divide a b) st) as (k & st' & E & Hk & Hst').
    exists k, st'. split; [exact E|]. split; [eapply lookup_lt_Some, Hk|].
    destruct Hst' as [->|(-> & _)]; eauto.
Qed.

(** X2. Each call of [add], [sub], [mul] or [div] on two indices of the table
    returns (it does not throw), returns an index of the table it leaves, and
    leaves the table as it was or with one entry appended. *)
Theorem simplifier_appends_at_most_one (A : arith) o a b st :
  a < List.length st -> b < List.length st ->
  exists k st', simplifier A o a b st = inr (k, st')
    /\ k < List.length st'
    /\ (st' = st \/ exists v, st' = (st ++ [v])%list).
Proof. apply simplifier_growth. Qed.

Lemma simplifier_appends_at_most_one_witness :
  2 < 4 /\ 3 < 4
  /\ exists k st',
       simplifier JSDouble.double Plus 2 3
         [VArg "z_re"; VArg "z_im"; VNumber "2"; VNumber "3"] = inr (k, st')
       /\ k < List.length st'
       /\ (st' = [VArg "z_re"; VArg "z_im"; VNumber "2"; VNumber "3"]
           \/ exists v,
                st' = ([VArg "z_re"; VArg "z_im"; VNumber "2"; VNumber "3"]
                       ++ [v])%list).
Proof.
  split; [lia|]. split; [lia|].
  apply (simplifier_appends_at_most_one JSDouble.double Plus 2 3
           [VArg "z_re"; VArg "z_im"; VNumber "2"; VNumber "3"]); simpl; lia.
Defined.

(** ** Lowering again *)

Lemma fallback_extension (A : arith) o a b ea eb st k st' st2 :
  fallback A o a b ea eb st = inr (k, st') -> st' `prefix_of` st2 ->
  fallback A o a b ea eb st2 = inr (k, st2).
Proof.
  destruct ea as [?|x|? ? ?], eb as [?|y|? ? ?]; simpl;
    apply valueToIndex_extension.
Qed.

Lemma simplifier_extension (A : arith) o a b st k st' st2 :
  a < List.length st -> b < List.length st ->
  simplifier A o a b st = inr (k, st') ->
  st `prefix_of` st' -> st' `prefix_of` st2 ->
  simplifier A o a b st2 = inr (k, st2).
Proof.
  intros Hla Hlb E Hpre Hpre2.
  destruct (lookup_lt_is_Some_2 st a Hla) as [ea Ha].
  destruct (lookup_lt_is_Some_2 st b Hlb) as [eb Hb].
  assert (Ha2 : st2 !! a = Some ea).
  { eapply prefix_lookup_Some; [|exact Hpre2]. eapply prefix_lookup_Some; eassumption. }
  assert (Hb2 : st2 !! b = Some eb).
  { eapply prefix_lookup_Some; [|exact Hpre2]. eapply prefix_lookup_Some; eassumption. }
  destruct o; simpl in *.
  - rewrite (add_cases A st a b ea eb Ha Hb) in E.
    rewrite (add_cases A st2 a b ea eb Ha2 Hb2).
    repeat case_bool_decide; try (injection E as <- <-; reflexivity).
    eapply fallback_extension; eassumption.
  - rewrite (sub_cases A st a b ea eb Ha Hb) in E.
    rewrite (sub_cases A st2 a b ea eb Ha2 Hb2).
    repeat case_bool_decide; try (injection E as <- <-; reflexivity).
    eapply fallback_extension; eassumption.
  - rewrite (mul_cases A st a b ea eb Ha Hb) in E.
    rewrite (mul_cases A st2 a b ea eb Ha2 Hb2).
    repeat case_bool_decide; try (injection E as <- <-; reflexivity).
    eapply fallback_extension; eassumption.
  - rewrite (div_cases A st a b ea eb Ha Hb) in E.
    rewrite (div_cases A st2 a b ea eb Ha2 Hb2).
    repeat case_bool_decide; try (injection E as <- <-; reflexivity).
    + eapply valueToIndex_extension; eassumption.
    + eapply fallback_extension; eassumption.
Qed.

(** A simplifier call with all that later steps need of it. *)
Lemma simplifier_full (A : arith) o a b st :
  inv st -> a < List.length st -> b < List.length st ->
  exists k st', simplifier A o a b st = inr (k, st')
    /\ inv st' /\ st `prefix_of` st' /\ k < List.length st'
    /\ List.length st' <= S (List.length st)
    /\ forall st2, st' `prefix_of` st2 -> simplifier A o a b st2 = inr (k, st2).
Proof.
  intros Hinv Hla Hlb.
  destruct (simplifier_spec A o a b st Hinv Hla Hlb) as (k & st' & E & Hinv' & Hpre & Hk & _).
  exists k, st'. split; [exact E|]. split; [exact Hinv'|]. split; [exact Hpre|].
  split; [exact Hk|]. split.
  - destruct (simplifier_growth A o a b st Hla Hlb) as (k' & st'' & E' & _ & Hst).
    rewrite E in E'. injection E' as <- <-.
    destruct Hst as [->|[v ->]]; [lia|]. rewrite length_app. simpl. lia.
  - intros st2 Hpre2. eapply simplifier_extension; eassumption.
Qed.

Section LowerAgain.
Context (A : arith).

Ltac chain :=
  first [ eassumption | reflexivity | etransitivity; [eassumption | chain] ].

(** One call of a simplifier in [combine], with its bound and its rerun. *)
Ltac full_step o a b st k st' :=
  let E := fresh "E" in
  let Hinv := fresh "Hinv" in
  let Hpre := fresh "Hpre" in
  let Hlt := fresh "Hlt" in
  let Hlen := fresh "Hlen" in
  let Hgrow := fresh "Hgrow" in
  let Hagain := fresh "Hagain" in
  destruct (simplifier_full A o a b st)
    as (k & st' & E & Hinv & Hpre & Hlt & Hgrow & Hagain);
  [assumption | lia | lia |];
  cbn [simplifier] in E; rewrite (bind_inr _ _ _ _ _ E); clear E;
  assert (Hlen := prefix_length _ _ Hpre).

Ltac finish_full :=
  split; [reflexivity|]; split; [assumption|];
  split; [chain|]; simpl; split; [lia|]; split; [lia|]; split; [lia|];
  let st2 := fresh "st2" in
  let Hp := fresh "Hp" in
  intros st2 Hp;
  repeat match goal with
         | H : forall st2, _ `prefix_of` st2 -> simplifier A _ _ _ st2 = inr _ |- _ =>
             let E := fresh "E" in
             assert (E := H st2 ltac:(chain)); cbn [simplifier] in E; clear H
         end;
  repeat (erewrite bind_inr by eassumption); reflexivity.

Lemma combine_full o a b st :
  inv st ->
  re a < List.length st -> im a < List.length st ->
  re b < List.length st -> im b < List.length st ->
  exists p st', combine A o a b st = inr (p, st') /\ inv st'
    /\ st `prefix_of` st'
    /\ re p < List.length st' /\ im p < List.length st'
    /\ List.length st' <= List.length st + 11
    /\ forall st2, st' `prefix_of` st2 -> combine A o a b st2 = inr (p, st2).
Proof.
  intros Hinv0 Hra Hia Hrb Hib. destruct o; unfold combine.
  - full_step Plus (re a) (re b) st r st1.
    full_step Plus (im a) (im b) st1 i st2.
    exists (Pair r i), st2. finish_full.
  - full_step Minus (re a) (re b) st r st1.
    full_step Minus (im a) (im b) st1 i st2.
    exists (Pair r i), st2. finish_full.
  - full_step Times (re a) (re b) st rr st1.
    full_step Times (im a) (im b) st1 ii st2.
    full_step Minus rr ii st2 r st3.
    full_step Times (re a) (im b) st3 ri st4.
    full_step Times (im a) (re b) st4 ir st5.
    full_step Plus ri ir st5 i st6.
    exists (Pair r i), st6. finish_full.
  - full_step Times (re b) (re b) st t1 st1.
    full_step Times (im b) (im b) st1 t2 st2.
    full_step Plus t1 t2 st2 t st3.
    full_step Times (re a) (re b) st3 rr st4.
    full_step Times (im a) (im b) st4 ii st5.
    full_step Plus rr ii st5 n1 st6.
    full_step Divide n1 t st6 r st7.
    full_step Times (im a) (re b) st7 ir st8.
    full_step Times (re a) (im b) st8 ri st9.
    full_step Minus ir ri st9 n2 st10.
    full_step Divide n2 t st10 i st11.
    exists (Pair r i), st11. finish_full.
Qed.

Lemma constants_full s1 s2 st :
  exists r i st', (r ← num s1; i ← num s2; mret (Pair r i)) st = inr (Pair r i, st')
    /\ List.length st' <= List.length st + 2
    /\ forall st2, st' `prefix_of` st2 ->
         (r ← num s1; i ← num s2; mret (Pair r i)) st2 = inr (Pair r i, st2).
Proof.
  destruct (valueToIndex_spec (VNumber s1) st) as (r & st1 & E1 & _ & H1).
  destruct (valueToIndex_spec (VNumber s2) st1) as (i & st2 & E2 & _ & H2).
  exists r, i, st2. unfold num.
  rewrite (bind_inr _ _ _ _ _ E1), (bind_inr _ _ _ _ _ E2).
  split; [reflexivity|]. split.
  - destruct H1 as [->|(-> & _)], H2 as [->|(-> & _)];
      rewrite ?length_app; simpl; lia.
  - intros st3 Hpre.
    assert (Hpre12 : st1 `prefix_of` st2).
    { destruct H2 as [->|(-> & _)]; [reflexivity|apply prefix_app_r; reflexivity]. }
    rewrite (bind_inr _ _ _ _ _ (valueToIndex_extension _ _ _ _ st3 E1
                                   ltac:(etransitivity; eassumption))).
    rewrite (bind_inr _ _ _ _ _ (valueToIndex_extension _ _ _ _ st3 E2 Hpre)).
    reflexivity.
Qed.

Lemma lower_full obj st p st' :
  inv st -> lower A obj st = inr (p, st') ->
  List.length st' <= List.length st + 11 * nodes obj
  /\ forall st2, st' `prefix_of` st2 -> lower A obj st2 = inr (p, st2).
Proof.
  revert st p st'. induction obj as [value|id|o lhs IHl rhs IHr]; intros st p st' Hinv E.
  - destruct (constants_full value "0" st) as (r & i & st1 & E1 & Hlen & Hagain).
    simpl lower in *. rewrite E1 in E. injection E as <- <-.
    split; [simpl; lia|exact Hagain].
  - simpl lower in *. destruct (String.eqb_spec id "i") as [->|Hi].
    + destruct (constants_full "0" "1" st) as (r & i & st1 & E1 & Hlen & Hagain).
      rewrite E1 in E. injection E as <- <-.
      split; [simpl; lia|exact Hagain].
    + destruct (String.eqb_spec id "z") as [->|Hz]; simpl in E; [|discriminate].
      injection E as <- <-. split; [simpl; lia|]. intros st2 _. reflexivity.
  - rewrite lower_BinOp in E.
    apply bind_inr_inv in E as (pa & s1 & El & E).
    apply bind_inr_inv in E as (pb & s2 & Er & E).
    pose proof (lower_spec A lhs st Hinv) as Hl. rewrite El in Hl.
    destruct Hl as (_ & Hinv1 & Hpre1 & Hra & Hia & _).
    pose proof (lower_spec A rhs s1 Hinv1) as Hr. rewrite Er in Hr.
    destruct Hr as (_ & Hinv2 & Hpre2 & Hrb & Hib & _).
    assert (Hlen2 := prefix_length _ _ Hpre2).
    destruct (combine_full o pa pb s2 Hinv2)
      as (p' & s3 & Ec & Hinv3 & Hpre3 & _ & _ & Hgrow & Hagain); [lia..|].
    rewrite E in Ec. injection Ec as <- <-.
    destruct (IHl st pa s1 Hinv El) as [Hgl Hal].
    destruct (IHr s1 pb s2 Hinv1 Er) as [Hgr Har].
    split; [simpl; lia|].
    intros st2 Hp. rewrite lower_BinOp.
    rewrite (bind_inr _ _ _ _ _ (Hal st2 ltac:(chain))).
    rewrite (bind_inr _ _ _ _ _ (Har st2 ltac:(chain))).
    apply Hagain, Hp.
Qed.
End LowerAgain.

(** X3. Lowering only appends: on a table that satisfies the invariant (as
    the initial one does) [lower] never throws a [TypeError]; it returns
    exactly when every identifier of the formula is [z] or [i], and the table
    it leaves starts with the table it was given, satisfies the invariant
    again and holds both result indices. *)
Theorem lower_only_appends (A : arith) obj st :
  inv st ->
  lower A obj st <> inl TypeError
  /\ (undefined_names obj = [] <-> exists r, lower A obj st = inr r)
  /\ forall p st', lower A obj st = inr (p, st') ->
       st `prefix_of` st' /\ inv st'
       /\ re p < List.length st' /\ im p < List.length st'.
Proof.
  intros Hinv. pose proof (lower_spec A obj st Hinv) as H.
  destruct (lower A obj st) as [e|[p st']].
  - destruct H as (x & rest & Hn & ->). split; [discriminate|]. split.
    + split; [congruence|]. intros [r Hr]. discriminate.
    + intros ? ? [=].
  - destruct H as (Hn & Hinv' & Hpre & Hre & Him & _). split; [discriminate|]. split.
    + split; [eauto|auto].
    + intros p0 st0 [= <- <-]. auto.
Qed.

Lemma lower_only_appends_witness :
  inv initial_values
  /\ lower JSDouble.double (BinOp Plus (Name "z") (Num "1")) initial_values
     <> inl TypeError.
Proof.
  split; [exact inv_initial|].
  apply (lower_only_appends JSDouble.double (BinOp Plus (Name "z") (Num "1"))
           initial_values inv_initial).
Defined.

(** X4. Common subexpressions are eliminated: once a formula is lowered,
    lowering it again on the table this left, or on any table that extends it,
    returns the same pair of indices and appends nothing. *)
Theorem lower_again_adds_nothing (A : arith) obj st p st' st2 :
  inv st -> lower A obj st = inr (p, st') -> st' `prefix_of` st2 ->
  lower A obj st2 = inr (p, st2).
Proof.
  intros Hinv E Hpre. apply (proj2 (lower_full A obj st p st' Hinv E)), Hpre.
Qed.

Lemma lower_again_adds_nothing_witness :
  inv initial_values
  /\ lower JSDouble.double (BinOp Plus (Name "z") (Num "1")) initial_values
     = inr (Pair 4 1,
            [VArg "z_re"; VArg "z_im"; VNumber "1"; VNumber "0"; VOp Plus 0 2])
  /\ [VArg "z_re"; VArg "z_im"; VNumber "1"; VNumber "0"; VOp Plus 0 2]
     `prefix_of`
     [VArg "z_re"; VArg "z_im"; VNumber "1"; VNumber "0"; VOp Plus 0 2;
      VNumber "5"]
  /\ lower JSDouble.double (BinOp Plus (Name "z") (Num "1"))
       [VArg "z_re"; VArg "z_im"; VNumber "1"; VNumber "0"; VOp Plus 0 2;
        VNumber "5"]
     = inr (Pair 4 1,
            [VArg "z_re"; VArg "z_im"; VNumber "1"; VNumber "0"; VOp Plus 0 2;
             VNumber "5"]).
Proof.
  assert (Hpre : [VArg "z_re"; VArg "z_im"; VNumber "1"; VNumber "0"; VOp Plus 0 2]
                 `prefix_of`
                 [VArg "z_re"; VArg "z_im"; VNumber "1"; VNumber "0"; VOp Plus 0 2;
                  VNumber "5"]).
  { exists [VNumber "5"]. reflexivity. }
  split; [exact inv_initial|]. split; [reflexivity|]. split; [exact Hpre|].
  apply (lower_again_adds_nothing JSDouble.double (BinOp Plus (Name "z") (Num "1"))
           initial_values (Pair 4 1) _ _ inv_initial eq_refl Hpre).
Defined.

(** X5. The table grows linearly with the formula: lowering appends at most
    eleven entries for each node of the formula. *)
Theorem lower_growth_is_linear (A : arith) obj st p st' :
  inv st -> lower A obj st = inr (p, st') ->
  List.length st' <= List.length st + 11 * nodes obj.
Proof.
  intros Hinv E. apply (proj1 (lower_full A obj st p st' Hinv E)).
Qed.

Lemma lower_growth_is_linear_witness :
  inv initial_values
  /\ lower JSDouble.double (BinOp Plus (Name "z") (Num "1")) initial_values
     = inr (Pair 4 1,
            [VArg "z_re"; VArg "z_im"; VNumber "1"; VNumber "0"; VOp Plus 0 2])
  /\ 5 <= 2 + 11 * 3.
Proof.
  split; [exact inv_initial|]. split; [reflexivity|].
  apply (lower_growth_is_linear JSDouble.double (BinOp Plus (Name "z") (Num "1"))
           initial_values (Pair 4 1) _ inv_initial eq_refl).
Defined.

(** ** Use counts of any table *)

(** One round of the loop of [computeUseCounts], whatever the operands of
    [node]: below and at [i] the counts are numbers, and an operand above [i]
    only touches an entry that its own round will reset. *)
Lemma computeUseCounts_step_any i node (m : gmap nat count) (c : nat -> nat) :
  (forall k, k < i -> m !! k = Some (Count (c k))) ->
  forall k, k < S i ->
    computeUseCounts_body i node m !! k
    = Some (Count ((if decide (k < i) then c k else 0) + operand_count k node)).
Proof.
  intros Hm k Hk. unfold computeUseCounts_body.
  assert (Hbase : forall j, j < S i ->
            (<[i := Count 0]> m) !! j
            = Some (Count (if decide (j < i) then c j else 0))).
  { intros j Hj. rewrite lookup_insert. destruct (decide (i = j)) as [->|Hne].
    - destruct (decide (j < j)); [lia|reflexivity].
    - destruct (decide (j < i)); [|lia]. apply Hm. assumption. }
  destruct node as [s|s|o a b]; cbn zeta; cbn [operand_count];
    try (rewrite (Hbase k Hk), Nat.add_0_r; reflexivity).
  destruct (decide (b = k)) as [->|Hbk].
  - rewrite lookup_insert_eq.
    rewrite (bool_decide_eq_true_2 (k = k)) by reflexivity.
    destruct (decide (a = k)) as [->|Hak].
    + rewrite lookup_insert_eq, (Hbase k Hk).
      rewrite (bool_decide_eq_true_2 (k = k)) by reflexivity.
      cbn [increment]. do 2 f_equal. lia.
    + rewrite (lookup_insert_ne _ a k) by assumption. rewrite (Hbase k Hk).
      rewrite (bool_decide_eq_false_2 (a = k)) by assumption.
      cbn [increment]. do 2 f_equal. lia.
  - rewrite (lookup_insert_ne _ b k) by assumption.
    rewrite (bool_decide_eq_false_2 (b = k)) by assumption.
    destruct (decide (a = k)) as [->|Hak].
    + rewrite lookup_insert_eq, (Hbase k Hk).
      rewrite (bool_decide_eq_true_2 (k = k)) by reflexivity.
      cbn [increment]. do 2 f_equal. lia.
    + rewrite (lookup_insert_ne _ a k) by assumption. rewrite (Hbase k Hk).
      rewrite (bool_decide_eq_false_2 (a = k)) by assumption.
      rewrite Nat.add_0_r. reflexivity.
Qed.

Lemma computeUseCounts_loop_any rest :
  forall i (m : gmap nat count) (c : nat -> nat),
    (forall k, k < i -> m !! k = Some (Count (c k))) ->
    forall k, k < i + List.length rest ->
      computeUseCounts_loop i rest m !! k
      = Some (Count ((if decide (k < i) then c k else 0)
                     + operand_uses (drop (k - i) rest) k)).
Proof.
  induction rest as [|node rest IH]; intros i m c Hm k Hk.
  - simpl in *. destruct (decide (k < i)); [|lia].
    rewrite drop_nil. simpl. rewrite Nat.add_0_r. apply Hm. assumption.
  - cbn [computeUseCounts_loop].
    rewrite (IH (S i) _
               (fun k => (if decide (k < i) then c k else 0) + operand_count k node)).
    + destruct (decide (k < S i)) as [Hlt|Hge].
      * replace (k - S i) with 0 by lia. replace (k - i) with 0 by lia.
        rewrite !drop_0. simpl. do 2 f_equal. lia.
      * destruct (decide (k < i)); [lia|].
        replace (k - i) with (S (k - S i)) by lia. reflexivity.
    + intros k' Hk'. apply (computeUseCounts_step_any i node m c Hm k' Hk').
    + simpl in Hk. lia.
Qed.

(** X6. For any table, in topological order or not, the use count of an
    index of the table is a number (never [NaN]): the number of times the
    index is an operand of the entries from its own position on.  A reference
    from an earlier entry, a forward reference, is not counted. *)
Theorem use_count_counts_from_own_index (values : list value) (i : nat) :
  i < List.length values ->
  computeUseCounts values !! i
  = Some (Count (operand_uses (drop i values) i)).
Proof.
  intros Hi. unfold computeUseCounts.
  rewrite (computeUseCounts_loop_any values 0 ∅ (fun _ => 0)).
  - destruct (decide (i < 0)); [lia|]. rewrite Nat.sub_0_r. reflexivity.
  - intros k Hk. lia.
  - simpl. exact Hi.
Qed.

Lemma use_count_counts_from_own_index_witness :
  1 < 3
  /\ computeUseCounts [VOp Plus 1 1; VArg "z_re"; VOp Times 1 0] !! 1
     = Some (Count 1).
Proof.
  split; [lia|].
  etransitivity.
  - apply (use_count_counts_from_own_index
             [VOp Plus 1 1; VArg "z_re"; VOp Times 1 0] 1). simpl. lia.
  - reflexivity.
Defined.

(** ** The temporaries of the emitter *)

Lemma temps_before_mono useCounts n m :
  n <= m -> temps_before useCounts n <= temps_before useCounts m.
Proof.
  intros Hnm. induction Hnm as [|m Hnm IH]; [lia|].
  cbn [temps_before]. lia.
Qed.

Lemma ir_to_js_loop_spec useCounts rest :
  forall i st,
    let st' := ir_to_js_loop useCounts i rest st in
    next_temp_id st'
    = next_temp_id st
      + (temps_before useCounts (i + List.length rest) - temps_before useCounts i)
    /\ (forall k, k < i -> js st' !! k = js st !! k)
    /\ (forall k, i <= k -> k < i + List.length rest ->
          is_Some (js st' !! k)
          /\ (moreThanOnce (useCounts !! k) = true ->
              js st' !! k
              = Some ("t" +:+ pretty (next_temp_id st
                        + (temps_before useCounts k - temps_before useCounts i))))).
Proof.
  assert (Hmono := temps_before_mono useCounts).
  induction rest as [|node rest IH]; intros i st; cbn zeta.
  - simpl. rewrite Nat.add_0_r, Nat.sub_diag, Nat.add_0_r.
    split; [reflexivity|]. split; [reflexivity|]. intros k H1 H2. lia.
  - cbn [ir_to_js_loop]. cbn zeta.
    set (text := match node with
                 | VArg s | VNumber s => s
                 | VOp o a b => _
                 end).
    set (st1 := if moreThanOnce (useCounts !! i) then _ else _).
    specialize (IH (S i) st1). cbn zeta in IH. destruct IH as (Hid & Hlow & Hhigh).
    assert (Hst1 : next_temp_id st1
                   = next_temp_id st + (temps_before useCounts (S i) - temps_before useCounts i)
                   /\ (forall k, k <> i -> js st1 !! k = js st !! k)
                   /\ is_Some (js st1 !! i)
                   /\ (moreThanOnce (useCounts !! i) = true ->
                       js st1 !! i = Some ("t" +:+ pretty (next_temp_id st)))).
    { unfold st1. simpl. destruct (moreThanOnce (useCounts !! i)); simpl.
      - split; [lia|]. split; [intros k Hk; apply lookup_insert_ne; auto|].
        rewrite lookup_insert_eq. split; [eauto|reflexivity].
      - split; [lia|]. split; [intros k Hk; apply lookup_insert_ne; auto|].
        rewrite lookup_insert_eq. split; [eauto|discriminate]. }
    destruct Hst1 as (Hid1 & Hother & Hsome & Hname).
    assert (Hm1 := Hmono i (S i) ltac:(lia)).
    assert (Hm2 := Hmono (S i) (S i + List.length rest) ltac:(lia)).
    split; [|split].
    + rewrite Hid, Hid1. simpl List.length.
      replace (i + S (List.length rest)) with (S i + List.length rest) by lia. lia.
    + intros k Hk. rewrite Hlow by lia. apply Hother. lia.
    + intros k Hik Hk. simpl in Hk. destruct (decide (k = i)) as [->|Hne].
      * rewrite Hlow by lia. split; [exact Hsome|]. intros Hn.
        rewrite (Hname Hn), Nat.sub_diag, Nat.add_0_r. reflexivity.
      * destruct (Hhigh k) as [Hs Hn]; [lia..|]. split; [exact Hs|].
        intros Hmore. rewrite (Hn Hmore), Hid1. do 3 f_equal.
        assert (Hm3 := Hmono (S i) k ltac:(lia)). lia.
Qed.

(** X7. When the loop of [ir_to_js] ends, every index of the table has a text
    in [js], for every table.  The temporaries are numbered in index order
    without gaps: an entry with a use count above one is named [t] followed by
    the number of earlier entries with a use count above one, whatever its
    type; so no two entries share a temporary. *)
Theorem temporaries_are_numbered_in_order (values : list value) :
  (forall k, k < List.length values -> is_Some (js (ir_to_js_state values) !! k))
  /\ (forall i,
        i < List.length values ->
        moreThanOnce (computeUseCounts values !! i) = true ->
        js (ir_to_js_state values) !! i
        = Some ("t" +:+ pretty (temps_before (computeUseCounts values) i)))
  /\ (forall i j,
        i < List.length values -> j < List.length values ->
        moreThanOnce (computeUseCounts values !! i) = true ->
        moreThanOnce (computeUseCounts values !! j) = true ->
        i <> j ->
        js (ir_to_js_state values) !! i <> js (ir_to_js_state values) !! j).
Proof.
  unfold ir_to_js_state.
  destruct (ir_to_js_loop_spec (computeUseCounts values) values 0
              {| code := ""; next_temp_id := 0; js := ∅ |}) as (_ & _ & H).
  cbn zeta in H. simpl in H.
  assert (Hname : forall k, k < List.length values ->
            moreThanOnce (computeUseCounts values !! k) = true ->
            js (ir_to_js_loop (computeUseCounts values) 0 values
                  {| code := ""; next_temp_id := 0; js := ∅ |}) !! k
            = Some ("t" +:+ pretty (temps_before (computeUseCounts values) k))).
  { intros k Hk Hm. destruct (H k) as [_ Hn]; [lia..|].
    rewrite (Hn Hm), Nat.sub_0_r. reflexivity. }
  assert (Hlt : forall i j,
            moreThanOnce (computeUseCounts values !! i) = true -> i < j ->
            temps_before (computeUseCounts values) i
            < temps_before (computeUseCounts values) j).
  { intros i j Hm Hij.
    assert (Hmono := temps_before_mono (computeUseCounts values) (S i) j Hij).
    cbn [temps_before] in Hmono. rewrite Hm in Hmono. lia. }
  split; [|split].
  - intros k Hk. destruct (H k) as [Hs _]; [lia..|]. exact Hs.
  - exact Hname.
  - intros i j Hi Hj Hmi Hmj Hij. rewrite (Hname i Hi Hmi), (Hname j Hj Hmj).
    intros [= Heq]. apply pretty_nat_inj in Heq.
    destruct (Nat.lt_trichotomy i j) as [Hl|[He|Hg]]; [|contradiction|].
    + specialize (Hlt i j Hmi Hl). lia.
    + specialize (Hlt j i Hmj Hg). lia.
Qed.

(** * Further properties of the parser *)

Lemma span_spec p s :
  s = fst (span p s) +:+ snd (span p s)
  /\ all_chars p (fst (span p s)) = true
  /\ match snd (span p s) with
     | EmptyString => True
     | String c _ => p c = false
     end.
Proof.
  induction s as [|c s IH]; simpl; [auto|].
  destruct (p c) eqn:E.
  - destruct (span p s) as [w r]. simpl in *.
    destruct IH as (-> & Hw & Hr). rewrite E. auto.
  - simpl. rewrite E. auto.
Qed.

Lemma letter_not_space c : isLetter c = true -> isSpace c = false.
Proof. destruct c as [[] [] [] [] [] [] [] []]; vm_compute; congruence. Qed.

Lemma digit_not_space c : isDigit c = true -> isSpace c = false.
Proof. destruct c as [[] [] [] [] [] [] [] []]; vm_compute; congruence. Qed.

Lemma letter_not_digit c : isLetter c = true -> isDigit c = false.
Proof. destruct c as [[] [] [] [] [] [] [] []]; vm_compute; congruence. Qed.

Lemma strip_spaces_app s t :
  strip_spaces (s +:+ t) = strip_spaces s +:+ strip_spaces t.
Proof.
  induction s as [|c s IH]; simpl; [reflexivity|].
  destruct (isSpace c); simpl; rewrite IH; reflexivity.
Qed.

Lemma strip_spaces_all_space s : all_chars isSpace s = true -> strip_spaces s = "".
Proof.
  induction s as [|c s IH]; simpl; [reflexivity|].
  intros H. apply andb_true_iff in H as [Hc Hs]. rewrite Hc. auto.
Qed.

Lemma strip_spaces_none p s :
  (forall c, p c = true -> isSpace c = false) ->
  all_chars p s = true -> strip_spaces s = s.
Proof.
  intros Hp. induction s as [|c s IH]; simpl; [reflexivity|].
  intros H. apply andb_true_iff in H as [Hc Hs].
  rewrite (Hp c Hc), (IH Hs). reflexivity.
Qed.

Lemma all_chars_weaken (p q : ascii -> bool) s :
  (forall c, p c = true -> q c = true) ->
  all_chars p s = true -> all_chars q s = true.
Proof.
  intros Hpq. induction s as [|c s IH]; simpl; [reflexivity|].
  intros H. apply andb_true_iff in H as [Hc Hs].
  rewrite (Hpq c Hc), (IH Hs). reflexivity.
Qed.

Lemma length_append s t :
  String.length (s +:+ t) = String.length s + String.length t.
Proof. induction s as [|c s IH]; simpl; [reflexivity|]. rewrite IH. reflexivity. Qed.

Lemma span_word p c rest :
  p c = true ->
  exists w r,
    span p (String c rest) = (String c w, r)
    /\ rest = w +:+ r
    /\ all_chars p (String c w) = true
    /\ String.length r <= String.length rest.
Proof.
  intros Hc. destruct (span_spec p rest) as (Hrest & Hall & _).
  assert (Hl := span_length p rest).
  simpl. rewrite Hc. destruct (span p rest) as [w r]. simpl in *.
  exists w, r. auto.
Qed.

Lemma tokenize_loop_spec n :
  forall code, String.length code <= n ->
    join (tokenize_loop n code) = strip_spaces code
    /\ Forall token_shape (tokenize_loop n code).
Proof.
  induction n as [|n IH]; intros code Hlen.
  - destruct code; [|simpl in Hlen; lia]. simpl. auto.
  - cbn [tokenize_loop].
    destruct (span_spec isSpace code) as (Hcode & Hsp & Hnext).
    assert (Hstrip : strip_spaces code = strip_spaces (snd (span isSpace code))).
    { rewrite Hcode at 1. rewrite strip_spaces_app.
      rewrite (strip_spaces_all_space _ Hsp). reflexivity. }
    assert (Hl := span_length isSpace code).
    destruct (snd (span isSpace code)) as [|c rest]; [simpl; auto|].
    rewrite Hstrip. simpl in Hl.
    destruct (isLetter c) eqn:El; [|destruct (isDigit c) eqn:Ed].
    + destruct (span_word isLetter c rest El) as (w & r & -> & -> & Hall & Hr).
      destruct (IH r ltac:(lia)) as [Hj Hf]. split.
      * cbn [join]. rewrite Hj.
        change (String c (w +:+ r)) with (String c w +:+ r).
        rewrite strip_spaces_app.
        rewrite (strip_spaces_none isLetter _ letter_not_space Hall). reflexivity.
      * constructor; [|exact Hf]. split; [reflexivity|]. auto.
    + destruct (span_word isDigit c rest Ed) as (w & r & -> & -> & Hall & Hr).
      destruct (IH r ltac:(lia)) as [Hj Hf]. split.
      * cbn [join]. rewrite Hj.
        change (String c (w +:+ r)) with (String c w +:+ r).
        rewrite strip_spaces_app.
        rewrite (strip_spaces_none isDigit _ digit_not_space Hall). reflexivity.
      * constructor; [|exact Hf]. split; [reflexivity|]. auto.
    + destruct (IH rest ltac:(lia)) as [Hj Hf]. split.
      * simpl. rewrite Hnext, Hj. reflexivity.
      * constructor; [|exact Hf]. split; [reflexivity|].
        right. right. split; [reflexivity|]. simpl. unfold notSpace.
        rewrite Hnext. reflexivity.
Qed.

(** X8. The tokenizer loses white space and nothing else: the tokens written
    one after the other are the text without its white space, and every token
    is a non-empty run of letters, a non-empty run of digits, or one other
    character that is not white space. *)
Theorem tokenize_keeps_all_but_spaces (code : string) :
  join (tokenize code) = strip_spaces code
  /\ Forall token_shape (tokenize code).
Proof. apply tokenize_loop_spec. reflexivity. Qed.

(** ** The leaves of a parsed formula *)

Lemma binop_loop_wf level operand :
  gives_wf operand ->
  forall n expr tokens e rest,
    wf_ast expr ->
    binop_loop level operand n expr tokens = Some (inr (e, rest)) -> wf_ast e.
Proof.
  intros Hop. induction n as [|n IH]; intros expr tokens e rest Hexpr H.
  - discriminate.
  - simpl in H. destruct tokens as [|t ts]; [congruence|].
    destruct (binop_of_token t) as [o|]; [|congruence].
    destruct (level o); [|congruence].
    destruct (operand ts) as [[x|[rhs rest']]|] eqn:E; try discriminate.
    apply (IH (BinOp o expr rhs) _ _ _ (conj Hexpr (Hop _ _ _ E)) H).
Qed.

Lemma parsePrimaryExpr_wf pe : gives_wf pe -> gives_wf (parsePrimaryExpr pe).
Proof.
  intros Hpe tokens e rest H. unfold parsePrimaryExpr in H.
  destruct (isNumberToken (head tokens)) eqn:En.
  { destruct (head tokens) as [t|]; [|discriminate]. simpl in *.
    apply andb_true_iff in En. injection H as <- _. exact En. }
  destruct (isNameToken (head tokens)) eqn:Ei.
  { destruct (head tokens) as [t|]; [|discriminate]. simpl in *.
    apply andb_true_iff in Ei. injection H as <- _. exact Ei. }
  case_bool_decide; [|discriminate].
  destruct (pe (tail tokens)) as [[x|[expr r]]|] eqn:E; try discriminate.
  case_bool_decide; [|discriminate].
  injection H as <- _. exact (Hpe _ _ _ E).
Qed.

Lemma parseMulExpr_wf pe n : gives_wf pe -> gives_wf (parseMulExpr pe n).
Proof.
  intros Hpe tokens e rest H. unfold parseMulExpr in H.
  destruct (parsePrimaryExpr pe tokens) as [[x|[expr r]]|] eqn:E; try discriminate.
  eapply binop_loop_wf; [apply parsePrimaryExpr_wf, Hpe| |exact H].
  exact (parsePrimaryExpr_wf pe Hpe _ _ _ E).
Qed.

Lemma parseExpr_wf n : gives_wf (parseExpr n).
Proof.
  induction n as [|n IH]; intros tokens e rest H; [discriminate|].
  simpl in H.
  destruct (parseMulExpr (parseExpr n) n tokens) as [[x|[expr r]]|] eqn:E;
    try discriminate.
  eapply binop_loop_wf; [apply parseMulExpr_wf, IH| |exact H].
  exact (parseMulExpr_wf _ _ IH _ _ _ E).
Qed.

(** X9. Whatever text is parsed, the numbers of the resulting AST are
    non-empty runs of decimal digits and its names non-empty runs of ASCII
    letters. *)
Theorem parsed_leaves_are_digits_or_letters (code : string) (obj : ast) :
  parse code = Some (inr obj) -> wf_ast obj.
Proof.
  unfold parse. intros H.
  destruct (parseExpr (S (List.length (tokenize code))) (tokenize code))
    as [[x|[e [|t r]]]|] eqn:E; try discriminate.
  injection H as <-. exact (parseExpr_wf _ _ _ _ E).
Qed.

Lemma parsed_leaves_are_digits_or_letters_witness :
  parse "2 * (x + 10)"
    = Some (inr (BinOp Times (Num "2") (BinOp Plus (Name "x") (Num "10"))))
  /\ wf_ast (BinOp Times (Num "2") (BinOp Plus (Name "x") (Num "10"))).
Proof.
  split; [reflexivity|].
  apply (parsed_leaves_are_digits_or_letters "2 * (x + 10)"). reflexivity.
Defined.

(** ** Parsing the text of [emit] *)

Lemma tokenize_unfold code :
  tokenize code =
  match snd (span isSpace code) with
  | EmptyString => []
  | String c rest as s =>
      if isLetter c then
        let '(w, r) := span isLetter s in w :: tokenize r
      else if isDigit c then
        let '(w, r) := span isDigit s in w :: tokenize r
      else String c EmptyString :: tokenize rest
  end.
Proof.
  unfold tokenize. destruct code as [|c0 code0]; [reflexivity|].
  set (code := String c0 code0).
  change (String.length code) with (S (String.length code0)).
  cbn [tokenize_loop].
  assert (Hl := span_length isSpace code).
  destruct (snd (span isSpace code)) as [|c rest]; [reflexivity|].
  change (String.length code) with (S (String.length code0)) in Hl.
  simpl in Hl.
  destruct (isLetter c) eqn:El; [|destruct (isDigit c) eqn:Ed].
  - destruct (span_word isLetter c rest El) as (w & r & -> & _ & _ & Hr).
    f_equal. apply tokenize_loop_enough; lia.
  - destruct (span_word isDigit c rest Ed) as (w & r & -> & _ & _ & Hr).
    f_equal. apply tokenize_loop_enough; lia.
  - f_equal. apply tokenize_loop_enough; lia.
Qed.

Lemma tokenize_space c s :
  isSpace c = true -> tokenize (String c s) = tokenize s.
Proof.
  intros Hc. rewrite (tokenize_unfold (String c s)), (tokenize_unfold s).
  simpl. rewrite Hc. destruct (span isSpace s) as [w r]. reflexivity.
Qed.

Lemma tokenize_symbol c s :
  isSpace c = false -> isLetter c = false -> isDigit c = false ->
  tokenize (String c s) = String c "" :: tokenize s.
Proof.
  intros Hs Hl Hd. rewrite (tokenize_unfold (String c s)).
  simpl. rewrite Hs. simpl. rewrite Hl, Hd. reflexivity.
Qed.

Lemma span_app p w rest :
  all_chars p w = true ->
  match rest with EmptyString => True | String c _ => p c = false end ->
  span p (w +:+ rest) = (w, rest).
Proof.
  intros Hw Hrest. induction w as [|c w IH]; simpl in *.
  - destruct rest as [|c r]; [reflexivity|]. simpl. rewrite Hrest. reflexivity.
  - apply andb_true_iff in Hw as [Hc Hw]. rewrite Hc, (IH Hw). reflexivity.
Qed.

Lemma span_none p c s : p c = false -> span p (String c s) = ("", String c s).
Proof. intros H. simpl. rewrite H. reflexivity. Qed.

Lemma tokenize_name w rest :
  nonempty w = true -> all_chars isLetter w = true -> separated rest ->
  tokenize (w +:+ rest) = w :: tokenize rest.
Proof.
  intros Hne Hw Hrest. rewrite tokenize_unfold.
  assert (Hsp : span isLetter (w +:+ rest) = (w, rest)).
  { apply span_app; [exact Hw|]. destruct rest; [exact I|apply Hrest]. }
  destruct w as [|c w]; [discriminate|].
  simpl in Hw. apply andb_true_iff in Hw as [Hc _].
  change (String c w +:+ rest) with (String c (w +:+ rest)) in *.
  rewrite (span_none isSpace) by (apply letter_not_space, Hc). cbn [snd].
  rewrite Hc, Hsp. reflexivity.
Qed.

Lemma tokenize_number w rest :
  nonempty w = true -> all_chars isDigit w = true -> separated rest ->
  tokenize (w +:+ rest) = w :: tokenize rest.
Proof.
  intros Hne Hw Hrest. rewrite tokenize_unfold.
  assert (Hsp : span isDigit (w +:+ rest) = (w, rest)).
  { apply span_app; [exact Hw|]. destruct rest; [exact I|apply Hrest]. }
  destruct w as [|c w]; [discriminate|].
  simpl in Hw. apply andb_true_iff in Hw as [Hc _].
  change (String c w +:+ rest) with (String c (w +:+ rest)) in *.
  rewrite (span_none isSpace) by (apply digit_not_space, Hc). cbn [snd].
  assert (Hl : isLetter c = false).
  { destruct (isLetter c) eqn:E; [|reflexivity].
    rewrite (letter_not_digit c E) in Hc. discriminate. }
  rewrite Hl, Hc, Hsp. reflexivity.
Qed.

Lemma append_assoc (s t u : string) : (s +:+ t) +:+ u = s +:+ (t +:+ u).
Proof.
  induction s as [|c s IH]; [reflexivity|].
  change (String c ((s +:+ t) +:+ u) = String c (s +:+ (t +:+ u))).
  f_equal. exact IH.
Qed.

Lemma append_empty (s : string) : s +:+ "" = s.
Proof.
  induction s as [|c s IH]; [reflexivity|].
  change (String c (s +:+ "") = String c s). f_equal. exact IH.
Qed.

Lemma emit_Name id text : emit (Name id) = inr text -> id = "x" /\ text = "x".
Proof.
  simpl. destruct (String.eqb_spec id "x") as [->|]; simpl; [|discriminate].
  intros [= <-]. auto.
Qed.

Lemma emit_BinOp o lhs rhs text :
  emit (BinOp o lhs rhs) = inr text ->
  exists a b,
    emit lhs = inr a /\ emit rhs = inr b
    /\ text = "(" +:+ a +:+ " " +:+ binop_text o +:+ " " +:+ b +:+ ")".
Proof.
  simpl. destruct (emit lhs) as [|a]; [discriminate|].
  destruct (emit rhs) as [|b]; [discriminate|].
  intros [= <-]. eauto.
Qed.

Lemma emit_tokens obj :
  wf_ast obj ->
  forall text rest,
    emit obj = inr text -> separated rest ->
    tokenize (text +:+ rest) = (tokens_of obj ++ tokenize rest)%list.
Proof.
  induction obj as [value|id|o lhs IHl rhs IHr]; intros Hwf text rest He Hrest.
  - injection He as <-. destruct Hwf. apply tokenize_number; assumption.
  - apply emit_Name in He as [-> ->]. apply tokenize_name; auto.
  - destruct Hwf as [Hl Hr].
    apply emit_BinOp in He as (a & b & Ha & Hb & ->).
    rewrite !append_assoc.
    change ("(" +:+ ?s) with (String "(" s).
    rewrite tokenize_symbol by reflexivity.
    rewrite (IHl Hl a _ Ha) by (split; reflexivity).
    change (" " +:+ ?s) with (String " " s).
    rewrite tokenize_space by reflexivity.
    assert (Hop : forall s,
      tokenize (binop_text o +:+ s) = binop_text o :: tokenize s).
    { intros s. destruct o; apply tokenize_symbol; reflexivity. }
    rewrite Hop.
    change (" " +:+ ?s) with (String " " s).
    rewrite tokenize_space by reflexivity.
    rewrite (IHr Hr b _ Hb) by (split; reflexivity).
    change (")" +:+ rest) with (String ")" rest).
    rewrite tokenize_symbol by reflexivity.
    cbn [tokens_of]. simpl. f_equal. rewrite <- !app_assoc. simpl.
    f_equal. f_equal. rewrite <- app_assoc. reflexivity.
Qed.

Lemma binop_loop_stops level operand n expr tokens :
  head tokens = None \/ head tokens = Some ")" ->
  binop_loop level operand (S n) expr tokens = Some (inr (expr, tokens)).
Proof.
  intros [H|H]; destruct tokens as [|t ts]; try discriminate; try reflexivity.
  injection H as ->. reflexivity.
Qed.

Lemma tokens_of_length obj : 1 <= List.length (tokens_of obj).
Proof. destruct obj; simpl; lia. Qed.

Lemma binop_of_token_text o : binop_of_token (binop_text o) = Some o.
Proof. destruct o; reflexivity. Qed.

Lemma parseExpr_S n tokens :
  parseExpr (S n) tokens =
  match parseMulExpr (parseExpr n) n tokens with
  | Some (inr (expr, rest)) =>
      binop_loop isAddOp (parseMulExpr (parseExpr n) n) n expr rest
  | other => other
  end.
Proof. reflexivity. Qed.

Lemma binop_loop_step level operand n expr o rest rhs rest' :
  level o = true -> operand rest = Some (inr (rhs, rest')) ->
  binop_loop level operand (S n) expr (binop_text o :: rest)
  = binop_loop level operand n (BinOp o expr rhs) rest'.
Proof. intros Hl Ho. simpl. rewrite binop_of_token_text, Hl, Ho. reflexivity. Qed.

Lemma binop_loop_other level operand n expr o rest :
  level o = false ->
  binop_loop level operand (S n) expr (binop_text o :: rest)
  = Some (inr (expr, binop_text o :: rest)).
Proof. intros Hl. simpl. rewrite binop_of_token_text, Hl. reflexivity. Qed.

Lemma parsePrimaryExpr_paren pe expr tokens rest :
  pe tokens = Some (inr (expr, ")" :: rest)) ->
  parsePrimaryExpr pe ("(" :: tokens) = Some (inr (expr, rest)).
Proof. intros H. unfold parsePrimaryExpr. simpl. rewrite H. reflexivity. Qed.

Lemma parsePrimaryExpr_tokens_of obj :
  wf_ast obj ->
  forall n rest,
    List.length (tokens_of obj) + List.length rest <= n ->
    parsePrimaryExpr (parseExpr n) (tokens_of obj ++ rest)%list
    = Some (inr (obj, rest)).
Proof.
  induction obj as [value|id|o lhs IHl rhs IHr]; intros Hwf n rest Hn.
  - destruct Hwf as [Hne Hd]. unfold parsePrimaryExpr. simpl.
    rewrite Hne, Hd. reflexivity.
  - destruct Hwf as [Hne Hd]. unfold parsePrimaryExpr. simpl.
    rewrite Hne, Hd. simpl.
    destruct id as [|c id]; [discriminate|]. simpl in *.
    apply andb_true_iff in Hd as [Hc _].
    rewrite (letter_not_digit c Hc). reflexivity.
  - destruct Hwf as [Hl Hr].
    assert (L1 := tokens_of_length lhs). assert (L2 := tokens_of_length rhs).
    assert (Htokens :
      (tokens_of (BinOp o lhs rhs) ++ rest
       = "(" :: tokens_of lhs ++ binop_text o :: tokens_of rhs ++ ")" :: rest)%list).
    { cbn [tokens_of]. rewrite <- app_comm_cons. f_equal.
      rewrite <- app_assoc, <- app_comm_cons. f_equal. f_equal.
      rewrite <- app_assoc. reflexivity. }
    rewrite Htokens.
    assert (Hlen : List.length (tokens_of lhs) + List.length (tokens_of rhs)
                   + List.length rest + 3 <= n).
    { cbn [tokens_of List.length] in Hn. rewrite length_app in Hn.
      cbn [List.length] in Hn. rewrite length_app in Hn.
      cbn [List.length] in Hn. lia. }
    clear Hn Htokens.
    destruct n as [|[|[|n]]]; [lia|lia|lia|].
    apply parsePrimaryExpr_paren.
    assert (Hright :
      parsePrimaryExpr (parseExpr (S (S n))) (tokens_of rhs ++ ")" :: rest)%list
      = Some (inr (rhs, ")" :: rest))).
    { apply IHr; [exact Hr|]. cbn [List.length]. lia. }
    assert (Hleft :
      parsePrimaryExpr (parseExpr (S (S n)))
        (tokens_of lhs ++ binop_text o :: tokens_of rhs ++ ")" :: rest)%list
      = Some (inr (lhs, (binop_text o :: tokens_of rhs ++ ")" :: rest)%list))).
    { apply IHl; [exact Hl|]. cbn [List.length]. rewrite length_app.
      cbn [List.length]. lia. }
    rewrite parseExpr_S. unfold parseMulExpr at 1. rewrite Hleft.
    destruct (isMulOp o) eqn:Em.
    + rewrite (binop_loop_step _ _ _ _ _ _ _ _ Em Hright).
      rewrite binop_loop_stops by (right; reflexivity).
      apply binop_loop_stops. right. reflexivity.
    + assert (Ea : isAddOp o = true) by (destruct o; try reflexivity; discriminate).
      rewrite (binop_loop_other _ _ _ _ _ _ Em).
      assert (Hmul :
        parseMulExpr (parseExpr (S (S n))) (S (S n))
          (tokens_of rhs ++ ")" :: rest)%list
        = Some (inr (rhs, ")" :: rest))).
      { unfold parseMulExpr. rewrite Hright.
        apply binop_loop_stops. right. reflexivity. }
      rewrite (binop_loop_step _ _ _ _ _ _ _ _ Ea Hmul).
      apply binop_loop_stops. right. reflexivity.
Qed.

(** X10. The text of [emit] parses back to the AST it was made from: for an
    AST with the leaves the parser gives, whose names are all [x], [parse]
    applied to the emitted text returns that AST, and compiling the emitted
    text gives the same function body again. *)
Theorem emitted_text_parses_back (obj : ast) (text : string) :
  wf_ast obj -> emit obj = inr text ->
  parse text = Some (inr obj)
  /\ compileToJSFunction text = Some (inr ("return " +:+ text +:+ ";")).
Proof.
  intros Hwf He.
  assert (Hp : parse text = Some (inr obj)).
  { unfold parse.
    assert (Ht : tokenize text = tokens_of obj).
    { rewrite <- (append_empty text).
      rewrite (emit_tokens obj Hwf text "" He I). apply app_nil_r. }
    rewrite Ht. assert (L := tokens_of_length obj).
    assert (Hprim :
      parsePrimaryExpr (parseExpr (List.length (tokens_of obj))) (tokens_of obj)
      = Some (inr (obj, []))).
    { assert (H := parsePrimaryExpr_tokens_of obj Hwf
                     (List.length (tokens_of obj)) []).
      rewrite app_nil_r in H. apply H. simpl. lia. }
    rewrite parseExpr_S. unfold parseMulExpr. rewrite Hprim.
    destruct (List.length (tokens_of obj)) as [|n]; [lia|].
    rewrite binop_loop_stops by (left; reflexivity).
    rewrite binop_loop_stops by (left; reflexivity). reflexivity. }
  split; [exact Hp|]. unfold compileToJSFunction. rewrite Hp, He. reflexivity.
Qed.

Lemma emitted_text_parses_back_witness :
  (wf_ast (BinOp Minus (Num "1") (BinOp Minus (Name "x") (Num "2")))
   /\ emit (BinOp Minus (Num "1") (BinOp Minus (Name "x") (Num "2")))
      = inr "(1 - (x - 2))")
  /\ (parse "(1 - (x - 2))"
      = Some (inr (BinOp Minus (Num "1") (BinOp Minus (Name "x") (Num "2"))))
      /\ compileToJSFunction "(1 - (x - 2))"
         = Some (inr "return (1 - (x - 2));")).
Proof.
  split; [split; [repeat split|reflexivity]|].
  apply (emitted_text_parses_back
           (BinOp Minus (Num "1") (BinOp Minus (Name "x") (Num "2")))
           "(1 - (x - 2))"); [repeat split|reflexivity].
Defined.

(** ** What [compileToJSFunction] gives *)

Lemma all_chars_app p s t :
  all_chars p (s +:+ t) = all_chars p s && all_chars p t.
Proof.
  induction s as [|c s IH]; [reflexivity|].
  change (all_chars p (String c (s +:+ t)) = p c && all_chars p s && all_chars p t).
  cbn [all_chars]. rewrite IH. apply andb_assoc.
Qed.

Lemma emit_error obj e :
  emit obj = inl e -> e = SyntaxError "only the name 'x' is allowed".
Proof.
  induction obj as [value|id|o lhs IHl rhs IHr]; simpl.
  - discriminate.
  - destruct (negb (id =? "x")); congruence.
  - destruct (emit lhs) as [e1|a]; [intros [= <-]; auto|].
    destruct (emit rhs) as [e2|b]; [intros [= <-]; auto|discriminate].
Qed.

Lemma emit_names obj text :
  emit obj = inr text -> Forall (eq "x") (names obj).
Proof.
  revert text. induction obj as [value|id|o lhs IHl rhs IHr]; intros text He.
  - constructor.
  - apply emit_Name in He as [-> _]. repeat constructor.
  - apply emit_BinOp in He as (a & b & Ha & Hb & _).
    simpl. apply Forall_app. eauto.
Qed.

Lemma emit_plain obj :
  wf_ast obj -> Forall (eq "x") (names obj) ->
  exists text, emit obj = inr text /\ all_chars plain text = true.
Proof.
  induction obj as [value|id|o lhs IHl rhs IHr]; intros Hwf Hx.
  - exists value. split; [reflexivity|]. destruct Hwf as [_ Hd].
    apply (all_chars_weaken isDigit); [|exact Hd].
    intros c Hc. unfold plain. rewrite Hc. reflexivity.
  - simpl in Hx. apply Forall_cons in Hx as [<- _]. exists "x". auto.
  - destruct Hwf as [Hl Hr]. simpl in Hx. apply Forall_app in Hx as [Hxl Hxr].
    destruct (IHl Hl Hxl) as (a & Ha & Hpa). destruct (IHr Hr Hxr) as (b & Hb & Hpb).
    simpl. rewrite Ha, Hb. eexists. split; [reflexivity|].
    rewrite !all_chars_app, Hpa, Hpb. destruct o; reflexivity.
Qed.

(** X11. What [compileToJSFunction] does with a text that parses: when every
    name of the formula is [x] the body of the function is [return], the
    emitted expression and a semicolon, and the expression is written with
    digits, [x], the four operators, parentheses and spaces only; otherwise
    it throws the syntax error that only the name [x] is allowed. *)
Theorem compiled_body_is_plain_arithmetic (code : string) (obj : ast) :
  parse code = Some (inr obj) ->
  (Forall (eq "x") (names obj) ->
   exists text,
     compileToJSFunction code = Some (inr ("return " +:+ text +:+ ";"))
     /\ emit obj = inr text /\ all_chars plain text = true)
  /\ (~ Forall (eq "x") (names obj) ->
      compileToJSFunction code
      = Some (inl (SyntaxError "only the name 'x' is allowed"))).
Proof.
  intros Hp.
  assert (Hwf : wf_ast obj).
  { unfold parse in Hp.
    destruct (parseExpr (S (List.length (tokenize code))) (tokenize code))
      as [[x|[e [|t r]]]|] eqn:E; try discriminate.
    injection Hp as <-. exact (parseExpr_wf _ _ _ _ E). }
  unfold compileToJSFunction. rewrite Hp. split.
  - intros Hx. destruct (emit_plain obj Hwf Hx) as (text & He & Hplain).
    exists text. rewrite He. auto.
  - intros Hx. destruct (emit obj) as [e|text] eqn:He.
    + rewrite (emit_error obj e He). reflexivity.
    + destruct Hx. exact (emit_names obj text He).
Qed.

Lemma compiled_body_is_plain_arithmetic_witness :
  parse "x*x + 1 - y"
  = Some (inr (BinOp Minus
                 (BinOp Plus (BinOp Times (Name "x") (Name "x")) (Num "1"))
                 (Name "y")))
  /\ compileToJSFunction "x*x + 1 - y"
     = Some (inl (SyntaxError "only the name 'x' is allowed")).
Proof.
  split; [reflexivity|].
  apply (compiled_body_is_plain_arithmetic "x*x + 1 - y"
           (BinOp Minus
              (BinOp Plus (BinOp Times (Name "x") (Name "x")) (Num "1"))
              (Name "y"))); [reflexivity|].
  intros H. simpl in H. apply Forall_cons in H as [_ H].
  apply Forall_cons in H as [_ H]. apply Forall_cons in H as [H _]. discriminate.
Defined.

(** * The fraction calculator *)

(** ** The asserts of [evaluateAsFraction] *)

Example fraction_test1 : shown (evaluateAsFraction "1 / 3") = mret "1/3".
Proof. vm_compute. reflexivity. Qed.
Example fraction_test2 : shown (evaluateAsFraction "(2/3) * (3/2)") = mret "1".
Proof. vm_compute. reflexivity. Qed.
Example fraction_test3 : shown (evaluateAsFraction "1/7 + 4/7 + 2/7") = mret "1".
Proof. vm_compute. reflexivity. Qed.
Example fraction_test4 :
  shown (evaluateAsFraction "5996788328646786302319492 / 2288327879043508396784319")
  = mret "324298349324/123749732893".
Proof. vm_compute. reflexivity. Qed.
Example fraction_test5 : shown (evaluateAsFraction "1/0") = mret "1/0".
Proof. vm_compute. reflexivity. Qed.
Example fraction_test6 : shown (evaluateAsFraction "(0-1)/(0-2)") = mret "-1/-2".
Proof. vm_compute. reflexivity. Qed.
Example fraction_test7 : shown (evaluateAsFraction "0/0") = raise DivideByZero.
Proof. vm_compute. reflexivity. Qed.

Lemma outcome_bind_ret {A B} (m : outcome A) (k : A -> outcome B) a :
  m = mret a -> (m ≫= k) = k a.
Proof. intros ->. reflexivity. Qed.

Lemma outcome_bind_inv {A B} (m : outcome A) (k : A -> outcome B) b :
  (m ≫= k) = mret b -> exists a, m = mret a /\ k a = mret b.
Proof. destruct m as [[e|a]|]; try discriminate. eauto. Qed.

Section FractionFacts.
Local Open Scope Z_scope.

Lemma rem_halves (b r : Z) :
  r <> 0 -> Z.abs r < Z.abs b -> 2 * Z.abs (Z.rem b r) < Z.abs b.
Proof.
  intros Hr Hlt. rewrite <- (Z.rem_abs b r Hr).
  rewrite Z.rem_mod_nonneg by lia.
  assert (Hm := Z.mod_pos_bound (Z.abs b) (Z.abs r) ltac:(lia)).
  assert (Hd := Z.div_mod (Z.abs b) (Z.abs r) ltac:(lia)).
  assert (Hq : 1 <= Z.abs b / Z.abs r).
  { apply Z.div_le_lower_bound; lia. }
  nia.
Qed.

Lemma gcd_loop_spec (k : nat) :
  forall a b, Z.abs b < 2 ^ Z.of_nat k ->
    exists g, Fraction.gcd_loop (S (2 * k)) a b = mret g /\ Z.abs g = Z.gcd a b.
Proof.
  induction k as [|k IH]; intros a b Hb.
  - assert (b = 0) as -> by (simpl in Hb; lia).
    exists a. split; [reflexivity|]. symmetry. apply Z.gcd_0_r.
  - replace (S (2 * S k))%nat with (S (S (S (2 * k)))) by lia.
    cbn [Fraction.gcd_loop]. case_bool_decide as Eb.
    { subst b. exists a. split; [reflexivity|]. symmetry. apply Z.gcd_0_r. }
    assert (Hg : Z.gcd (Z.rem a b) b = Z.gcd a b).
    { rewrite Z.gcd_rem by exact Eb. apply Z.gcd_comm. }
    case_bool_decide as Er.
    { exists b. split; [reflexivity|]. rewrite <- Hg, Er. symmetry. apply Z.gcd_0_l. }
    assert (Hr := Z.rem_bound_abs a b Eb).
    assert (Hh := rem_halves b (Z.rem a b) Er Hr).
    destruct (IH (Z.rem a b) (Z.rem b (Z.rem a b))) as (g & Hl & Habs).
    { rewrite Nat2Z.inj_succ, Z.pow_succ_r in Hb by lia. lia. }
    exists g. split; [exact Hl|]. rewrite Habs.
    rewrite Z.gcd_comm, Z.gcd_rem by exact Er. exact Hg.
Qed.

Lemma gcd_spec a b :
  exists g, Fraction.gcd a b = mret g /\ Z.abs g = Z.gcd a b.
Proof.
  apply gcd_loop_spec. rewrite Nat2Z.inj_succ, Z2Nat.id by apply Z.log2_nonneg.
  destruct (Z.eq_dec b 0) as [->|Hb]; [reflexivity|].
  apply Z.log2_spec. lia.
Qed.

Lemma new_spec N D :
  (N = 0 /\ D = 0 -> Fraction.new N D = raise DivideByZero)
  /\ (~ (N = 0 /\ D = 0) ->
      exists f g,
        Fraction.new N D = mret f
        /\ g <> 0 /\ Z.abs g = Z.gcd N D
        /\ N = Fraction.n f * g /\ D = Fraction.d f * g
        /\ Z.gcd (Fraction.n f) (Fraction.d f) = 1).
Proof.
  unfold Fraction.new.
  destruct (gcd_spec (Z.abs N) D) as (g & Hg & Habs).
  rewrite Z.gcd_abs_l in Habs.
  rewrite (outcome_bind_ret _ _ _ Hg). unfold Fraction.divide. split.
  - intros [-> ->]. change (Z.gcd 0 0) with 0 in Habs.
    assert (g = 0) as -> by (apply Z.abs_0_iff; exact Habs). reflexivity.
  - intros Hnz.
    assert (Hg0 : g <> 0).
    { intros ->. change (Z.abs 0) with 0 in Habs. symmetry in Habs.
      apply Z.gcd_eq_0 in Habs. tauto. }
    rewrite bool_decide_eq_false_2 by exact Hg0.
    assert (Hq : forall m, (Z.gcd N D | m) -> m = Z.quot m g * g).
    { intros m Hm. rewrite <- Habs in Hm. apply (proj1 (Z.divide_abs_l _ _)) in Hm.
      rewrite Z.mul_comm. apply Z.quot_exact; [exact Hg0|].
      apply Z.rem_divide; assumption. }
    assert (HN := Hq N (Z.gcd_divide_l N D)).
    assert (HD := Hq D (Z.gcd_divide_r N D)).
    eexists _, g. split; [reflexivity|]. simpl.
    repeat split; try assumption.
    assert (Hm := Z.gcd_mul_mono_r (Z.quot N g) (Z.quot D g) g).
    rewrite <- HN, <- HD, <- Habs in Hm.
    apply (Z.mul_reg_r _ _ (Z.abs g)); lia.
Qed.

Lemma gcd_loop_nonneg rounds :
  forall a b g, 0 <= a -> 0 <= b ->
    Fraction.gcd_loop rounds a b = mret g -> 0 <= g.
Proof.
  induction rounds as [|rounds IH]; intros a b g Ha Hb H; [discriminate|].
  simpl in H. case_bool_decide as Eb.
  - injection H as <-. exact Ha.
  - apply (IH b (Z.rem a b) g); [exact Hb| |exact H].
    apply Z.rem_nonneg; assumption.
Qed.

(** X12. The loop of [gcd] ends for all integers and returns the greatest
    common divisor up to its sign; for two integers that are not negative it
    returns the greatest common divisor itself. *)
Theorem gcd_returns_the_gcd (a b : Z) :
  exists g,
    Fraction.gcd a b = mret g
    /\ Z.abs g = Z.gcd a b
    /\ (0 <= a -> 0 <= b -> g = Z.gcd a b).
Proof.
  destruct (gcd_spec a b) as (g & Hg & Habs).
  exists g. repeat split; try assumption.
  intros Ha Hb. assert (H := gcd_loop_nonneg _ a b g Ha Hb Hg). lia.
Qed.

(** X13. [new Fraction(n, d)] throws the division by zero of [BigInteger]
    exactly when [n] and [d] are both zero.  Otherwise it divides both by the
    same common divisor [g], the greatest one up to its sign, and the fraction
    it makes is in lowest terms. *)
Theorem Fraction_reduces_to_lowest_terms (N D : Z) :
  (N = 0 /\ D = 0 -> Fraction.new N D = raise DivideByZero)
  /\ (~ (N = 0 /\ D = 0) ->
      exists f g,
        Fraction.new N D = mret f
        /\ g <> 0 /\ Z.abs g = Z.gcd N D
        /\ N = Fraction.n f * g /\ D = Fraction.d f * g
        /\ Z.gcd (Fraction.n f) (Fraction.d f) = 1).
Proof. exact (new_spec N D). Qed.

End FractionFacts.

Section FractionValue.
Import QArith.
Local Close Scope Q_scope.
Local Open Scope Z_scope.

Lemma inject_Z_nonzero (z : Z) : z <> 0 -> ~ (inject_Z z == 0)%Q.
Proof.
  intros Hz H. apply Hz. apply inject_Z_injective. exact H.
Qed.

Lemma new_value N D (q : Q) :
  D <> 0 -> (q * inject_Z D == inject_Z N)%Q ->
  exists f,
    Fraction.new N D = mret f
    /\ Fraction.d f <> 0
    /\ (q * inject_Z (Fraction.d f) == inject_Z (Fraction.n f))%Q
    /\ Z.gcd (Fraction.n f) (Fraction.d f) = 1.
Proof.
  intros HD Hq.
  destruct (new_spec N D) as [_ H].
  destruct H as (f & g & Hf & Hg & _ & HN & HD' & Hgcd); [tauto|].
  exists f. split; [exact Hf|].
  assert (Hd : Fraction.d f <> 0) by (intros E; rewrite E in HD'; lia).
  repeat split; try assumption.
  rewrite HN, HD', !inject_Z_mult in Hq.
  apply (Qmult_inj_r _ _ (inject_Z g)); [apply inject_Z_nonzero, Hg|].
  rewrite <- Hq. ring.
Qed.

Lemma evaluate_value obj :
  forall q, exact_value obj = Some q ->
  exists f,
    Fraction.evaluate obj = mret f
    /\ Fraction.d f <> 0
    /\ (q * inject_Z (Fraction.d f) == inject_Z (Fraction.n f))%Q
    /\ Z.gcd (Fraction.n f) (Fraction.d f) = 1.
Proof.
  induction obj as [value|id|o lhs IHl rhs IHr]; intros q Hq; simpl in Hq.
  - injection Hq as <-. apply new_value; [lia|]. ring.
  - discriminate.
  - destruct (exact_value lhs) as [q1|]; [|discriminate].
    destruct (exact_value rhs) as [q2|]; [|destruct o; discriminate].
    destruct (IHl q1 eq_refl) as (a & Ha & Hda & Hva & _).
    destruct (IHr q2 eq_refl) as (b & Hb & Hdb & Hvb & _).
    cbn [Fraction.evaluate].
    rewrite (outcome_bind_ret _ _ _ Ha), (outcome_bind_ret _ _ _ Hb).
    destruct o; cbn [Fraction.method].
    + injection Hq as <-. apply new_value; [lia|].
      rewrite inject_Z_plus, !inject_Z_mult, <- Hva, <- Hvb. ring.
    + injection Hq as <-. unfold Fraction.sub, Fraction.negate.
      destruct (new_value (- Fraction.n b) (Fraction.d b) (- q2)%Q Hdb)
        as (c & Hc & Hdc & Hvc & _).
      { rewrite inject_Z_opp, <- Hvb. ring. }
      rewrite (outcome_bind_ret _ _ _ Hc).
      apply new_value; [lia|].
      rewrite inject_Z_plus, !inject_Z_mult, <- Hva, <- Hvc. ring.
    + injection Hq as <-. apply new_value; [lia|].
      rewrite !inject_Z_mult, <- Hva, <- Hvb. ring.
    + destruct (Qeq_bool q2 0) eqn:E; [discriminate|]. injection Hq as <-.
      apply Qeq_bool_neq in E.
      assert (Hnb : Fraction.n b <> 0).
      { intros Hn. apply E. rewrite Hn in Hvb.
        apply (Qmult_inj_r _ _ (inject_Z (Fraction.d b)));
          [apply inject_Z_nonzero, Hdb|].
        rewrite Hvb. ring. }
      apply new_value; [lia|].
      rewrite !inject_Z_mult, <- Hva, <- Hvb. field. exact E.
Qed.

(** X14. [evaluateAsFraction] computes exactly: when the formula has no
    names and divides by nothing whose value is zero, [evaluate] returns a
    fraction with a denominator other than zero, equal to the rational number
    the formula denotes, and in lowest terms. *)
Theorem fraction_is_the_exact_value (obj : ast) (q : Q) :
  exact_value obj = Some q ->
  exists f,
    Fraction.evaluate obj = mret f
    /\ Fraction.d f <> 0
    /\ (q == inject_Z (Fraction.n f) / inject_Z (Fraction.d f))%Q
    /\ Z.gcd (Fraction.n f) (Fraction.d f) = 1.
Proof.
  intros Hq. destruct (evaluate_value obj q Hq) as (f & Hf & Hd & Hv & Hg).
  exists f. repeat split; try assumption.
  rewrite <- Hv. field. apply inject_Z_nonzero, Hd.
Qed.

Lemma fraction_is_the_exact_value_witness :
  exact_value (BinOp Plus (BinOp Divide (Num "1") (Num "3"))
                          (BinOp Divide (Num "1") (Num "6")))
  = Some (Qmake 9 18)
  /\ exists f,
      Fraction.evaluate (BinOp Plus (BinOp Divide (Num "1") (Num "3"))
                                    (BinOp Divide (Num "1") (Num "6")))
      = mret f
      /\ Fraction.d f <> 0
      /\ (Qmake 9 18 == inject_Z (Fraction.n f) / inject_Z (Fraction.d f))%Q
      /\ Z.gcd (Fraction.n f) (Fraction.d f) = 1.
Proof.
  split; [reflexivity|].
  apply (fraction_is_the_exact_value
           (BinOp Plus (BinOp Divide (Num "1") (Num "3"))
                       (BinOp Divide (Num "1") (Num "6")))
           (Qmake 9 18)).
  reflexivity.
Defined.

End FractionValue.

Section FractionOutcomes.
Local Open Scope Z_scope.

Lemma new_lowest_terms N D : lowest_terms (Fraction.new N D).
Proof.
  destruct (new_spec N D) as [H0 H1].
  destruct (decide (N = 0 /\ D = 0)) as [H|H].
  - left. auto.
  - right. destruct (H1 H) as (f & g & Hf & _ & _ & _ & _ & Hg). eauto.
Qed.

Lemma method_lowest_terms o a b : lowest_terms (Fraction.method o a b).
Proof.
  destruct o; simpl; try apply new_lowest_terms.
  unfold Fraction.sub, Fraction.negate.
  destruct (new_lowest_terms (- Fraction.n b) (Fraction.d b)) as [->|(c & -> & _)].
  - left. reflexivity.
  - apply new_lowest_terms.
Qed.

(** X15. [evaluate] always ends, in one of three ways: with the syntax error
    that fraction mode has no variables, and then the formula has a name; with
    the division by zero of [BigInteger]; or with a fraction in lowest terms,
    and then the formula has no name. *)
Theorem evaluate_ends_in_one_of_three_ways (obj : ast) :
  (names obj <> []
   /\ Fraction.evaluate obj
      = raise (Raised (SyntaxError "no variables in fraction mode, sorry")))
  \/ Fraction.evaluate obj = raise DivideByZero
  \/ (names obj = []
      /\ exists f, Fraction.evaluate obj = mret f
                   /\ Z.gcd (Fraction.n f) (Fraction.d f) = 1).
Proof.
  induction obj as [value|id|o lhs IHl rhs IHr].
  - right. simpl. destruct (new_lowest_terms (Fraction.BigInteger value) 1)
      as [H|H]; auto.
  - left. split; [discriminate|reflexivity].
  - cbn [Fraction.evaluate names].
    destruct IHl as [[Hn ->]|[->|(Hn & a & -> & _)]].
    + left. split; [|reflexivity]. destruct (names lhs); [congruence|discriminate].
    + right. left. reflexivity.
    + rewrite Hn. cbn [app].
      destruct IHr as [[Hm ->]|[->|(Hm & b & -> & _)]].
      * left. auto.
      * right. left. reflexivity.
      * right. destruct (method_lowest_terms o a b) as [H|H]; auto.
Qed.

Lemma gcd_zero a : Fraction.gcd a 0 = mret a.
Proof. reflexivity. Qed.

Lemma quot_abs (N : Z) : N <> 0 -> Z.quot N (Z.abs N) = Z.sgn N.
Proof.
  intros HN. destruct (Z.abs_spec N) as [[H ->]|[H ->]].
  - rewrite Z.quot_same by lia. lia.
  - rewrite Z.quot_opp_r, Z.quot_same by lia. lia.
Qed.

Lemma new_zero_denominator N :
  Fraction.new N 0
  = if bool_decide (N = 0) then raise DivideByZero
    else mret {| Fraction.n := Z.sgn N; Fraction.d := 0 |}.
Proof.
  unfold Fraction.new. rewrite gcd_zero.
  change (mret (Z.abs N) ≫= ?k) with (k (Z.abs N)). cbv beta.
  unfold Fraction.divide. destruct (decide (N = 0)) as [E|E].
  - rewrite !bool_decide_eq_true_2 by lia. reflexivity.
  - rewrite !bool_decide_eq_false_2 by lia.
    change (mret ?x ≫= ?k) with (k x). cbv beta.
    change (mret ?x ≫= ?k) with (k x). cbv beta.
    rewrite quot_abs by exact E. rewrite Z.quot_0_l by lia. reflexivity.
Qed.

(** X16. Dividing by a fraction whose numerator is zero is not an error of
    its own: the result is the fraction [1/0] or [-1/0], by the sign of the
    product of the dividend's numerator and the divisor's denominator, and
    only when that product is zero too does the constructor throw. *)
Theorem division_by_zero_is_not_reported (lhs rhs : ast) (a b : Fraction.fraction) :
  Fraction.evaluate lhs = mret a -> Fraction.evaluate rhs = mret b ->
  Fraction.n b = 0 ->
  Fraction.evaluate (BinOp Divide lhs rhs)
  = if bool_decide (Fraction.n a * Fraction.d b = 0) then raise DivideByZero
    else mret {| Fraction.n := Z.sgn (Fraction.n a * Fraction.d b);
                 Fraction.d := 0 |}.
Proof.
  intros Ha Hb Hn. cbn [Fraction.evaluate].
  rewrite (outcome_bind_ret _ _ _ Ha), (outcome_bind_ret _ _ _ Hb).
  cbn [Fraction.method]. unfold Fraction.div.
  rewrite Hn, Z.mul_0_r. apply new_zero_denominator.
Qed.

Lemma division_by_zero_is_not_reported_witness :
  (Fraction.evaluate (Num "1") = mret {| Fraction.n := 1; Fraction.d := 1 |}
   /\ Fraction.evaluate (Num "0") = mret {| Fraction.n := 0; Fraction.d := 1 |}
   /\ Fraction.n {| Fraction.n := 0; Fraction.d := 1 |} = 0)
  /\ Fraction.evaluate (BinOp Divide (Num "1") (Num "0"))
     = mret {| Fraction.n := 1; Fraction.d := 0 |}.
Proof.
  split; [repeat split|].
  exact (division_by_zero_is_not_reported (Num "1") (Num "0")
           {| Fraction.n := 1; Fraction.d := 1 |}
           {| Fraction.n := 0; Fraction.d := 1 |}
           eq_refl eq_refl eq_refl).
Defined.

End FractionOutcomes.

Section PrintedFraction.
Local Open Scope Z_scope.

Lemma gcd_nonneg_spec a b :
  0 <= a -> 0 <= b -> Fraction.gcd a b = mret (Z.gcd a b).
Proof.
  intros Ha Hb. destruct (gcd_spec a b) as (g & Hg & Habs).
  assert (H := gcd_loop_nonneg _ a b g Ha Hb Hg).
  rewrite Hg. f_equal. f_equal. lia.
Qed.

Lemma new_in_lowest_terms (N D : Z) :
  0 <= N -> 0 < D -> Z.gcd N D = 1 ->
  Fraction.new N D = mret {| Fraction.n := N; Fraction.d := D |}.
Proof.
  intros Hn Hd Hg. unfold Fraction.new.
  rewrite Z.abs_eq by exact Hn.
  rewrite gcd_nonneg_spec by lia. rewrite Hg.
  change (mret 1 ≫= ?k) with (k 1). cbv beta.
  unfold Fraction.divide. rewrite !bool_decide_eq_false_2 by lia.
  change (mret ?x ≫= ?k) with (k x). cbv beta.
  change (mret ?x ≫= ?k) with (k x). cbv beta.
  rewrite !Z.quot_1_r. reflexivity.
Qed.

Lemma digits_of_uint_acc u :
  forall acc,
    JSDouble.digits_value (N.pos acc) (NilEmpty.string_of_uint u)
    = N.pos (Pos.of_uint_acc u acc).
Proof.
  induction u; intros acc; cbn [NilEmpty.string_of_uint JSDouble.digits_value
                                 Pos.of_uint_acc];
    [reflexivity|..]; rewrite <- IHu; f_equal;
    match goal with
    | |- context [JSDouble.digit_value ?c] =>
        let v := eval vm_compute in (JSDouble.digit_value c) in
        change (JSDouble.digit_value c) with v
    end; lia.
Qed.

Lemma digits_of_uint u :
  JSDouble.digits_value 0 (NilEmpty.string_of_uint u) = Pos.of_uint u.
Proof.
  induction u; cbn [NilEmpty.string_of_uint JSDouble.digits_value Pos.of_uint];
    [reflexivity|exact IHu|..]; apply digits_of_uint_acc.
Qed.

Lemma uint_digits u : all_chars isDigit (NilEmpty.string_of_uint u) = true.
Proof. induction u; [reflexivity|..]; exact IHu. Qed.

Lemma to_string_digits z :
  0 <= z ->
  nonempty (ExactZ.to_string z) = true
  /\ all_chars isDigit (ExactZ.to_string z) = true
  /\ Fraction.BigInteger (ExactZ.to_string z) = z.
Proof.
  intros Hz. unfold ExactZ.to_string, Fraction.BigInteger.
  destruct z as [|p|p]; [repeat split| |lia].
  cbn [Z.to_int NilZero.string_of_int].
  assert (Hs : NilZero.string_of_uint (Pos.to_uint p)
               = NilEmpty.string_of_uint (Pos.to_uint p)).
  { assert (H := DecimalPos.Unsigned.to_uint_nonnil p).
    destruct (Pos.to_uint p); [congruence|reflexivity..]. }
  split; [|split].
  - assert (H := DecimalPos.Unsigned.to_uint_nonnil p).
    destruct (Pos.to_uint p); [congruence|reflexivity..].
  - rewrite Hs. apply uint_digits.
  - rewrite Hs, digits_of_uint, DecimalPos.Unsigned.of_to. reflexivity.
Qed.

Lemma parsePrimaryExpr_number pe v rest :
  nonempty v = true -> all_chars isDigit v = true ->
  parsePrimaryExpr pe (v :: rest) = Some (inr (Num v, rest)).
Proof.
  intros Hne Hd. unfold parsePrimaryExpr. simpl. rewrite Hne, Hd. reflexivity.
Qed.

Lemma parse_number v :
  nonempty v = true -> all_chars isDigit v = true ->
  parse v = Some (inr (Num v)).
Proof.
  intros Hne Hd. unfold parse.
  assert (Ht : tokenize v = [v]).
  { rewrite <- (append_empty v) at 1. apply tokenize_number; [assumption..|exact I]. }
  rewrite Ht. cbn [List.length]. rewrite parseExpr_S. unfold parseMulExpr.
  rewrite (parsePrimaryExpr_number _ v [] Hne Hd).
  rewrite !binop_loop_stops by (left; reflexivity). reflexivity.
Qed.

Lemma parse_quotient v w :
  nonempty v = true -> all_chars isDigit v = true ->
  nonempty w = true -> all_chars isDigit w = true ->
  parse (v +:+ "/" +:+ w) = Some (inr (BinOp Divide (Num v) (Num w))).
Proof.
  intros Hv1 Hv2 Hw1 Hw2. unfold parse.
  assert (Ht : tokenize (v +:+ "/" +:+ w) = [v; "/"; w]).
  { rewrite tokenize_number by (try assumption; split; reflexivity).
    change ("/" +:+ w) with (String "/" w).
    rewrite tokenize_symbol by reflexivity.
    rewrite <- (append_empty w) at 1.
    rewrite tokenize_number by (try assumption; exact I). reflexivity. }
  rewrite Ht. cbn [List.length]. rewrite parseExpr_S. unfold parseMulExpr at 1.
  rewrite (parsePrimaryExpr_number _ v _ Hv1 Hv2).
  rewrite (binop_loop_step isMulOp _ _ _ Divide [w] (Num w) [] eq_refl
             (parsePrimaryExpr_number _ w [] Hw1 Hw2)).
  rewrite !binop_loop_stops by (left; reflexivity). reflexivity.
Qed.

(** X17. What [toString] prints is a formula again: for a fraction in lowest
    terms with a numerator that is not negative and a positive denominator,
    [evaluateAsFraction] applied to the printed text returns that fraction. *)
Theorem printed_fraction_evaluates_to_itself (f : Fraction.fraction) :
  0 <= Fraction.n f -> 0 < Fraction.d f ->
  Z.gcd (Fraction.n f) (Fraction.d f) = 1 ->
  evaluateAsFraction (Fraction.toString f) = mret f.
Proof.
  intros Hn Hd Hg.
  destruct (to_string_digits (Fraction.n f) Hn) as (Hn1 & Hn2 & Hn3).
  destruct (to_string_digits (Fraction.d f) ltac:(lia)) as (Hd1 & Hd2 & Hd3).
  unfold evaluateAsFraction, Fraction.toString.
  destruct (String.eqb_spec (ExactZ.to_string (Fraction.d f)) "1") as [E|E].
  - assert (Hone : Fraction.d f = 1).
    { rewrite <- Hd3, E. reflexivity. }
    rewrite (parse_number _ Hn1 Hn2). cbn [Fraction.evaluate].
    rewrite Hn3, <- Hone, new_in_lowest_terms by assumption.
    destruct f. reflexivity.
  - rewrite (parse_quotient _ _ Hn1 Hn2 Hd1 Hd2). cbn [Fraction.evaluate].
    rewrite Hn3, Hd3.
    rewrite !new_in_lowest_terms by (try lia; apply Z.gcd_1_r).
    change (mret ?x ≫= ?k) with (k x). cbv beta.
    change (mret ?x ≫= ?k) with (k x). cbv beta.
    cbn [Fraction.method]. unfold Fraction.div. cbn [Fraction.n Fraction.d].
    rewrite Z.mul_1_r, Z.mul_1_l, new_in_lowest_terms by assumption.
    destruct f. reflexivity.
Qed.

Lemma printed_fraction_evaluates_to_itself_witness :
  (0 <= 3 /\ 0 < 4 /\ Z.gcd 3 4 = 1)
  /\ evaluateAsFraction "3/4" = mret {| Fraction.n := 3; Fraction.d := 4 |}.
Proof.
  split; [repeat split; reflexivity || lia|].
  apply (printed_fraction_evaluates_to_itself
           {| Fraction.n := 3; Fraction.d := 4 |}); simpl; [lia|lia|reflexivity].
Defined.

End PrintedFraction.

(** * The grammar the parser reads *)

Lemma binop_of_token_inv t o : binop_of_token t = Some o -> t = binop_text o.
Proof.
  unfold binop_of_token.
  destruct (String.eqb_spec t "+"); [intros [= <-]; assumption|].
  destruct (String.eqb_spec t "-"); [intros [= <-]; assumption|].
  destruct (String.eqb_spec t "*"); [intros [= <-]; assumption|].
  destruct (String.eqb_spec t "/"); [intros [= <-]; assumption|].
  discriminate.
Qed.

Lemma notParen_binop o : notParen (binop_text o) = true.
Proof. destruct o; reflexivity. Qed.

Lemma notParen_number t : isNumberToken (Some t) = true -> notParen t = true.
Proof.
  intros H. unfold notParen. repeat case_bool_decide; subst; try reflexivity;
    discriminate.
Qed.

Lemma notParen_name t : isNameToken (Some t) = true -> notParen t = true.
Proof.
  intros H. unfold notParen. repeat case_bool_decide; subst; try reflexivity;
    discriminate.
Qed.

Lemma binop_loop_reads level operand :
  reads operand ->
  forall n expr tokens obj rest,
    binop_loop level operand n expr tokens = Some (inr (obj, rest)) ->
    exists consumed,
      tokens = (consumed ++ rest)%list
      /\ infix obj = (infix expr ++ List.filter notParen consumed)%list.
Proof.
  intros Hop. induction n as [|n IH]; intros expr tokens obj rest H; [discriminate|].
  assert (Hstop : (Some (inr (expr, tokens)) : parsed) = Some (inr (obj, rest)) ->
                  exists consumed,
                    tokens = (consumed ++ rest)%list
                    /\ infix obj = (infix expr ++ List.filter notParen consumed)%list).
  { intros [= <- <-]. exists []. split; [reflexivity|]. simpl.
    rewrite app_nil_r. reflexivity. }
  simpl in H. destruct tokens as [|t ts]; [auto|].
  destruct (binop_of_token t) as [o|] eqn:Et; [|auto].
  destruct (level o); [|auto].
  destruct (operand ts) as [[e|[rhs rest']]|] eqn:Eo; try discriminate.
  destruct (Hop _ _ _ Eo) as (c1 & -> & Hc1).
  destruct (IH _ _ _ _ H) as (c2 & -> & Hc2).
  apply binop_of_token_inv in Et. subst t.
  exists (binop_text o :: c1 ++ c2)%list. split.
  - simpl. rewrite <- app_assoc. reflexivity.
  - rewrite Hc2. simpl. rewrite notParen_binop, List.filter_app, Hc1.
    rewrite <- !app_assoc. reflexivity.
Qed.

Lemma parsePrimaryExpr_reads pe : reads pe -> reads (parsePrimaryExpr pe).
Proof.
  intros Hpe tokens obj rest H. unfold parsePrimaryExpr in H.
  destruct (isNumberToken (head tokens)) eqn:En.
  { destruct tokens as [|t ts]; [discriminate|]. simpl in *.
    injection H as <- <-. exists [t]. split; [reflexivity|].
    simpl. rewrite (notParen_number t En). reflexivity. }
  destruct (isNameToken (head tokens)) eqn:Ei.
  { destruct tokens as [|t ts]; [discriminate|]. simpl in *.
    injection H as <- <-. exists [t]. split; [reflexivity|].
    simpl. rewrite (notParen_name t Ei). reflexivity. }
  case_bool_decide as Ep; [|discriminate].
  destruct tokens as [|t ts]; [discriminate|]. simpl in *.
  injection Ep as ->.
  destruct (pe ts) as [[e|[expr r]]|] eqn:E; try discriminate.
  case_bool_decide as Ec; [|discriminate].
  destruct r as [|t r]; [discriminate|]. simpl in *. injection Ec as ->.
  injection H as <- <-.
  destruct (Hpe _ _ _ E) as (c & -> & Hc).
  exists ("(" :: c ++ [")"])%list. split.
  - simpl. rewrite <- app_assoc. reflexivity.
  - simpl. change (notParen "(") with false. cbn iota.
    rewrite List.filter_app, Hc. simpl. apply app_nil_r.
Qed.

Lemma sequence_reads level f n (a0 : parsed) tokens obj rest :
  reads f ->
  (forall expr rest0, a0 = Some (inr (expr, rest0)) ->
     exists consumed,
       tokens = (consumed ++ rest0)%list
       /\ List.filter notParen consumed = infix expr) ->
  match a0 with
  | Some (inr (expr, rest0)) => binop_loop level f n expr rest0
  | Some (inl e) => Some (inl e)
  | None => None
  end = Some (inr (obj, rest)) ->
  exists consumed,
    tokens = (consumed ++ rest)%list
    /\ List.filter notParen consumed = infix obj.
Proof.
  intros Hf H0 H. destruct a0 as [[e|[expr rest0]]|]; try discriminate.
  destruct (H0 _ _ eq_refl) as (c0 & -> & Hc0).
  destruct (binop_loop_reads level f Hf _ _ _ _ _ H) as (c1 & -> & Hc1).
  exists (c0 ++ c1)%list. split; [apply app_assoc|].
  rewrite List.filter_app, Hc0, Hc1. reflexivity.
Qed.

Lemma parseMulExpr_reads pe n : reads pe -> reads (parseMulExpr pe n).
Proof.
  intros Hpe tokens obj rest H. unfold parseMulExpr in H.
  eapply sequence_reads; [apply parsePrimaryExpr_reads, Hpe| |exact H].
  intros expr rest0 E. exact (parsePrimaryExpr_reads pe Hpe _ _ _ E).
Qed.

Lemma parseExpr_reads n : reads (parseExpr n).
Proof.
  induction n as [|n IH]; intros tokens obj rest H; [discriminate|].
  cbn [parseExpr] in H.
  eapply sequence_reads; [apply parseMulExpr_reads, IH| |exact H].
  intros expr rest0 E. exact (parseMulExpr_reads _ n IH _ _ _ E).
Qed.

(** X21. The parser neither drops nor reorders what it reads: the leaves and
    operators of the AST, from left to right, are the tokens of the text
    without the parentheses. *)
Theorem parser_keeps_the_order_of_the_tokens (code : string) (obj : ast) :
  parse code = Some (inr obj) ->
  List.filter notParen (tokenize code) = infix obj.
Proof.
  unfold parse. intros H.
  destruct (parseExpr (S (List.length (tokenize code))) (tokenize code))
    as [[x|[e [|t r]]]|] eqn:E; try discriminate.
  injection H as <-.
  destruct (parseExpr_reads _ _ _ _ E) as (c & Hc & Hf).
  rewrite Hc, app_nil_r. exact Hf.
Qed.

Lemma parser_keeps_the_order_of_the_tokens_witness :
  parse "2 * (x - (1 + y)) / 3"
  = Some (inr (BinOp Divide
                 (BinOp Times (Num "2")
                    (BinOp Minus (Name "x") (BinOp Plus (Num "1") (Name "y"))))
                 (Num "3")))
  /\ List.filter notParen (tokenize "2 * (x - (1 + y)) / 3")
     = infix (BinOp Divide
                (BinOp Times (Num "2")
                   (BinOp Minus (Name "x") (BinOp Plus (Num "1") (Name "y"))))
                (Num "3")).
Proof.
  split; [reflexivity|].
  apply (parser_keeps_the_order_of_the_tokens "2 * (x - (1 + y)) / 3").
  reflexivity.
Defined.

(** ** Precedence and association *)

Lemma product_sum obj : product obj -> sum_of_products obj.
Proof.
  destruct obj as [v|i|o l r]; simpl; auto.
  intros (Ho & Hl & Hr). rewrite Ho. auto.
Qed.

Lemma binop_loop_shapes level (inner outer : ast -> Prop) operand :
  shapes inner operand ->
  (forall o l r, level o = true -> outer l -> inner r -> outer (BinOp o l r)) ->
  forall n expr tokens obj rest,
    "(" ∉ tokens -> outer expr ->
    binop_loop level operand n expr tokens = Some (inr (obj, rest)) ->
    outer obj /\ "(" ∉ rest.
Proof.
  intros Hop Hstep. induction n as [|n IH]; intros expr tokens obj rest Ht He H;
    [discriminate|].
  simpl in H. destruct tokens as [|t ts]; [injection H as <- <-; auto|].
  destruct (binop_of_token t) as [o|]; [|injection H as <- <-; auto].
  destruct (level o) eqn:El; [|injection H as <- <-; auto].
  destruct (operand ts) as [[e|[rhs rest']]|] eqn:Eo; try discriminate.
  apply not_elem_of_cons in Ht as [_ Hts].
  destruct (Hop _ _ _ Hts Eo) as [Hr Hrest'].
  apply (IH _ _ _ _ Hrest' (Hstep _ _ _ El He Hr) H).
Qed.

Lemma parsePrimaryExpr_shapes pe : shapes is_leaf (parsePrimaryExpr pe).
Proof.
  intros tokens obj rest Ht H. unfold parsePrimaryExpr in H.
  assert (Htail : "(" ∉ tail tokens).
  { destruct tokens as [|t ts]; [exact Ht|]. simpl.
    apply not_elem_of_cons in Ht. tauto. }
  destruct (isNumberToken (head tokens));
    [injection H as <- <-; split; [exact I|exact Htail]|].
  destruct (isNameToken (head tokens));
    [injection H as <- <-; split; [exact I|exact Htail]|].
  case_bool_decide as Ep; [|discriminate].
  destruct tokens as [|t ts]; [discriminate|]. simpl in Ep. injection Ep as ->.
  destruct Ht. left.
Qed.

Lemma parseMulExpr_shapes pe n : shapes product (parseMulExpr pe n).
Proof.
  intros tokens obj rest Ht H. unfold parseMulExpr in H.
  destruct (parsePrimaryExpr pe tokens) as [[e|[expr r]]|] eqn:E; try discriminate.
  destruct (parsePrimaryExpr_shapes pe _ _ _ Ht E) as [Hl Hr].
  eapply (binop_loop_shapes isMulOp is_leaf product);
    [apply parsePrimaryExpr_shapes| |exact Hr| |exact H].
  - intros o lhs rhs Ho Hp Hleaf. simpl. auto.
  - destruct expr; simpl in *; tauto.
Qed.

Lemma parseExpr_shapes n : shapes sum_of_products (parseExpr n).
Proof.
  destruct n as [|n]; intros tokens obj rest Ht H; [discriminate|].
  cbn [parseExpr] in H.
  destruct (parseMulExpr (parseExpr n) n tokens) as [[e|[expr r]]|] eqn:E;
    try discriminate.
  destruct (parseMulExpr_shapes _ _ _ _ _ Ht E) as [Hp Hr].
  eapply (binop_loop_shapes isAddOp product sum_of_products);
    [apply parseMulExpr_shapes| |exact Hr|apply product_sum, Hp|exact H].
  intros o lhs rhs Ho Hs Hprod. simpl.
  destruct o; try discriminate; simpl; auto.
Qed.

(** X22. Where the text has no parentheses, [*] and [/] bind tighter than [+]
    and [-], and operators of one level associate to the left: the AST is a
    chain of [+] and [-] to the left whose right operands are chains of [*]
    and [/] to the left whose right operands are leaves. *)
Theorem precedence_and_left_association (code : string) (obj : ast) :
  "(" ∉ tokenize code ->
  parse code = Some (inr obj) ->
  sum_of_products obj.
Proof.
  unfold parse. intros Ht H.
  destruct (parseExpr (S (List.length (tokenize code))) (tokenize code))
    as [[x|[e [|t r]]]|] eqn:E; try discriminate.
  injection H as <-. exact (proj1 (parseExpr_shapes _ _ _ _ Ht E)).
Qed.

Lemma precedence_and_left_association_witness :
  (("(" ∉ tokenize "1 - 2 * 3 / x - 4")
   /\ parse "1 - 2 * 3 / x - 4"
      = Some (inr (BinOp Minus
                     (BinOp Minus (Num "1")
                        (BinOp Divide (BinOp Times (Num "2") (Num "3")) (Name "x")))
                     (Num "4"))))
  /\ sum_of_products
       (BinOp Minus
          (BinOp Minus (Num "1")
             (BinOp Divide (BinOp Times (Num "2") (Num "3")) (Name "x")))
          (Num "4")).
Proof.
  assert (Ht : "(" ∉ tokenize "1 - 2 * 3 / x - 4").
  { apply (bool_decide_unpack _). vm_compute. exact I. }
  split; [split; [exact Ht|reflexivity]|].
  apply (precedence_and_left_association "1 - 2 * 3 / x - 4" _ Ht). reflexivity.
Defined.

(** * The errors of the parser *)

Lemma binop_loop_errors level operand :
  throws_primary_errors operand ->
  forall n expr tokens e,
    binop_loop level operand n expr tokens = Some (inl e) -> primary_error e.
Proof.
  intros Hop. induction n as [|n IH]; intros expr tokens e H; [discriminate|].
  simpl in H. destruct tokens as [|t ts]; [discriminate|].
  destruct (binop_of_token t) as [o|]; [|discriminate].
  destruct (level o); [|discriminate].
  destruct (operand ts) as [[e'|[rhs rest']]|] eqn:Eo; try discriminate.
  - injection H as <-. exact (Hop _ _ Eo).
  - exact (IH _ _ _ H).
Qed.

Lemma parsePrimaryExpr_errors pe :
  throws_primary_errors pe -> throws_primary_errors (parsePrimaryExpr pe).
Proof.
  intros Hpe tokens e H. unfold parsePrimaryExpr in H.
  destruct (isNumberToken (head tokens)); [discriminate|].
  destruct (isNameToken (head tokens)); [discriminate|].
  case_bool_decide; [|injection H as <-; right; reflexivity].
  destruct (pe (tail tokens)) as [[e'|[expr r]]|] eqn:E; try discriminate.
  - injection H as <-. exact (Hpe _ _ E).
  - case_bool_decide; [discriminate|]. injection H as <-. left. reflexivity.
Qed.

Lemma parseMulExpr_errors pe n :
  throws_primary_errors pe -> throws_primary_errors (parseMulExpr pe n).
Proof.
  intros Hpe tokens e H. unfold parseMulExpr in H.
  destruct (parsePrimaryExpr pe tokens) as [[e'|[expr r]]|] eqn:E; try discriminate.
  - injection H as <-. exact (parsePrimaryExpr_errors pe Hpe _ _ E).
  - exact (binop_loop_errors _ _ (parsePrimaryExpr_errors pe Hpe) _ _ _ _ H).
Qed.

Lemma parseExpr_errors n : throws_primary_errors (parseExpr n).
Proof.
  induction n as [|n IH]; intros tokens e H; [discriminate|].
  cbn [parseExpr] in H.
  destruct (parseMulExpr (parseExpr n) n tokens) as [[e'|[expr r]]|] eqn:E;
    try discriminate.
  - injection H as <-. exact (parseMulExpr_errors _ _ IH _ _ E).
  - exact (binop_loop_errors _ _ (parseMulExpr_errors _ _ IH) _ _ _ _ H).
Qed.

Lemma binop_loop_stops_before level (Q : list string -> Prop) operand :
  (forall ts e r, operand ts = Some (inr (e, r)) -> Q r) ->
  forall n expr tokens obj rest,
    Q tokens ->
    binop_loop level operand n expr tokens = Some (inr (obj, rest)) ->
    Q rest /\ stops_before level rest.
Proof.
  intros Hop. induction n as [|n IH]; intros expr tokens obj rest HQ H;
    [discriminate|].
  simpl in H. destruct tokens as [|t ts]; [injection H as <- <-; simpl; auto|].
  destruct (binop_of_token t) as [o|] eqn:Et.
  2:{ injection H as <- <-. split; [exact HQ|]. simpl. intros o. congruence. }
  destruct (level o) eqn:El.
  2:{ injection H as <- <-. split; [exact HQ|]. simpl. intros o'. congruence. }
  destruct (operand ts) as [[e'|[rhs rest']]|] eqn:Eo; try discriminate.
  exact (IH _ _ _ _ (Hop _ _ _ Eo) H).
Qed.

Lemma parseMulExpr_stops_before pe n tokens obj rest :
  parseMulExpr pe n tokens = Some (inr (obj, rest)) -> stops_before isMulOp rest.
Proof.
  unfold parseMulExpr.
  destruct (parsePrimaryExpr pe tokens) as [[e'|[expr r]]|]; try discriminate.
  intros H.
  exact (proj2 (binop_loop_stops_before isMulOp (fun _ => True) _
                  (fun _ _ _ _ => I) _ _ _ _ _ I H)).
Qed.

Lemma parseExpr_stops_before n tokens obj rest :
  parseExpr n tokens = Some (inr (obj, rest)) ->
  stops_before isMulOp rest /\ stops_before isAddOp rest.
Proof.
  destruct n as [|n]; [discriminate|]. cbn [parseExpr].
  destruct (parseMulExpr (parseExpr n) n tokens) as [[e'|[expr r]]|] eqn:E;
    try discriminate.
  intros H.
  apply (binop_loop_stops_before isAddOp (stops_before isMulOp) _
           (parseMulExpr_stops_before _ _) _ _ _ _ _
           (parseMulExpr_stops_before _ _ _ _ _ E) H).
Qed.

(** X23. [parse] ends for every text, in an AST or in one of three syntax
    errors: a closing parenthesis is missing; a number, a name or an opening
    parenthesis is missing; or a complete formula is followed by a token of
    the text, which is then none of the four operators. *)
Theorem parse_ends_with_an_AST_or_a_syntax_error (code : string) :
  (exists obj, parse code = Some (inr obj))
  \/ parse code = Some (inl (SyntaxError "expected )"))
  \/ parse code
     = Some (inl (SyntaxError "expected a number, a variable, or parentheses"))
  \/ exists t,
       t ∈ tokenize code /\ binop_of_token t = None
       /\ parse code = Some (inl (SyntaxError ("unexpected '" +:+ t +:+ "'"))).
Proof.
  assert (Hsome := parse_total code). unfold parse in *.
  destruct (parseExpr (S (List.length (tokenize code))) (tokenize code))
    as [[e|[obj [|t rest]]]|] eqn:E.
  - destruct (parseExpr_errors _ _ _ E) as [->| ->]; auto.
  - left. eauto.
  - right. right. right. exists t.
    destruct (parseExpr_reads _ _ _ _ E) as (c & Hc & _).
    destruct (parseExpr_stops_before _ _ _ _ E) as [Hm Ha]. simpl in Hm, Ha.
    repeat split.
    + rewrite Hc. apply elem_of_app. right. left.
    + destruct (binop_of_token t) as [o|] eqn:Et; [|reflexivity].
      specialize (Hm o eq_refl). specialize (Ha o eq_refl).
      destruct o; discriminate.
  - contradiction.
Qed.

(** * The parser that reports to a builder *)

Lemma outcome_bind_assoc {A B C : Type} (m : outcome A) (f : A -> outcome B)
    (g : B -> outcome C) :
  ((m ≫= f) ≫= g) = (m ≫= fun a => f a ≫= g).
Proof. destruct m as [[e|a]|]; reflexivity. Qed.

Lemma outcome_bind_mret {A : Type} (m : outcome A) : (m ≫= mret) = m.
Proof. destruct m as [[e|a]|]; reflexivity. Qed.

Lemma outcome_bind_ext {A B : Type} (m : outcome A) (f g : A -> outcome B) :
  (forall a, f a = g a) -> (m ≫= f) = (m ≫= g).
Proof. intros H. destruct m as [[e|a]|]; simpl; auto. Qed.

Lemma after_bind {R A B : Type} (out : Builder.builder R) pending
    (m : outcome A) (k : A -> outcome B) :
  (Builder.after out pending m ≫= k) = Builder.after out pending (m ≫= k).
Proof.
  induction pending as [|obj rest IH]; [reflexivity|]. cbn [Builder.after].
  rewrite outcome_bind_assoc. apply outcome_bind_ext. intros _. exact IH.
Qed.

Lemma pure_fold {R : Type} (out : Builder.builder R) obj :
  Builder.pure out -> exists v, Builder.fold out obj = mret v.
Proof.
  intros (Hn & Hi & Hm). induction obj as [value|id|o lhs IHl rhs IHr]; simpl.
  - apply Hn.
  - apply Hi.
  - destruct IHl as [a ->]. destruct IHr as [b ->]. apply Hm.
Qed.

Lemma pure_after {R A : Type} (out : Builder.builder R) pending (m : outcome A) :
  Builder.pure out -> Builder.after out pending m = m.
Proof.
  intros Hp. induction pending as [|obj rest IH]; [reflexivity|].
  cbn [Builder.after]. destruct (pure_fold out obj Hp) as [v ->]. exact IH.
Qed.

Lemma filter_sublist (p : string -> bool) (l : list string) :
  List.filter p l `sublist_of` l.
Proof.
  induction l as [|x l IH]; simpl; [constructor|].
  destruct (p x); [apply sublist_skip|apply sublist_cons]; exact IH.
Qed.

Lemma reads_sublist f tokens obj rest :
  reads f -> f tokens = Some (inr (obj, rest)) ->
  (infix obj ++ rest)%list `sublist_of` tokens.
Proof.
  intros Hf H. destruct (Hf _ _ _ H) as (c & -> & <-).
  apply sublist_app; [apply filter_sublist|reflexivity].
Qed.

Section Reported.
Context (level : binop -> bool) (f : list string -> parsed)
  (F : forall R : Type, Builder.builder R -> list string -> outcome (R * list string)).
Hypothesis f_wf : gives_wf f.
Hypothesis f_reads : reads f.
Hypothesis f_reported : forall tokens, reported tokens (f tokens) (fun R out => F R out tokens).

(** The loop, entered with the AST [e0] folded. *)
Lemma binop_loop_reported n :
  forall e0 tokens,
    wf_ast e0 ->
    reported (infix e0 ++ tokens)
      (binop_loop level f n e0 tokens)
      (fun R out =>
         Builder.fold out e0 ≫= fun v =>
         Builder.binop_loop out level (F R out) n v tokens).
Proof.
  induction n as [|n IH]; intros e0 tokens Hwf.
  - exists [e0]. split.
    + split; [repeat constructor; exact Hwf|]. simpl. rewrite app_nil_r.
      apply sublist_inserts_r. reflexivity.
    + intros R out. reflexivity.
  - cbn [binop_loop Builder.binop_loop].
    destruct tokens as [|t ts]; [intros R out; reflexivity|].
    destruct (binop_of_token t) as [o|] eqn:Et; [|intros R out; reflexivity].
    destruct (level o); [|intros R out; reflexivity].
    apply binop_of_token_inv in Et. subst t.
    assert (Hop := f_reported ts).
    destruct (f ts) as [[e|[rhs rest']]|] eqn:Ef; cbn [reported] in Hop.
    + destruct Hop as (pending & (Hw & Hs) & Hb).
      exists (e0 :: pending). split.
      * split; [constructor; assumption|]. simpl.
        apply sublist_app; [reflexivity|]. apply sublist_cons. exact Hs.
      * intros R out. rewrite Hb. cbn [Builder.after].
        apply outcome_bind_ext. intros v. rewrite after_bind. reflexivity.
    + assert (Hwr : wf_ast rhs) by exact (f_wf _ _ _ Ef).
      assert (Hsub := reads_sublist f ts rhs rest' f_reads Ef).
      specialize (IH (BinOp o e0 rhs) rest' (conj Hwf Hwr)).
      assert (Hb : forall R (out : Builder.builder R),
        (Builder.fold out e0 ≫= fun v =>
           F R out ts ≫= fun '(rhs0, rest0) =>
           Builder.method out o v rhs0 ≫= fun expr' =>
           Builder.binop_loop out level (F R out) n expr' rest0)
        = (Builder.fold out (BinOp o e0 rhs) ≫= fun v =>
           Builder.binop_loop out level (F R out) n v rest')).
      { intros R out. rewrite Hop. cbn [Builder.fold].
        rewrite outcome_bind_assoc. apply outcome_bind_ext. intros v.
        rewrite !outcome_bind_assoc. apply outcome_bind_ext. intros w.
        reflexivity. }
      assert (Hsub' : (infix (BinOp o e0 rhs) ++ rest')%list
                      `sublist_of` (infix e0 ++ binop_text o :: ts)%list).
      { cbn [infix]. rewrite <- app_assoc. apply sublist_app; [reflexivity|].
        simpl. apply sublist_skip. exact Hsub. }
      destruct (binop_loop level f n (BinOp o e0 rhs) rest') as [[e|[obj rest]]|];
        cbn [reported] in *.
      * destruct IH as (pending & (Hw & Hs) & Hp). exists pending. split.
        -- split; [exact Hw|]. etransitivity; eassumption.
        -- intros R out. rewrite Hb. apply Hp.
      * intros R out. rewrite Hb. apply IH.
      * destruct IH as (pending & (Hw & Hs) & Hp). exists pending. split.
        -- split; [exact Hw|]. etransitivity; eassumption.
        -- intros R out. rewrite Hb. apply Hp.
    + destruct Hop as (pending & (Hw & Hs) & Hb).
      exists (e0 :: pending). split.
      * split; [constructor; assumption|]. simpl.
        apply sublist_app; [reflexivity|]. apply sublist_cons. exact Hs.
      * intros R out. rewrite Hb. cbn [Builder.after].
        apply outcome_bind_ext. intros v. rewrite after_bind. reflexivity.
Qed.

Lemma reported_weaken tokens tokens' a b :
  tokens `sublist_of` tokens' -> reported tokens a b -> reported tokens' a b.
Proof.
  intros Hs H. destruct a as [[e|[obj rest]]|]; cbn [reported] in *; [|exact H|];
    destruct H as (pending & (Hw & Hp) & Hb); exists pending;
    (split; [split; [exact Hw|etransitivity; eassumption]|exact Hb]).
Qed.

(** A first operand and then the loop. *)
Lemma sequence_reported n tokens (a0 : parsed)
    (B0 : forall R : Type, Builder.builder R -> outcome (R * list string)) :
  reported tokens a0 B0 ->
  (forall expr rest0, a0 = Some (inr (expr, rest0)) ->
     wf_ast expr /\ (infix expr ++ rest0)%list `sublist_of` tokens) ->
  reported tokens
    (match a0 with
     | Some (inr (expr, rest)) => binop_loop level f n expr rest
     | Some (inl e) => Some (inl e)
     | None => None
     end)
    (fun R out =>
       B0 R out ≫= fun '(expr, rest) =>
       Builder.binop_loop out level (F R out) n expr rest).
Proof.
  intros H0 Hok. destruct a0 as [[e|[expr rest0]]|]; cbn [reported] in H0.
  - destruct H0 as (pending & Hp & Hb). exists pending. split; [exact Hp|].
    intros R out. rewrite Hb, after_bind. reflexivity.
  - destruct (Hok _ _ eq_refl) as [Hwf Hsub].
    apply (reported_weaken _ _ _ _ Hsub).
    assert (H := binop_loop_reported n expr rest0 Hwf).
    destruct (binop_loop level f n expr rest0) as [[e|[obj rest]]|];
      cbn [reported] in *.
    + destruct H as (pending & Hp & Hb). exists pending. split; [exact Hp|].
      intros R out. rewrite H0, outcome_bind_assoc. apply Hb.
    + intros R out. rewrite H0, outcome_bind_assoc. apply H.
    + destruct H as (pending & Hp & Hb). exists pending. split; [exact Hp|].
      intros R out. rewrite H0, outcome_bind_assoc. apply Hb.
  - destruct H0 as (pending & Hp & Hb). exists pending. split; [exact Hp|].
    intros R out. rewrite Hb, after_bind. reflexivity.
Qed.

(** [parsePrimaryExpr] over the parser [f] of what stands in parentheses. *)
Lemma parsePrimaryExpr_reported tokens :
  reported tokens (parsePrimaryExpr f tokens)
    (fun R out => Builder.parsePrimaryExpr out (F R out) tokens).
Proof.
  unfold parsePrimaryExpr, Builder.parsePrimaryExpr.
  destruct (isNumberToken (head tokens)); [intros R out; reflexivity|].
  destruct (isNameToken (head tokens)); [intros R out; reflexivity|].
  case_bool_decide as Ep.
  2:{ exists []. split; [split; [constructor|apply sublist_nil_l]|].
      intros R out. reflexivity. }
  assert (Hsub : tail tokens `sublist_of` tokens).
  { destruct tokens; [reflexivity|]. simpl. apply sublist_cons. reflexivity. }
  assert (Hf := f_reported (tail tokens)).
  destruct (f (tail tokens)) as [[e|[expr rest]]|] eqn:Ef; cbn [reported] in Hf.
  - destruct Hf as (pending & (Hw & Hs) & Hb). exists pending. split.
    + split; [exact Hw|]. etransitivity; eassumption.
    + intros R out. rewrite Hb, after_bind. reflexivity.
  - case_bool_decide as Ec.
    + intros R out. rewrite Hf, outcome_bind_assoc. apply outcome_bind_ext.
      intros v. change (mret (v, rest) ≫= ?k) with (k (v, rest)). cbv beta iota.
      rewrite bool_decide_eq_true_2 by exact Ec. reflexivity.
    + exists [expr]. split.
      * split; [repeat constructor; exact (f_wf _ _ _ Ef)|]. simpl.
        rewrite app_nil_r. etransitivity; [|exact Hsub].
        etransitivity; [|exact (reads_sublist f _ _ _ f_reads Ef)].
        apply sublist_inserts_r. reflexivity.
      * intros R out. rewrite Hf, outcome_bind_assoc. cbn [Builder.after].
        apply outcome_bind_ext.
        intros v. change (mret (v, rest) ≫= ?k) with (k (v, rest)). cbv beta iota.
        rewrite bool_decide_eq_false_2 by exact Ec. reflexivity.
  - destruct Hf as (pending & (Hw & Hs) & Hb). exists pending. split.
    + split; [exact Hw|]. etransitivity; eassumption.
    + intros R out. rewrite Hb, after_bind. reflexivity.
Qed.

End Reported.

Lemma parseMulExpr_reported pe PE n :
  gives_wf pe -> reads pe ->
  (forall tokens, reported tokens (pe tokens) (fun R out => PE R out tokens)) ->
  forall tokens,
    reported tokens (parseMulExpr pe n tokens)
      (fun R out => Builder.parseMulExpr out (PE R out) n tokens).
Proof.
  intros Hwf Hreads Hpe tokens. unfold parseMulExpr, Builder.parseMulExpr.
  apply (sequence_reported isMulOp (parsePrimaryExpr pe)
           (fun R out => Builder.parsePrimaryExpr out (PE R out))).
  - apply parsePrimaryExpr_wf, Hwf.
  - apply parsePrimaryExpr_reads, Hreads.
  - intros ts. apply parsePrimaryExpr_reported; assumption.
  - apply parsePrimaryExpr_reported; assumption.
  - intros expr rest0 E. split.
    + exact (parsePrimaryExpr_wf pe Hwf _ _ _ E).
    + exact (reads_sublist _ _ _ _ (parsePrimaryExpr_reads pe Hreads) E).
Qed.

Lemma parseExpr_reported n :
  forall tokens,
    reported tokens (parseExpr n tokens)
      (fun R out => Builder.parseExpr out n tokens).
Proof.
  induction n as [|n IH]; intros tokens.
  - exists []. split; [split; [constructor|apply sublist_nil_l]|].
    intros R out. reflexivity.
  - cbn [parseExpr Builder.parseExpr].
    apply (sequence_reported isAddOp (parseMulExpr (parseExpr n) n)
             (fun R out => Builder.parseMulExpr out (Builder.parseExpr out n) n)).
    + apply parseMulExpr_wf, parseExpr_wf.
    + apply parseMulExpr_reads, parseExpr_reads.
    + intros ts. apply (parseMulExpr_reported (parseExpr n)
                          (fun R out => Builder.parseExpr out n));
        [apply parseExpr_wf|apply parseExpr_reads|exact IH].
    + apply (parseMulExpr_reported (parseExpr n)
               (fun R out => Builder.parseExpr out n));
        [apply parseExpr_wf|apply parseExpr_reads|exact IH].
    + intros expr rest0 E. split.
      * exact (parseMulExpr_wf _ _ (parseExpr_wf n) _ _ _ E).
      * exact (reads_sublist _ _ _ _ (parseMulExpr_reads _ n (parseExpr_reads n)) E).
Qed.

Lemma parse_reported code :
  match parse code with
  | Some (inr obj) =>
      forall R (out : Builder.builder R),
        Builder.parse code out = Builder.fold out obj
  | Some (inl e) =>
      exists pending,
        parsed_before (tokenize code) pending
        /\ forall R (out : Builder.builder R),
             Builder.parse code out = Builder.after out pending (raise (Raised e))
  | None =>
      exists pending,
        forall R (out : Builder.builder R),
          Builder.parse code out = Builder.after out pending None
  end.
Proof.
  unfold parse, Builder.parse.
  assert (H := parseExpr_reported (S (List.length (tokenize code))) (tokenize code)).
  destruct (parseExpr (S (List.length (tokenize code))) (tokenize code))
    as [[e|[obj rest]]|] eqn:E; cbn [reported] in H.
  - destruct H as (pending & Hp & Hb). exists pending. split; [exact Hp|].
    intros R out. rewrite Hb, after_bind. reflexivity.
  - destruct rest as [|t rest].
    + intros R out. rewrite H, outcome_bind_assoc. apply outcome_bind_mret.
    + exists [obj]. split.
      * split; [repeat constructor; exact (parseExpr_wf _ _ _ _ E)|]. simpl.
        rewrite app_nil_r. etransitivity;
          [|exact (reads_sublist _ _ _ _ (parseExpr_reads _) E)].
        apply sublist_inserts_r. reflexivity.
      * intros R out. rewrite H, outcome_bind_assoc. reflexivity.
  - destruct H as (pending & Hp & Hb). exists pending.
    intros R out. rewrite Hb, after_bind. reflexivity.
Qed.

(** X18. The parser that reports to a builder does what the parser that
    builds the AST does, followed by a fold of the AST.  Where [parse(code)]
    returns an AST, [parse(code, out)] ends as the calls of [out] for that
    AST, made left operand first, end.  Where [parse(code)] throws a syntax
    error, [parse(code, out)] has made the calls for the ASTs it had finished,
    which are read from the tokens of the text in their order and are the same
    for every builder, and throws that error unless one of these calls did
    not return. *)
Theorem reporting_parser_folds_the_AST (code : string) :
  match parse code with
  | Some (inr obj) =>
      forall R (out : Builder.builder R),
        Builder.parse code out = Builder.fold out obj
  | Some (inl e) =>
      exists pending,
        Forall wf_ast pending
        /\ concat (map infix pending) `sublist_of` tokenize code
        /\ forall R (out : Builder.builder R),
             Builder.parse code out = Builder.after out pending (raise (Raised e))
  | None => True
  end.
Proof.
  assert (H := parse_reported code).
  destruct (parse code) as [[e|obj]|]; [|exact H|exact I].
  destruct H as (pending & (Hw & Hs) & Hb). exists pending. auto.
Qed.

(** X19. With a builder whose methods always return, the two parsers cannot
    be told apart: [parse(code, out)] is the fold of the AST of [parse(code)]
    and throws the same syntax errors. *)
Theorem pure_builder_sees_the_same_errors {R : Type} (out : Builder.builder R)
    (code : string) :
  Builder.pure out ->
  Builder.parse code out
  = match parse code with
    | Some (inr obj) => Builder.fold out obj
    | Some (inl e) => raise (Raised e)
    | None => None
    end.
Proof.
  intros Hp. assert (H := parse_reported code).
  destruct (parse code) as [[e|obj]|].
  - destruct H as (pending & _ & Hb). rewrite Hb. apply pure_after, Hp.
  - apply H.
  - destruct H as (pending & Hb). rewrite Hb. apply pure_after, Hp.
Qed.

Lemma pure_builder_sees_the_same_errors_witness :
  Builder.pure Builder.astBuilder
  /\ Builder.parse "(1 + 2) * x +" Builder.astBuilder
     = match parse "(1 + 2) * x +" with
       | Some (inr obj) => Builder.fold Builder.astBuilder obj
       | Some (inl e) => raise (Raised e)
       | None => None
       end.
Proof.
  assert (Hp : Builder.pure Builder.astBuilder).
  { repeat split; intros; try destruct o; eexists; reflexivity. }
  split; [exact Hp|].
  apply (pure_builder_sees_the_same_errors Builder.astBuilder "(1 + 2) * x +" Hp).
Defined.

Lemma fold_astBuilder obj :
  Builder.fold Builder.astBuilder obj = mret (Builder.tree_of obj).
Proof.
  induction obj as [value|id|o lhs IHl rhs IHr]; simpl; try reflexivity.
  rewrite IHl, IHr. destruct o; reflexivity.
Qed.

Lemma fold_jsFunctionBuilder obj :
  Builder.fold Builder.jsFunctionBuilder obj = Builder.thrown (Some (emit obj)).
Proof.
  induction obj as [value|id|o lhs IHl rhs IHr]; simpl.
  - reflexivity.
  - destruct (negb (id =? "x")); reflexivity.
  - rewrite IHl, IHr. destruct (emit lhs) as [e|a]; [reflexivity|].
    destruct (emit rhs) as [e|b]; [reflexivity|]. destruct o; reflexivity.
Qed.

(** X20. For a text that parses, the back ends written as builders give what
    the back ends written over the AST give: the same function body or the
    same error from [compileToJSFunction], and from [convertToAST] the AST
    itself with the operators spelled out. *)
Theorem builder_back_ends_agree_on_parsed_text (code : string) (obj : ast) :
  parse code = Some (inr obj) ->
  Builder.compileToJSFunction code = Builder.thrown (compileToJSFunction code)
  /\ Builder.convertToAST code = mret (Builder.tree_of obj).
Proof.
  intros Hp. assert (H := parse_reported code). rewrite Hp in H.
  unfold Builder.compileToJSFunction, compileToJSFunction, Builder.convertToAST.
  rewrite Hp, !H, fold_jsFunctionBuilder, fold_astBuilder.
  split; [|reflexivity]. destruct (emit obj); reflexivity.
Qed.

Lemma builder_back_ends_agree_on_parsed_text_witness :
  parse "x / (2 - x)"
  = Some (inr (BinOp Divide (Name "x") (BinOp Minus (Num "2") (Name "x"))))
  /\ (Builder.compileToJSFunction "x / (2 - x)"
      = Builder.thrown (compileToJSFunction "x / (2 - x)")
      /\ Builder.convertToAST "x / (2 - x)"
         = mret (Builder.tree_of
                   (BinOp Divide (Name "x") (BinOp Minus (Num "2") (Name "x"))))).
Proof.
  split; [reflexivity|].
  apply (builder_back_ends_agree_on_parsed_text "x / (2 - x)"). reflexivity.
Defined.

(** The assert of [convertToAST]. *)
Example convertToAST_test :
  Builder.convertToAST "(1 + 2) / 3"
  = mret (Builder.TNode "div"
            (Builder.TNode "add" (Builder.TNumber "1") (Builder.TNumber "2"))
            (Builder.TNumber "3")).
Proof. reflexivity. Qed.

(** Where the text does not parse, a builder that throws can be first: the
    name [y] is refused before the missing operand is seen. *)
Example builder_throws_first :
  Builder.compileToJSFunction "y +"
  = raise (Raised (SyntaxError "only the name 'x' is allowed"))
  /\ compileToJSFunction "y +"
     = Some (inl (SyntaxError "expected a number, a variable, or parentheses")).
Proof. split; reflexivity. Qed.

(** ** The two versions of [Fraction] *)

Section TwoFractions.
Local Open Scope Z_scope.

Lemma new_with_gcd N D g :
  Fraction.gcd (Z.abs N) D = mret g -> g <> 0 ->
  Fraction.new N D = mret {| Fraction.n := Z.quot N g; Fraction.d := Z.quot D g |}.
Proof.
  intros Hg Hg0. unfold Fraction.new. rewrite Hg.
  change (mret g ≫= ?k) with (k g). cbv beta.
  unfold Fraction.divide. rewrite !bool_decide_eq_false_2 by exact Hg0.
  reflexivity.
Qed.

Lemma builder_new_with_gcd N D g :
  Fraction.gcd N D = mret g -> g <> 0 ->
  BuilderFraction.new N D
  = mret {| Fraction.n := Z.quot N g; Fraction.d := Z.quot D g |}.
Proof.
  intros Hg Hg0. unfold BuilderFraction.new. rewrite Hg.
  change (mret g ≫= ?k) with (k g). cbv beta.
  unfold Fraction.divide. rewrite !bool_decide_eq_false_2 by exact Hg0.
  reflexivity.
Qed.

Lemma new_pair N D N' D' :
  (N' = N /\ D' = D) \/ (N' = - N /\ D' = - D) ->
  same_outcome (Fraction.new N D) (BuilderFraction.new N' D').
Proof.
  intros Hs.
  destruct (gcd_spec (Z.abs N) D) as (g1 & Hg1 & Habs1).
  destruct (gcd_spec N' D') as (g2 & Hg2 & Habs2).
  rewrite Z.gcd_abs_l in Habs1.
  assert (Habs : Z.abs g2 = Z.abs g1).
  { rewrite Habs1, Habs2. destruct Hs as [[-> ->]|[-> ->]]; [reflexivity|].
    rewrite Z.gcd_opp_l, Z.gcd_opp_r. reflexivity. }
  destruct (Z.eq_dec g1 0) as [E1|E1].
  - assert (E2 : g2 = 0) by lia. subst g1 g2.
    unfold Fraction.new, BuilderFraction.new. rewrite Hg1, Hg2. reflexivity.
  - assert (E2 : g2 <> 0) by lia.
    rewrite (new_with_gcd N D g1 Hg1 E1), (builder_new_with_gcd N' D' g2 Hg2 E2).
    change (same_fraction
              {| Fraction.n := Z.quot N g1; Fraction.d := Z.quot D g1 |}
              {| Fraction.n := Z.quot N' g2; Fraction.d := Z.quot D' g2 |}).
    unfold same_fraction. cbn [Fraction.n Fraction.d].
    assert (Hg : g2 = g1 \/ g2 = - g1) by lia.
    destruct Hs as [[-> ->]|[-> ->]], Hg as [->| ->];
      rewrite ?Z.quot_opp_l, ?Z.quot_opp_r, ?Z.opp_involutive by lia; auto.
Qed.

Lemma method_pair o a a' b b' :
  same_fraction a a' -> same_fraction b b' ->
  same_outcome (Fraction.method o a b) (Builder.method Builder.fractionCalculator o a' b').
Proof.
  intros Ha Hb.
  assert (Hneg : same_outcome (Fraction.negate b) (BuilderFraction.negate b')).
  { unfold Fraction.negate, BuilderFraction.negate. apply new_pair.
    destruct Hb as [[-> ->]|[-> ->]]; [left|right]; split; lia. }
  destruct o; cbn [Fraction.method Builder.method Builder.fractionCalculator
                   Builder.add Builder.sub Builder.mul Builder.div].
  - unfold Fraction.add, BuilderFraction.add. apply new_pair.
    destruct Ha as [[-> ->]|[-> ->]], Hb as [[-> ->]|[-> ->]];
      [left|right|right|left]; split; ring.
  - unfold Fraction.sub, BuilderFraction.sub.
    destruct (Fraction.negate b) as [[e|c]|], (BuilderFraction.negate b') as [[e'|c']|];
      cbn [same_outcome] in Hneg; try contradiction; try (subst; reflexivity).
    change (mret c ≫= ?k) with (k c). change (mret c' ≫= ?k) with (k c').
    cbv beta. unfold Fraction.add, BuilderFraction.add. apply new_pair.
    destruct Ha as [[-> ->]|[-> ->]], Hneg as [[-> ->]|[-> ->]];
      [left|right|right|left]; split; ring.
  - unfold Fraction.mul, BuilderFraction.mul. apply new_pair.
    destruct Ha as [[-> ->]|[-> ->]], Hb as [[-> ->]|[-> ->]];
      [left|right|right|left]; split; ring.
  - unfold Fraction.div, BuilderFraction.div. apply new_pair.
    destruct Ha as [[-> ->]|[-> ->]], Hb as [[-> ->]|[-> ->]];
      [left|right|right|left]; split; ring.
Qed.

Lemma fold_fractionCalculator obj :
  same_outcome (Fraction.evaluate obj)
    (Builder.fold Builder.fractionCalculator obj).
Proof.
  induction obj as [value|id|o lhs IHl rhs IHr]; cbn [Fraction.evaluate Builder.fold].
  - apply new_pair. left. auto.
  - reflexivity.
  - destruct (Fraction.evaluate lhs) as [[e|a]|],
      (Builder.fold Builder.fractionCalculator lhs) as [[e'|a']|];
      cbn [same_outcome] in IHl; try contradiction; try (subst; reflexivity).
    change (mret a ≫= ?k) with (k a). change (mret a' ≫= ?k) with (k a').
    cbv beta.
    destruct (Fraction.evaluate rhs) as [[e|b]|],
      (Builder.fold Builder.fractionCalculator rhs) as [[e'|b']|];
      cbn [same_outcome] in IHr; try contradiction; try (subst; reflexivity).
    change (mret b ≫= ?k) with (k b). change (mret b' ≫= ?k) with (k b').
    cbv beta. apply method_pair; assumption.
Qed.

(** X24. The fraction calculator written as a builder, whose [Fraction] passes
    [n] to [gcd] without [abs], ends as the one over the AST ends for a text
    that parses: in the same error, or in a fraction that differs from the
    other in the sign of both the numerator and the denominator at most. *)
Theorem builder_fractions_agree_up_to_sign (code : string) (obj : ast) :
  parse code = Some (inr obj) ->
  same_outcome (evaluateAsFraction code) (Builder.evaluateAsFraction code).
Proof.
  intros Hp. assert (H := parse_reported code). rewrite Hp in H.
  unfold evaluateAsFraction, Builder.evaluateAsFraction. rewrite Hp, H.
  apply fold_fractionCalculator.
Qed.

Lemma builder_fractions_agree_up_to_sign_witness :
  parse "1/2 - 1"
  = Some (inr (BinOp Minus (BinOp Divide (Num "1") (Num "2")) (Num "1")))
  /\ same_outcome (evaluateAsFraction "1/2 - 1")
       (Builder.evaluateAsFraction "1/2 - 1").
Proof.
  split; [reflexivity|].
  apply (builder_fractions_agree_up_to_sign "1/2 - 1"
           (BinOp Minus (BinOp Divide (Num "1") (Num "2")) (Num "1"))).
  reflexivity.
Defined.

(** The sign can differ: the two versions print [1/2 - 1] differently. *)
Example builder_fraction_sign :
  shown (evaluateAsFraction "1/2 - 1") = mret "-1/2"
  /\ shown (Builder.evaluateAsFraction "1/2 - 1") = mret "1/-2".
Proof. split; vm_compute; reflexivity. Qed.

End TwoFractions.
